(** * The code-review job pipeline: orchestrator, queue and worker

  A shallow embedding of
    - [backend/src/agents/BaseAgent.js]          (one agent's run),
    - [backend/src/agents/AgentOrchestrator.js]  (fan-out / fan-in),
    - [backend/src/queues/reviewQueue.js]        (enqueueing),
    - [backend/src/workers/reviewWorker.js]      (the per-job pipeline),
    - [backend/src/services/githubService.js]    (the files of a clone),
    - [backend/src/utils/validators.js] and [responses.js],
    - [backend/src/routes/jobs.js] and [repositories.js] (helpers,
      the update of a job, the creation of a repository),
    - [frontend/src/components/JobProgress.tsx]  (the duration shown),
  followed by the properties of the pipeline's specification and by
  further properties of the code.

  JavaScript objects used as dictionaries are finite maps from property
  names, arrays are lists, [await]ed calls to collaborators are answered
  by an explicit environment, and exceptions are a completion value. *)

From stdpp Require Import gmap strings list fin_maps pretty sorting.
From Stdlib Require Import ZArith Lia Ascii.

Local Open Scope Z_scope.

(** ** JavaScript values the pipeline relies on *)

Module Js.

(** An [Error] object: the worker reads [message] and [stack]. *)
Record Error := mkError { message : string; stack : string }.

(** How an [await]ed call ends: with a value, or by raising. *)
Inductive Completion (A : Type) :=
| Return (a : A)
| Throw (e : Error).
Arguments Return {A} a.
Arguments Throw {A} e.

(** A counter stored in an object: a number or [NaN]. *)
Inductive num := Num (z : Z) | NaN.

Definition num_add (a b : num) : num :=
  match a, b with
  | Num x, Num y => Num (x + y)
  | _, _ => NaN
  end.

(** Truthiness of an optional string ([undefined] and the empty string are falsy). *)
Definition truthy_str (s : option string) : bool :=
  match s with
  | Some s => negb (String.eqb s EmptyString)
  | None => false
  end.

(** Truthiness of an optional number ([undefined] and [0] are falsy). *)
Definition truthy_num (n : option Z) : bool :=
  match n with
  | Some z => negb (z =? 0)
  | None => false
  end.

(** [x || d] on optional strings. *)
Definition or_str (s : option string) (d : string) : string :=
  match s with
  | Some s => if String.eqb s EmptyString then d else s
  | None => d
  end.

(** A number read from a field that may be [undefined]. *)
Definition to_num (n : option Z) : num :=
  match n with
  | Some z => Num z
  | None => NaN
  end.

(** The property key an optional string stands for in [obj[key]]. *)
Definition property_key (s : option string) : string :=
  match s with
  | Some s => s
  | None => "undefined"
  end.

(** [Math.round (s / n)] for integers [s] and [n > 0]: the nearest integer,
    halves going up. *)
Definition round_div (s n : Z) : Z := (2 * s + n) / (2 * n).

(** [obj[k]++] on an object literal whose own properties are counters.
    A present counter is incremented.  An absent key reads as [undefined]
    (or as a member of [Object.prototype]), which converts to [NaN], and
    the assignment creates the own property [k] holding [NaN]; the one
    exception is ["__proto__"], whose setter ignores a number. *)
Definition incr (obj : gmap string num) (k : string) : gmap string num :=
  match obj !! k with
  | Some (Num z) => <[k := Num (z + 1)]> obj
  | Some NaN => obj
  | None => if String.eqb k "__proto__" then obj else <[k := NaN]> obj
  end.

End Js.

(** ** BaseAgent.js and the four agent classes *)

Module BaseAgent.
Import Js.

(** One element of [findings.issues], in the structure the prompt asks
    the model for.  Every field may be missing. *)
Record Issue := mkIssue {
  severity : option string;
  line : option Z;
  description : option string;
  recommendation : option string
}.

(** The parsed analysis: [{issues, summary, score}].  Answers that parse
    to a value of another shape (a score that is not a number, issues
    that are not an array of objects) are not represented here; the
    orchestrator over answers of any shape is in [Answers] below. *)
Record Findings := mkFindings {
  issues : option (list Issue);
  score : option Z;
  summary : option string
}.

(** What [analyze] resolves to: the success object carries [findings] and
    [tokensUsed], the failure object carries [error].  The [duration],
    [model] and [timestamp] fields are never read and are left out. *)
Record AgentResult := mkAgentResult {
  agentName : option string;
  specialty : option string;
  error : option string;
  findings : option Findings;
  tokensUsed : option Z
}.

(** The configuration each agent class passes to [super]. *)
Record Agent := mkAgent {
  name : string;
  agent_specialty : string;
  systemPrompt : string;
  model : string
}.

(** The part of the chat completion the agent reads. *)
Record Response := mkResponse {
  content : string;
  total_tokens : Z
}.

(** The remote text-analysis service and the JSON parser.  [JSON_parse]
    gives the parsed analysis ([None] for a falsy value such as [null]) or
    raises a [SyntaxError]. *)
Record Backend := mkBackend {
  create : string → string → string → Completion Response;
  JSON_parse : string → Completion (option Findings)
}.

(** The fixed closing paragraph of the prompt, which spells out the JSON
    structure of [Findings]; its text is abbreviated. *)
Definition responseStructure : string :=
  "Return your analysis as JSON with this structure: { issues: [ { severity: high|medium|low, line, description, recommendation } ], summary, score: <0-100> }".

Definition buildUserPrompt (code language : string) : string :=
  "
Analyze the following " +:+ language +:+ " code and provide your findings in JSON format.

Code:
```" +:+ language +:+ "
" +:+ code +:+ "
```

" +:+ responseStructure +:+ "
".

(** [analyze(code, language)]: the whole body sits in [try]/[catch], and
    the [catch] block returns the failure object. *)
Definition analyze (b : Backend) (a : Agent) (code language : string)
    : Completion AgentResult :=
  let failure (e : Error) :=
    Return {| agentName := Some (name a);
              specialty := Some (agent_specialty a);
              error := Some (message e);
              findings := None;
              tokensUsed := None |} in
  let userPrompt := buildUserPrompt code language in
  match create b (model a) (systemPrompt a) userPrompt with
  | Throw e => failure e
  | Return response =>
      match JSON_parse b (content response) with
      | Throw e => failure e
      | Return analysis =>
          Return {| agentName := Some (name a);
                    specialty := Some (agent_specialty a);
                    error := None;
                    findings := analysis;
                    tokensUsed := Some (total_tokens response) |}
      end
  end.

(** The subclasses only fix the configuration; each system prompt is
    cut after its first sentence. *)
Definition BugDetectionAgent : Agent :=
  {| name := "Bug Detective"; agent_specialty := "bug_detection";
     systemPrompt := "You are an expert bug detection specialist with 15 years of experience finding critical bugs in production code.";
     model := "gpt-4o-mini" |}.
Definition PerformanceAgent : Agent :=
  {| name := "Performance Optimizer"; agent_specialty := "performance";
     systemPrompt := "You are a performance optimization expert focused on code efficiency.";
     model := "gpt-4o-mini" |}.
Definition StyleAgent : Agent :=
  {| name := "Code Style Critic"; agent_specialty := "style";
     systemPrompt := "You are a code quality expert focused on maintainability and readability.";
     model := "gpt-4o-mini" |}.
Definition SecurityAgent : Agent :=
  {| name := "Security Guardian"; agent_specialty := "security";
     systemPrompt := "You are a cybersecurity expert specializing in code security vulnerabilities.";
     model := "gpt-4o-mini" |}.

End BaseAgent.

(** ** AgentOrchestrator.js *)

Module Orchestrator.
Import Js.
Export BaseAgent.

(** An element of [allIssues]: [{...issue, agent, specialty}]. *)
Record TaggedIssue := mkTagged {
  issue : Issue;
  agent : option string;
  issue_specialty : option string
}.

Record Metrics := mkMetrics {
  agentsRun : nat;
  totalTokens : num
}.

(** The object [aggregateResults] returns.  [metrics.totalDuration],
    [metrics.estimatedCost] and [timestamp] are clock readings and
    floating-point text and are left out. *)
Record Report := mkReport {
  success : bool;
  overallScore : Z;
  totalIssuesFound : nat;
  issuesBySeverity : gmap string num;
  agentResults : list AgentResult;
  failedAgents : list AgentResult;
  allIssues : list TaggedIssue;
  metrics : Metrics
}.

(** [r => r.error] *)
Definition has_error (r : AgentResult) : bool := truthy_str (error r).

(** [r => r.findings && r.findings.score] *)
Definition has_score (r : AgentResult) : bool :=
  match findings r with
  | Some f => truthy_num (score f)
  | None => false
  end.

Definition score_of (r : AgentResult) : Z :=
  match findings r with
  | Some f => default 0 (score f)
  | None => 0
  end.

(** [result.findings && result.findings.issues], then the array itself. *)
Definition issues_of (r : AgentResult) : list Issue :=
  match findings r with
  | Some f => default [] (issues f)
  | None => []
  end.

Definition tag (r : AgentResult) (i : Issue) : TaggedIssue :=
  {| issue := i; agent := agentName r; issue_specialty := specialty r |}.

(** The two accumulators the nested [forEach] updates. *)
Definition Acc : Type := gmap string num * list TaggedIssue.

Definition visit_issue (r : AgentResult) (acc : Acc) (i : Issue) : Acc :=
  (incr acc.1 (property_key (severity i)), acc.2 ++ [tag r i]).

Definition visit_result (acc : Acc) (r : AgentResult) : Acc :=
  fold_left (visit_issue r) (issues_of r) acc.

Definition initial_tally : gmap string num :=
  <["high" := Num 0]> (<["medium" := Num 0]> (<["low" := Num 0]> ∅)).

Definition sum_Z (l : list Z) : Z := fold_left Z.add l 0.

(** [scores.length > 0 ? Math.round(sum / scores.length) : 0] *)
Definition mean_score (scores : list Z) : Z :=
  match scores with
  | [] => 0
  | _ => round_div (sum_Z scores) (Z.of_nat (length scores))
  end.

Definition aggregateResults (results : list AgentResult) : Report :=
  let successful := List.filter (λ r, negb (has_error r)) results in
  let failed := List.filter has_error results in
  let acc := fold_left visit_result successful (initial_tally, []) in
  let scores := map score_of (List.filter has_score successful) in
  let overall := mean_score scores in
  let tokens :=
    fold_left (λ sum r, num_add sum (to_num (tokensUsed r))) successful (Num 0) in
  {| success := true;
     overallScore := overall;
     totalIssuesFound := length acc.2;
     issuesBySeverity := acc.1;
     agentResults := successful;
     failedAgents := failed;
     allIssues := acc.2;
     metrics := {| agentsRun := length successful; totalTokens := tokens |} |}.

Record AgentOrchestrator := { agents : list Agent }.

(** [new AgentOrchestrator()] *)
Definition new_AgentOrchestrator : AgentOrchestrator :=
  {| agents := [BugDetectionAgent; PerformanceAgent; StyleAgent; SecurityAgent] |}.

(** [Promise.all]: fulfilled with all values when every promise is
    fulfilled, rejected as soon as one is.  When several reject, the
    reason kept is that of the earliest in time; the model keeps the
    first in array order, and no statement below depends on which. *)
Fixpoint Promise_all {A} (ps : list (Completion A)) : Completion (list A) :=
  match ps with
  | [] => Return []
  | Throw e :: _ => Throw e
  | Return a :: ps =>
      match Promise_all ps with
      | Return l => Return (a :: l)
      | Throw e => Throw e
      end
  end.

(** The body of [analyzeCode], for any way [invoke] of running one agent
    on the file at hand.  The [catch] block logs and rethrows. *)
Definition analyzeCode_with (o : AgentOrchestrator)
    (invoke : Agent → Completion AgentResult) : Completion Report :=
  let agentPromises := map invoke (agents o) in
  match Promise_all agentPromises with
  | Return results => Return (aggregateResults results)
  | Throw e => Throw e
  end.

(** [analyzeCode(code, language)] *)
Definition analyzeCode (b : Backend) (o : AgentOrchestrator)
    (code language : string) : Completion Report :=
  analyzeCode_with o (λ agent, analyze b agent code language).

End Orchestrator.

(** ** reviewQueue.js *)

Module ReviewQueue.

(** The payload [{jobId, repoId, queuedAt}]. *)
Record JobData := mkJobData {
  jobId : string;
  repoId : string;
  queuedAt : nat
}.

(** The [options] argument of [queueReviewJob]; every field may be
    missing.  [attempts] stands for the further job options a caller may
    spread in. *)
Record Options := mkOptions {
  opt_jobId : option string;
  opt_priority : option Z;
  opt_delay : option Z;
  opt_attempts : option Z
}.

Definition no_options : Options :=
  {| opt_jobId := None; opt_priority := None; opt_delay := None;
     opt_attempts := None |}.

(** The job options handed to the queue. *)
Record JobOpts := mkJobOpts {
  o_jobId : string;
  o_priority : Z;
  o_delay : Z;
  o_attempts : Z
}.

(** A job held by the queue. *)
Record QueueJob := mkQueueJob {
  id : string;
  job_name : string;
  data : JobData;
  opts : JobOpts
}.

(** What the queue does with an [add] whose id it already holds. *)
Inductive OnDuplicate := KeepExisting | UpdateExisting.

(** The entries of the queue, oldest first. *)
Definition Queue : Type := list QueueJob.

Definition has_id (i : string) (j : QueueJob) : bool := String.eqb (id j) i.

Fixpoint replace_id (j : QueueJob) (q : Queue) : Queue :=
  match q with
  | [] => []
  | j' :: q => if has_id (id j) j' then j :: q else j' :: replace_id j q
  end.

(** Modelled from the spec: the queue library's [add] is a dependency of
    the repository, not part of it.  The queue is keyed by the id given in
    the job options: "idempotent on jobId — re-enqueuing the same id
    updates rather than duplicates".  Whether the entry already held is
    kept or overwritten is left to [policy]. *)
Definition add (policy : OnDuplicate) (q : Queue)
    (name : string) (d : JobData) (o : JobOpts) : Queue * QueueJob :=
  let j := {| id := o_jobId o; job_name := name; data := d; opts := o |} in
  match List.find (has_id (o_jobId o)) q with
  | Some j' =>
      match policy with
      | KeepExisting => (q, j')
      | UpdateExisting => (replace_id j q, j)
      end
  | None => (q ++ [j], j)
  end.

(** The default attempts of [defaultJobOptions]. *)
Definition default_attempts : Z := 3.

(** [{ jobId: jobId, priority: options.priority || 10,
       delay: options.delay || 0, ...options }] *)
Definition job_options (jobId : string) (options : Options) : JobOpts :=
  {| o_jobId := default jobId (opt_jobId options);
     o_priority :=
       match opt_priority options with
       | Some p => p
       | None => 10
       end;
     o_delay := default 0 (opt_delay options);
     o_attempts := default default_attempts (opt_attempts options) |}.

(** [queueReviewJob(jobId, repoId, options = {})]; [now] is the clock
    reading stored as [queuedAt]. *)
Definition queueReviewJob (policy : OnDuplicate) (now : nat) (q : Queue)
    (jobId repoId : string) (options : Options) : Queue * QueueJob :=
  add policy q "code-review"
    {| jobId := jobId; repoId := repoId; queuedAt := now |}
    (job_options jobId options).

(** The entries of the queue that carry a given id. *)
Definition entries_for (i : string) (q : Queue) : list QueueJob :=
  List.filter (has_id i) q.

End ReviewQueue.

(** ** Double-precision arithmetic of the progress schedule

  [Math.floor((processed / files.length) * 50)] is computed in IEEE 754
  binary64 with round-to-nearest, ties-to-even.  A positive double is kept
  as [mant * 2 ^ (- shift)] with [2^52 <= mant <= 2^53]; the operands met
  here are positive and below [2^53], and far above the subnormal range
  for any array a process can hold. *)

Module Double.

Record double := mkDouble { mant : Z; shift : Z }.

Definition ceil_div (a b : Z) : Z := (a + b - 1) / b.

(** The integer nearest to [a / b], ties to the even one ([b > 0]). *)
Definition rne (a b : Z) : Z :=
  let q := a / b in
  let r := a mod b in
  if 2 * r <? b then q
  else if b <? 2 * r then q + 1
  else if Z.even q then q else q + 1.

(** The [e] with [2^52 <= (a / b) * 2^e < 2^53]. *)
Definition exponent (a b : Z) : Z :=
  Z.log2_up (ceil_div (2 ^ 53 * b) a) - 1.

(** The double nearest to the rational [a / b]. *)
Definition round (a b : Z) : double :=
  let e := exponent a b in
  {| mant := rne (a * 2 ^ e) b; shift := e |}.

(** [p / n] on two integers. *)
Definition div (p n : Z) : double := round p n.

(** [x * k] for an integer [k]. *)
Definition mul_int (x : double) (k : Z) : double :=
  round (mant x * k) (2 ^ shift x).

(** [Math.floor(x)] *)
Definition floor (x : double) : Z := mant x / 2 ^ shift x.

(** [Math.floor((p / n) * 50)] *)
Definition ratio50 (p n : Z) : Z := floor (mul_int (div p n) 50).

(** The order of the values two doubles stand for. *)
Definition le_val (x y : double) : Prop :=
  mant x * 2 ^ shift y ≤ mant y * 2 ^ shift x.

End Double.

(** ** reviewWorker.js *)

Module Worker.
Import Js.

(** *** Rows of the store *)

Inductive JobStatus := queued | processing | completed | failed.

(** An ISO timestamp, kept as the reading of a clock that ticks at every
    [new Date()]. *)
Definition Timestamp : Type := nat.

(** A row of [review_jobs]. *)
Record JobRow := mkJobRow {
  status : JobStatus;
  progress : Z;
  total_files : option Z;
  processed_files : Z;
  error_message : option string;
  started_at : option Timestamp;
  completed_at : option Timestamp
}.

(** The row the API inserts before queueing: [status: 'queued',
    progress: 0], the other columns at their defaults. *)
Definition created_job : JobRow :=
  {| status := queued; progress := 0; total_files := None;
     processed_files := 0; error_message := None;
     started_at := None; completed_at := None |}.

(** The [updates] object of [updateJobStatus]. *)
Record JobUpdate := mkJobUpdate {
  u_status : option JobStatus;
  u_progress : option Z;
  u_total_files : option Z;
  u_processed_files : option Z;
  u_error_message : option string;
  u_started_at : option Timestamp;
  u_completed_at : option Timestamp
}.

Definition no_update : JobUpdate :=
  {| u_status := None; u_progress := None; u_total_files := None;
     u_processed_files := None; u_error_message := None;
     u_started_at := None; u_completed_at := None |}.

(** [.update(updates).eq('id', jobId)] on the job's row. *)
Definition apply_update (u : JobUpdate) (r : JobRow) : JobRow :=
  {| status := default (status r) (u_status u);
     progress := default (progress r) (u_progress u);
     total_files :=
       match u_total_files u with
       | Some n => Some n
       | None => total_files r
       end;
     processed_files := default (processed_files r) (u_processed_files u);
     error_message :=
       match u_error_message u with
       | Some m => Some m
       | None => error_message r
       end;
     started_at :=
       match u_started_at u with
       | Some t => Some t
       | None => started_at r
       end;
     completed_at :=
       match u_completed_at u with
       | Some t => Some t
       | None => completed_at r
       end |}.

(** A row of [repositories], as far as the worker reads it. *)
Record Repository := mkRepository {
  repo_url : string;
  branch : string;
  repo_owner : string;
  repo_name : string
}.

(** A row of [agents]. *)
Record AgentRow := mkAgentRow {
  agent_id : string;
  agent_name : string
}.

(** An element of what [parseCodeFiles] returns. *)
Record File := mkFile {
  path : string;
  content : string;
  language : string
}.

(** An element of [analysisResults]. *)
Record FileResult := mkFileResult {
  file : string;
  file_language : string;
  results : Orchestrator.Report
}.

Record Summary := mkSummary {
  highSeverity : num;
  mediumSeverity : num;
  lowSeverity : num
}.

(** [aggregatedResults]; [totalCost] is floating-point text and is left
    out. *)
Record AggregatedResults := mkAggregated {
  totalFiles : Z;
  agg_totalIssues : Z;
  agg_totalTokens : num;
  fileResults : list FileResult;
  summary : Summary
}.

(** A row of [review_results]. *)
Record ResultsRow := mkResultsRow {
  rr_job_id : string;
  rr_repo_id : string;
  rr_results : AggregatedResults;
  overall_score : Z;
  total_issues : Z;
  rr_created_at : Timestamp
}.

(** A row of [reviews]: one flattened finding. *)
Record FindingRow := mkFindingRow {
  f_job_id : string;
  f_repo_id : string;
  f_agent_id : option string;
  file_path : string;
  line_number : option Z;
  f_severity : string;
  category : string;
  title : string;
  f_description : string;
  suggestion : option string;
  code_snippet : option string;
  f_created_at : Timestamp
}.

(** What [processReviewJob] returns to the queue. *)
Record JobResult := mkJobResult {
  r_jobId : string;
  r_repoId : string;
  filesProcessed : Z;
  r_totalIssues : Z;
  r_overallScore : Z;
  r_status : JobStatus
}.

(** *** Observable effects *)

(** Entries of the log at level [warn] or [error]; the [info], [debug]
    and [success] lines are not recorded. *)
Inductive Level := warn | error.

Record LogEntry := mkLog { level : Level; text : string }.

(** Calls that leave the worker, in the order they are made.  A write
    to the store records whether the store accepted it. *)
Inductive Event :=
| EvFetchRepository (repoId : string)
| EvJobUpdate (u : JobUpdate) (accepted : bool)
| EvRepositoryStatus (s : string) (accepted : bool)
| EvProgress (p : Z)
| EvClone (url branch : string)
| EvParse (dir : string)
| EvAnalyze (file : string)
| EvInsertResults (row : ResultsRow) (accepted : bool)
| EvFetchAgents
| EvInsertFindings (batch : list FindingRow) (accepted : bool)
| EvRemoveDir (dir : string).

(** *** The collaborators

    Every answer a collaborator gives during one run. *)
Record Env := mkEnv {
  backend : BaseAgent.Backend;
  (** [{data, error}] of the select on [repositories] *)
  fetch_repository : option Repository * option Error;
  (** the [error] of the [k]-th update of [review_jobs], if any *)
  jobs_fault : nat → option Error;
  (** the [error] of the [k]-th update of [repositories], if any *)
  repositories_fault : nat → option Error;
  (** the directory [createTempDir] makes *)
  temp_dir : string;
  (** what [git.clone] raises, if anything *)
  git_clone : option Error;
  (** what [fs.remove] raises, if anything *)
  fs_remove : option Error;
  (** how the file enumeration of [parseCodeFiles] ends *)
  list_files : Completion (list File);
  (** the [error] of the insert into [review_results], if any *)
  results_fault : option Error;
  (** [{data, error}] of the select on [agents] *)
  fetch_agents : option (list AgentRow) * option Error;
  (** the [error] of the insert of batch number [k] into [reviews] *)
  reviews_fault : nat → option Error
}.

(** The store, the queue's view of the job and the run's own variables. *)
Record World := mkWorld {
  job_row : JobRow;
  repository_status : string;
  review_results : list ResultsRow;
  reviews : list FindingRow;
  trace : list Event;
  log : list LogEntry;
  (** updates of [review_jobs] made so far *)
  jobs_calls : nat;
  (** updates of [repositories] made so far *)
  repositories_calls : nat;
  clock : Timestamp;
  (** the local [cleanup]: the directory it removes, once assigned *)
  cleanup : option string
}.

(** The world a run starts in, given the two rows it works on. *)
Definition initial_world (j : JobRow) (repo_status : string) : World :=
  {| job_row := j; repository_status := repo_status;
     review_results := []; reviews := [];
     trace := []; log := [];
     jobs_calls := 0%nat; repositories_calls := 0%nat;
     clock := 0%nat; cleanup := None |}.

(** *** Asynchronous code with exceptions over the world *)

Definition M (A : Type) : Type := World → Completion A * World.

Definition ret {A} (a : A) : M A := λ w, (Return a, w).

Definition throw {A} (e : Error) : M A := λ w, (Throw e, w).

Definition bind {A B} (m : M A) (k : A → M B) : M B :=
  λ w, match m w with
       | (Return a, w') => k a w'
       | (Throw e, w') => (Throw e, w')
       end.

Notation "'let*' x ':=' m 'in' k" := (bind m (λ x, k))
  (at level 10, x pattern, m at level 100, k at level 200).
Notation "m ';;;' k" := (bind m (λ _, k))
  (at level 100, k at level 200, right associativity).

(** [try { body } catch (error) { handler } finally { finalizer }] *)
Definition try_catch_finally {A} (body : M A) (handler : Error → M A)
    (finalizer : M unit) : M A :=
  λ w,
    let '(c, w1) :=
      match body w with
      | (Throw e, w') => handler e w'
      | r => r
      end in
    match finalizer w1 with
    | (Return _, w2) => (c, w2)
    | (Throw e, w2) => (Throw e, w2)
    end.

Definition modify (f : World → World) : M unit := λ w, (Return (), f w).

Definition emit (ev : Event) : M unit :=
  modify (λ w,
    {| job_row := job_row w; repository_status := repository_status w;
       review_results := review_results w; reviews := reviews w;
       trace := trace w ++ [ev]; log := log w;
       jobs_calls := jobs_calls w;
       repositories_calls := repositories_calls w;
       clock := clock w; cleanup := cleanup w |}).

Definition logger (lvl : Level) (msg : string) : M unit :=
  modify (λ w,
    {| job_row := job_row w; repository_status := repository_status w;
       review_results := review_results w; reviews := reviews w;
       trace := trace w;
       log := log w ++ [{| level := lvl; text := msg |}];
       jobs_calls := jobs_calls w;
       repositories_calls := repositories_calls w;
       clock := clock w; cleanup := cleanup w |}).

(** [new Date().toISOString()] *)
Definition now : M Timestamp :=
  λ w, (Return (clock w),
    {| job_row := job_row w; repository_status := repository_status w;
       review_results := review_results w; reviews := reviews w;
       trace := trace w; log := log w;
       jobs_calls := jobs_calls w;
       repositories_calls := repositories_calls w;
       clock := S (clock w); cleanup := cleanup w |}).

(** [cleanup = cloneResult.cleanup] *)
Definition set_cleanup (dir : string) : M unit :=
  modify (λ w,
    {| job_row := job_row w; repository_status := repository_status w;
       review_results := review_results w; reviews := reviews w;
       trace := trace w; log := log w;
       jobs_calls := jobs_calls w;
       repositories_calls := repositories_calls w;
       clock := clock w; cleanup := Some dir |}).

(** [new Error(msg)] *)
Definition new_Error (msg : string) : Error :=
  {| message := msg; stack := "Error: " +:+ msg |}.

(** *** Collaborators as operations *)

Definition write_job (u : JobUpdate) : M unit :=
  modify (λ w,
    {| job_row := apply_update u (job_row w);
       repository_status := repository_status w;
       review_results := review_results w; reviews := reviews w;
       trace := trace w; log := log w;
       jobs_calls := jobs_calls w;
       repositories_calls := repositories_calls w;
       clock := clock w; cleanup := cleanup w |}).

Definition write_repository_status (s : string) : M unit :=
  modify (λ w,
    {| job_row := job_row w; repository_status := s;
       review_results := review_results w; reviews := reviews w;
       trace := trace w; log := log w;
       jobs_calls := jobs_calls w;
       repositories_calls := repositories_calls w;
       clock := clock w; cleanup := cleanup w |}).

Definition write_results (row : ResultsRow) : M unit :=
  modify (λ w,
    {| job_row := job_row w; repository_status := repository_status w;
       review_results := review_results w ++ [row]; reviews := reviews w;
       trace := trace w; log := log w;
       jobs_calls := jobs_calls w;
       repositories_calls := repositories_calls w;
       clock := clock w; cleanup := cleanup w |}).

Definition write_reviews (batch : list FindingRow) : M unit :=
  modify (λ w,
    {| job_row := job_row w; repository_status := repository_status w;
       review_results := review_results w; reviews := reviews w ++ batch;
       trace := trace w; log := log w;
       jobs_calls := jobs_calls w;
       repositories_calls := repositories_calls w;
       clock := clock w; cleanup := cleanup w |}).

(** The number of the next update of [review_jobs]. *)
Definition next_jobs_call : M nat :=
  λ w, (Return (jobs_calls w),
    {| job_row := job_row w; repository_status := repository_status w;
       review_results := review_results w; reviews := reviews w;
       trace := trace w; log := log w;
       jobs_calls := S (jobs_calls w);
       repositories_calls := repositories_calls w;
       clock := clock w; cleanup := cleanup w |}).

(** The number of the next update of [repositories]. *)
Definition next_repositories_call : M nat :=
  λ w, (Return (repositories_calls w),
    {| job_row := job_row w; repository_status := repository_status w;
       review_results := review_results w; reviews := reviews w;
       trace := trace w; log := log w;
       jobs_calls := jobs_calls w;
       repositories_calls := S (repositories_calls w);
       clock := clock w; cleanup := cleanup w |}).

(** [updateJobStatus(jobId, updates)]: an error of the store is logged
    where it is found and again by the enclosing [catch], then rethrown. *)
Definition updateJobStatus (env : Env) (jobId : string) (u : JobUpdate)
    : M unit :=
  let* k := next_jobs_call in
  match jobs_fault env k with
  | Some e =>
      emit (EvJobUpdate u false);;;
      logger error ("Failed to update job status: " +:+ message e);;;
      logger error ("Failed to update job status: " +:+ message e);;;
      throw e
  | None =>
      write_job u;;;
      emit (EvJobUpdate u true)
  end.

(** [updateRepositoryStatus(repoId, status)] *)
Definition updateRepositoryStatus (env : Env) (repoId : string)
    (s : string) : M unit :=
  let* k := next_repositories_call in
  match repositories_fault env k with
  | Some e =>
      emit (EvRepositoryStatus s false);;;
      logger error ("Failed to update repository status: " +:+ message e);;;
      logger error ("Failed to update repository status: " +:+ message e);;;
      throw e
  | None =>
      write_repository_status s;;;
      emit (EvRepositoryStatus s true)
  end.

(** [job.progress(p)] *)
Definition job_progress (p : Z) : M unit := emit (EvProgress p).

(** [cleanupTempDir(dirPath)] of githubService.js: never raises. *)
Definition cleanupTempDir (env : Env) (dir : string) : M unit :=
  emit (EvRemoveDir dir);;;
  match fs_remove env with
  | Some e => logger warn ("Failed to cleanup temp directory: " +:+ message e)
  | None => ret ()
  end.

(** [cloneRepository(repoUrl, branch)] of githubService.js; the result is
    the directory, whose removal is the [cleanup] function. *)
Definition cloneRepository (env : Env) (repoUrl branch : string)
    : M string :=
  let tempDir := temp_dir env in
  emit (EvClone repoUrl branch);;;
  match git_clone env with
  | None => ret tempDir
  | Some e =>
      cleanupTempDir env tempDir;;;
      logger error ("Failed to clone repository: " +:+ message e);;;
      throw (new_Error ("Clone failed: " +:+ message e))
  end.

(** [parseCodeFiles(repoPath)] of githubService.js, an enumeration of the
    file system. *)
Definition parseCodeFiles (env : Env) (repoPath : string)
    : M (list File) :=
  emit (EvParse repoPath);;;
  match list_files env with
  | Return files => ret files
  | Throw e => throw e
  end.

(** [const orchestrator = new AgentOrchestrator()] *)
Definition orchestrator : Orchestrator.AgentOrchestrator :=
  Orchestrator.new_AgentOrchestrator.

(** [orchestrator.analyzeCode(file.content, file.language)] *)
Definition analyzeCode (env : Env) (f : File) : M Orchestrator.Report :=
  emit (EvAnalyze (path f));;;
  match Orchestrator.analyzeCode (backend env) orchestrator
          (content f) (language f) with
  | Return r => ret r
  | Throw e => throw e
  end.

(** *** Step 5: the analysis loop *)

(** The variables the loop updates; [totalCost] is left out with the
    cost it sums. *)
Record Totals := mkTotals {
  analysisResults : list FileResult;
  totalIssues : Z;
  totalTokens : num
}.

Definition no_totals : Totals :=
  {| analysisResults := []; totalIssues := 0; totalTokens := Num 0 |}.

(** [40 + Math.floor((processed / files.length) * 50)] *)
Definition progressPercent (processed len : Z) : Z :=
  40 + Double.ratio50 processed len.

(** One turn of the loop, for the file at index [i] of [len]. *)
Definition analyze_file (env : Env) (jobId : string) (len : Z)
    (acc : Totals) (i : Z) (f : File) : M Totals :=
  let* results := analyzeCode env f in
  let* acc' :=
    if Orchestrator.success results then
      ret {| analysisResults :=
               analysisResults acc ++
                 [{| file := path f; file_language := language f;
                     results := results |}];
             totalIssues :=
               totalIssues acc
               + Z.of_nat (Orchestrator.totalIssuesFound results);
             totalTokens :=
               num_add (totalTokens acc)
                 (Orchestrator.totalTokens (Orchestrator.metrics results)) |}
    else
      (logger error ("  ✗ Analysis failed for " +:+ path f);;;
       ret acc) in
  let processed := i + 1 in
  let progressPercent := progressPercent processed len in
  updateJobStatus env jobId
    {| u_status := None; u_progress := Some progressPercent;
       u_total_files := None; u_processed_files := Some processed;
       u_error_message := None; u_started_at := None;
       u_completed_at := None |};;;
  job_progress progressPercent;;;
  ret acc'.

(** [for (let i = 0; i < files.length; i++)], from index [i] on. *)
Fixpoint analyze_files (env : Env) (jobId : string) (len : Z)
    (files : list File) (i : Z) (acc : Totals) : M Totals :=
  match files with
  | [] => ret acc
  | f :: rest =>
      let* acc' := analyze_file env jobId len acc i f in
      analyze_files env jobId len rest (i + 1) acc'
  end.

(** *** Step 6: the aggregate report *)

(** [obj.k] on a severity tally. *)
Definition tally (r : FileResult) (k : string) : num :=
  default NaN (Orchestrator.issuesBySeverity (results r) !! k).

Definition sum_tally (k : string) (l : list FileResult) : num :=
  fold_left (λ sum r, num_add sum (tally r k)) l (Num 0).

Definition aggregate (files : list File) (t : Totals) : AggregatedResults :=
  {| totalFiles := Z.of_nat (length files);
     agg_totalIssues := totalIssues t;
     agg_totalTokens := totalTokens t;
     fileResults := analysisResults t;
     summary :=
       {| highSeverity := sum_tally "high" (analysisResults t);
          mediumSeverity := sum_tally "medium" (analysisResults t);
          lowSeverity := sum_tally "low" (analysisResults t) |} |}.

(** The overall repository score. *)
Definition avgScore (l : list FileResult) : Z :=
  match l with
  | [] => 0
  | _ =>
      round_div
        (fold_left (λ sum r, sum + Orchestrator.overallScore (results r)) l 0)
        (Z.of_nat (length l))
  end.

(** The insert into [review_results]; a refusal is logged and thrown. *)
Definition save_results (env : Env) (row : ResultsRow) : M unit :=
  match results_fault env with
  | Some resultsError =>
      emit (EvInsertResults row false);;;
      logger error ("Failed to save results: " +:+ message resultsError);;;
      throw resultsError
  | None =>
      write_results row;;;
      emit (EvInsertResults row true)
  end.

(** *** Step 6.5: the flattened findings *)

Definition lower_ascii (c : ascii) : ascii :=
  let n := nat_of_ascii c in
  if ((65 <=? n) && (n <=? 90))%nat then ascii_of_nat (n + 32) else c.

(** [s.toLowerCase()], on the ASCII letters. *)
Fixpoint toLowerCase (s : string) : string :=
  match s with
  | EmptyString => EmptyString
  | String c s => String (lower_ascii c) (toLowerCase s)
  end.

(** The names every object inherits from [Object.prototype].  Looking one
    of them up in an object literal yields the inherited member instead
    of [undefined]; the lookups below are those of the own properties,
    and are the code's for every other key. *)
Definition Object_prototype : list string :=
  ["constructor"; "__proto__"; "hasOwnProperty"; "isPrototypeOf";
   "propertyIsEnumerable"; "toLocaleString"; "toString"; "valueOf";
   "__defineGetter__"; "__defineSetter__"; "__lookupGetter__";
   "__lookupSetter__"].

Definition specialtyToDbName : gmap string string :=
  <["bug_detection" := "bug"]> (<["performance" := "performance"]>
    (<["security" := "security"]> (<["style" := "style"]> ∅))).

Definition specialtyToCategory : gmap string string :=
  <["bug_detection" := "bug"]> (<["security" := "security"]>
    (<["performance" := "performance"]> (<["style" := "style"]> ∅))).

Definition severityMap : gmap string string :=
  <["critical" := "critical"]> (<["high" := "high"]>
    (<["medium" := "medium"]> (<["low" := "low"]> (<["info" := "info"]> ∅)))).

(** [agents.forEach(agent => { agentMap[agent.name.toLowerCase()] =
    agent.id; agentMap[agent.name] = agent.id; })] *)
Definition build_agentMap (agents : option (list AgentRow))
    : gmap string string :=
  match agents with
  | Some l =>
      fold_left
        (λ m a, <[agent_name a := agent_id a]>
                  (<[toLowerCase (agent_name a) := agent_id a]> m))
        l ∅
  | None => ∅
  end.

(** [a || b] on two lookups. *)
Definition or_else (a b : option string) : option string :=
  if truthy_str a then a else b.

(** The agent id of an issue: by specialty first, then by display name. *)
Definition resolve_agentId (agentMap : gmap string string)
    (agentName specialty : option string) : option string :=
  let agentId :=
    if truthy_str specialty then
      let specialty := property_key specialty in
      let dbName :=
        or_str (specialtyToDbName !! specialty) (toLowerCase specialty) in
      or_else (agentMap !! dbName) (agentMap !! toLowerCase dbName)
    else None in
  if negb (truthy_str agentId) && truthy_str agentName then
    let agentName := property_key agentName in
    or_else (agentMap !! agentName) (agentMap !! toLowerCase agentName)
  else agentId.

(** [specialtyToCategory[issue.specialty] || 'bug'] *)
Definition category_of (specialty : option string) : string :=
  or_str (specialtyToCategory !! property_key specialty) "bug".

(** [severityMap[(issue.severity || 'medium').toLowerCase()] || 'medium'] *)
Definition severity_of (severity : option string) : string :=
  let rawSeverity := toLowerCase (or_str severity "medium") in
  or_str (severityMap !! rawSeverity) "medium".

(** [x || null] on an optional number. *)
Definition or_null (n : option Z) : option Z :=
  if truthy_num n then n else None.

(** The double quote of the log texts. *)
Definition dq : string := String (ascii_of_nat 34) EmptyString.

(** The body of [for (const issue of issues)]. *)
Definition push_finding (jobId repoId : string)
    (agentMap : gmap string string) (filePath : string)
    (allFindings : list FindingRow) (issue : Orchestrator.TaggedIssue)
    : M (list FindingRow) :=
  let i := Orchestrator.issue issue in
  let category := category_of (Orchestrator.issue_specialty issue) in
  let severity := severity_of (BaseAgent.severity i) in
  let agentName := Orchestrator.agent issue in
  let specialty := Orchestrator.issue_specialty issue in
  let agentId := resolve_agentId agentMap agentName specialty in
  (if truthy_str agentId then ret ()
   else
     logger warn
       ("❌ Could not find agent ID for agent=" +:+ dq
        +:+ property_key agentName +:+ dq +:+ ", specialty=" +:+ dq
        +:+ property_key specialty +:+ dq);;;
     logger warn "Available agent map keys:");;;
  let* created := now in
  ret (allFindings ++
    [{| f_job_id := jobId;
        f_repo_id := repoId;
        f_agent_id := agentId;
        file_path := filePath;
        line_number := or_null (BaseAgent.line i);
        f_severity := severity;
        category := category;
        title := or_str (BaseAgent.description i) "Code issue found";
        f_description := or_str (BaseAgent.description i) EmptyString;
        suggestion :=
          if truthy_str (BaseAgent.recommendation i)
          then BaseAgent.recommendation i else None;
        code_snippet := None;
        f_created_at := created |}]).

Fixpoint foldM {A B} (f : B → A → M B) (l : list A) (b : B) : M B :=
  match l with
  | [] => ret b
  | a :: l => let* b' := f b a in foldM f l b'
  end.

(** The body of [for (const fileResult of analysisResults)]. *)
Definition extract_file (jobId repoId : string)
    (agentMap : gmap string string) (allFindings : list FindingRow)
    (fileResult : FileResult) : M (list FindingRow) :=
  let filePath := file fileResult in
  if String.eqb filePath EmptyString then
    logger warn "Skipping fileResult with no file path:";;;
    ret allFindings
  else
    let issues := Orchestrator.allIssues (results fileResult) in
    foldM (push_finding jobId repoId agentMap filePath) issues allFindings.

Definition BATCH_SIZE : nat := 100.

(** The insert of one batch into [reviews]: [true] when accepted. *)
Definition insert_batch (env : Env) (i : nat) (batch : list FindingRow)
    : M bool :=
  match reviews_fault env (i / BATCH_SIZE)%nat with
  | Some insertError =>
      emit (EvInsertFindings batch false);;;
      logger error
        ("Failed to insert review findings batch "
         +:+ pretty (i / BATCH_SIZE + 1)%nat +:+ ": "
         +:+ message insertError);;;
      ret false
  | None =>
      write_reviews batch;;;
      emit (EvInsertFindings batch true);;;
      ret true
  end.

(** [for (let i = 0; i < allFindings.length; i += BATCH_SIZE)], from [i]
    on; [fuel] bounds the number of turns. *)
Fixpoint insert_batches (env : Env) (fuel : nat)
    (allFindings : list FindingRow) (i : nat) (insertedCount : nat)
    : M nat :=
  match fuel with
  | O => ret insertedCount
  | S fuel =>
      if (i <? length allFindings)%nat then
        let batch := take BATCH_SIZE (drop i allFindings) in
        let* ok := insert_batch env i batch in
        insert_batches env fuel allFindings (i + BATCH_SIZE)
          (if ok then insertedCount + length batch else insertedCount)%nat
      else ret insertedCount
  end.

(** Steps 6.5: fetch the agents, flatten the findings, insert them. *)
Definition save_findings (env : Env) (jobId repoId : string)
    (analysisResults : list FileResult) : M unit :=
  emit EvFetchAgents;;;
  let '(agents, agentsError) := fetch_agents env in
  match agentsError with
  | Some e => logger error ("Failed to fetch agents: " +:+ message e)
  | None => ret ()
  end;;;
  match agents with
  | Some _ => ret ()
  | None => logger warn "No agents found in database!"
  end;;;
  let agentMap := build_agentMap agents in
  let* allFindings :=
    foldM (extract_file jobId repoId agentMap) analysisResults [] in
  match allFindings with
  | [] => ret ()
  | _ =>
      let* _ := insert_batches env (length allFindings) allFindings 0 0 in
      ret ()
  end.

(** *** processReviewJob *)

(** The [try] block. *)
Definition pipeline (env : Env) (jobId repoId : string) : M JobResult :=
  (* step 1: fetch the repository *)
  emit (EvFetchRepository repoId);;;
  let '(repo, repoError) := fetch_repository env in
  match repoError, repo with
  | None, Some repo =>
      (* step 2: the job is processing *)
      let* started := now in
      updateJobStatus env jobId
        {| u_status := Some processing; u_progress := None;
           u_total_files := None; u_processed_files := None;
           u_error_message := None; u_started_at := Some started;
           u_completed_at := None |};;;
      updateRepositoryStatus env repoId "cloning";;;
      job_progress 10;;;
      (* step 3: clone *)
      let* cloneResult := cloneRepository env (repo_url repo) (branch repo) in
      set_cleanup cloneResult;;;
      job_progress 30;;;
      (* step 4: enumerate the files; the per-language [fileSummary] only
         feeds the [info] log *)
      updateRepositoryStatus env repoId "analyzing";;;
      let* files := parseCodeFiles env cloneResult in
      let len := Z.of_nat (length files) in
      updateJobStatus env jobId
        {| u_status := None; u_progress := None;
           u_total_files := Some len; u_processed_files := Some 0;
           u_error_message := None; u_started_at := None;
           u_completed_at := None |};;;
      job_progress 40;;;
      (* step 5: analyze every file *)
      let* totals := analyze_files env jobId len files 0 no_totals in
      (* step 6: aggregate and save *)
      let aggregatedResults := aggregate files totals in
      let avgScore := avgScore (analysisResults totals) in
      let* created := now in
      save_results env
        {| rr_job_id := jobId; rr_repo_id := repoId;
           rr_results := aggregatedResults;
           overall_score := avgScore;
           total_issues := totalIssues totals;
           rr_created_at := created |};;;
      (* step 6.5: the individual findings *)
      save_findings env jobId repoId (analysisResults totals);;;
      (* step 7: the job is completed *)
      let* finished := now in
      updateJobStatus env jobId
        {| u_status := Some completed; u_progress := Some 100;
           u_total_files := None; u_processed_files := Some len;
           u_error_message := None; u_started_at := None;
           u_completed_at := Some finished |};;;
      updateRepositoryStatus env repoId "completed";;;
      job_progress 100;;;
      ret {| r_jobId := jobId; r_repoId := repoId;
             filesProcessed := len;
             r_totalIssues := totalIssues totals;
             r_overallScore := avgScore;
             r_status := completed |}
  | _, _ => throw (new_Error ("Repository not found: " +:+ repoId))
  end.

(** The [catch] block: mark the job failed, then rethrow. *)
Definition on_error (env : Env) (jobId repoId : string) (error : Error)
    : M JobResult :=
  logger Worker.error ("❌ Job failed: " +:+ message error);;;
  logger Worker.error (stack error);;;
  let* finished := now in
  updateJobStatus env jobId
    {| u_status := Some failed; u_progress := None;
       u_total_files := None; u_processed_files := None;
       u_error_message := Some (message error); u_started_at := None;
       u_completed_at := Some finished |};;;
  updateRepositoryStatus env repoId "failed";;;
  throw error.

(** The [finally] block: [if (cleanup) await cleanup()]. *)
Definition finalizer (env : Env) : M unit :=
  λ w, match cleanup w with
       | Some dir => cleanupTempDir env dir w
       | None => (Return (), w)
       end.

(** [processReviewJob(job)], on [job.data]. *)
Definition processReviewJob (env : Env) (job : ReviewQueue.JobData)
    : M JobResult :=
  let jobId := ReviewQueue.jobId job in
  let repoId := ReviewQueue.repoId job in
  try_catch_finally
    (pipeline env jobId repoId)
    (on_error env jobId repoId)
    (finalizer env).

(** *** Reading a run *)

(** The values passed to [job.progress], in order. *)
Definition progress_values (t : list Event) : list Z :=
  omap (λ ev, match ev with EvProgress p => Some p | _ => None end) t.

(** The states of the job's row an observer of the store can see: the
    row the run starts with, then the row after every accepted update. *)
Fixpoint observed_rows (r : JobRow) (t : list Event) : list JobRow :=
  match t with
  | [] => [r]
  | EvJobUpdate u true :: t => r :: observed_rows (apply_update u r) t
  | _ :: t => observed_rows r t
  end.

(** The files handed to the orchestrator, in order. *)
Definition analyzed_files (t : list Event) : list string :=
  omap (λ ev, match ev with EvAnalyze f => Some f | _ => None end) t.

(** [processedUnits <= totalUnits], an unset total counting as 0. *)
Definition units_ok (r : JobRow) : Prop :=
  processed_files r ≤ default 0 (total_files r).

(** A store that accepts every update of [review_jobs] and
    [repositories]. *)
Definition store_accepts_updates (env : Env) : Prop :=
  (∀ k, jobs_fault env k = None) ∧ (∀ k, repositories_fault env k = None).

End Worker.

(** ** Notions of the specification and sample inputs *)

Module Scenarios.
Import Js BaseAgent Orchestrator.

(** How one agent's run on a file fails, if it does: the error raised by
    the remote call or by the parsing of its answer. *)
Definition failure (b : Backend) (a : Agent) (code language : string)
    : option Error :=
  match create b (model a) (systemPrompt a) (buildUserPrompt code language) with
  | Throw e => Some e
  | Return response =>
      match JSON_parse b (content response) with
      | Throw e => Some e
      | Return _ => None
      end
  end.

Definition fails (b : Backend) (code language : string) (a : Agent) : bool :=
  match failure b a code language with
  | Some _ => true
  | None => false
  end.





(** The scores of the successful results.  A successful result without
    findings or without a score has none. *)
Definition successful_scores (rs : list AgentResult) : list Z :=
  omap (λ r, match findings r with
             | Some f => score f
             | None => None
             end)
    (List.filter (λ r, negb (has_error r)) rs).


(** Sample results. *)
Definition ok_result (name : string) (s : Z) (l : list Issue) : AgentResult :=
  {| agentName := Some name; specialty := Some name; error := None;
     findings := Some {| issues := Some l; score := Some s; summary := None |};
     tokensUsed := Some 100 |}.

Definition failed_result (name msg : string) : AgentResult :=
  {| agentName := Some name; specialty := Some name; error := Some msg;
     findings := None; tokensUsed := None |}.

Definition issue_of (sev : string) : Issue :=
  {| severity := Some sev; line := Some 1;
     description := Some "description"; recommendation := Some "fix" |}.

(** The result an agent's run resolves to. *)
Definition outcome (b : Backend) (code language : string) (a : Agent)
    : AgentResult :=
  match analyze b a code language with
  | Return r => r
  | Throw _ => failed_result (name a) EmptyString
  end.

(** Four outcomes of which the security one failed. *)
Definition one_failed : list AgentResult :=
  [ok_result "bug_detection" 80 [issue_of "high"];
   ok_result "performance" 90 [];
   ok_result "style" 70 [issue_of "low"; issue_of "medium"];
   failed_result "security" "Request timed out."].

(** Two successful outcomes, one of them with score 0. *)
Definition zero_and_hundred : list AgentResult :=
  [ok_result "security" 0 [issue_of "high"]; ok_result "style" 100 []].

(** A backend whose remote call times out for the security agent and
    answers every other agent with the same analysis. *)
Definition flaky_backend : Backend :=
  {| create := λ model system user,
       if String.eqb system (systemPrompt SecurityAgent)
       then Throw {| message := "Request timed out."; stack := "APIError" |}
       else Return {| content := "{}"; total_tokens := 120 |};
     JSON_parse := λ _,
       Return (Some {| issues := Some [issue_of "medium"];
                       score := Some 85; summary := None |}) |}.

End Scenarios.

(** ** Notions of the worker's specification *)

Module Accounting.
Import Js Worker.

(** The update of the job's row after the file at index [i]. *)
Definition file_update (len i : Z) : JobUpdate :=
  {| u_status := None; u_progress := Some (progressPercent (i + 1) len);
     u_total_files := None; u_processed_files := Some (i + 1);
     u_error_message := None; u_started_at := None;
     u_completed_at := None |}.

(** The events of the analysis loop from index [i] on: every file handed
    to the orchestrator is followed at once by the update of the job's row
    and, when the store accepted it, by the progress notification; a
    refused update ends the loop. *)
Inductive reported_at_once (len : Z) : Z → list Event → Prop :=
| at_once_done i : reported_at_once len i []
| at_once_turn i f Δ :
    reported_at_once len (i + 1) Δ →
    reported_at_once len i
      (EvAnalyze f :: EvJobUpdate (file_update len i) true
       :: EvProgress (progressPercent (i + 1) len) :: Δ)
| at_once_refused i f :
    reported_at_once len i [EvAnalyze f; EvJobUpdate (file_update len i) false].

(** The events of the analysis loop over [files] from index [i] on, tied
    to the files: the loop hands every file of the list to the
    orchestrator, in order, each followed at once by the update of the
    job's row and by the progress notification, and it stops before the
    end of the list only at a refused update. *)
Inductive reported_each (len : Z) : Z → list File → list Event → Prop :=
| each_done i : reported_each len i [] []
| each_turn i f files Δ :
    reported_each len (i + 1) files Δ →
    reported_each len i (f :: files)
      (EvAnalyze (path f) :: EvJobUpdate (file_update len i) true
       :: EvProgress (progressPercent (i + 1) len) :: Δ)
| each_refused i f files :
    reported_each len i (f :: files)
      [EvAnalyze (path f); EvJobUpdate (file_update len i) false].

(** A run that gets as far as the analysis loop over [files]: the
    repository is found and cloned, its files are listed, and the store
    accepts the first two updates of each row. *)
Definition reaches_analysis (env : Env) (files : list File) : Prop :=
  (∃ repo, fetch_repository env = (Some repo, None)) ∧
  git_clone env = None ∧
  list_files env = Return files ∧
  jobs_fault env 0 = None ∧ jobs_fault env 1 = None ∧
  repositories_fault env 0 = None ∧ repositories_fault env 1 = None.

(** The job's row during an attempt: the observed rows from the one that
    marks the job processing on. *)
Definition is_processing (r : JobRow) : bool :=
  match status r with
  | processing => true
  | _ => false
  end.

(** A list of numbers that never goes down. *)
Definition nondecreasing (l : list Z) : Prop := StronglySorted Z.le l.

(** The report of one file. *)
Definition report_of (env : Env) (f : File) : Orchestrator.Report :=
  Orchestrator.aggregateResults
    (map (Scenarios.outcome (backend env) (content f) (language f))
       (Orchestrator.agents orchestrator)).

(** The loop's variables after a file whose report is [rep]. *)
Definition push_result (acc : Totals) (f : File) (rep : Orchestrator.Report)
    : Totals :=
  {| analysisResults :=
       analysisResults acc ++
         [{| file := path f; file_language := language f; results := rep |}];
     totalIssues :=
       totalIssues acc + Z.of_nat (Orchestrator.totalIssuesFound rep);
     totalTokens :=
       num_add (totalTokens acc)
         (Orchestrator.totalTokens (Orchestrator.metrics rep)) |}.

(** The batches handed to the store, each with the store's answer. *)
Definition attempted (t : list Event) : list (list FindingRow * bool) :=
  omap (λ ev, match ev with
              | EvInsertFindings b a => Some (b, a)
              | _ => None
              end) t.

Definition accepted_rows (t : list Event) : list FindingRow :=
  concat (map fst (List.filter snd (attempted t))).

Definition refused_batches (t : list Event) : nat :=
  length (List.filter (λ b, negb b.2) (attempted t)).

(** The aggregate reports handed to the store, each with the store's
    answer. *)
Definition stored_reports (t : list Event) : list (ResultsRow * bool) :=
  omap (λ ev, match ev with
              | EvInsertResults row a => Some (row, a)
              | _ => None
              end) t.

(** The error entries the loop over the batches writes. *)
Definition is_batch_error (l : LogEntry) : bool :=
  match level l with
  | error => String.prefix "Failed to insert review findings batch " (text l)
  | warn => false
  end.

(** What the loop over the batches does from index [i] on: it hands every
    remaining finding to the store whether or not earlier batches were
    refused, it stores the accepted batches, it writes one error entry per
    refused batch, and it leaves the job's row alone. *)
Record batches_done (all : list FindingRow) (i : nat) (w w' : World)
    (Δ : list Event) (Λ : list LogEntry) : Prop := {
  bd_trace : trace w' = trace w ++ Δ;
  bd_log : log w' = log w ++ Λ;
  bd_all : concat (map fst (attempted Δ)) = drop i all;
  bd_stored : reviews w' = reviews w ++ accepted_rows Δ;
  bd_logged : length Λ = refused_batches Δ;
  bd_errors : Forall (λ l, level l = error) Λ;
  bd_row : job_row w' = job_row w
}.

(** A run in which everything up to the aggregate report goes through:
    the store accepts the updates of the two rows, the repository is found
    and cloned, and its files are listed. *)
Definition analysis_goes_through (env : Env) : Prop :=
  store_accepts_updates env ∧
  (∃ repo, fetch_repository env = (Some repo, None)) ∧
  git_clone env = None ∧
  (∃ files, list_files env = Return files).

(** The row of a job that failed with the error [e]. *)
Definition failed_with (e : Error) (r : JobRow) : Prop :=
  status r = failed ∧ error_message r = Some (message e) ∧
  is_Some (completed_at r).

(** The row of a job that completed. *)
Definition completed_row (r : JobRow) : Prop :=
  status r = completed ∧ progress r = 100 ∧ is_Some (completed_at r).



(** A repository of three files, a store that refuses every batch of
    findings and accepts everything else. *)
Definition sample_repository : Repository :=
  {| repo_url := "https://github.com/octo/demo"; branch := "main";
     repo_owner := "octo"; repo_name := "demo" |}.

Definition sample_files : list File :=
  [{| path := "src/a.js"; content := "let a = 1"; language := "JavaScript" |};
   {| path := "src/b.py"; content := "b = 2"; language := "Python" |};
   {| path := "src/c.go"; content := "var c = 3"; language := "Go" |}].

Definition sample_env : Env :=
  {| backend := Scenarios.flaky_backend;
     fetch_repository := (Some sample_repository, None);
     jobs_fault := λ _, None;
     repositories_fault := λ _, None;
     temp_dir := "/tmp/repo-1";
     git_clone := None;
     fs_remove := None;
     list_files := Return sample_files;
     results_fault := None;
     fetch_agents := (Some [{| agent_id := "agent-1"; agent_name := "bug" |}], None);
     reviews_fault := λ _, Some {| message := "connection reset"; stack := "PostgrestError" |} |}.

(** The same collaborators with a clone that fails. *)
Definition clone_fails_env : Env :=
  {| backend := backend sample_env;
     fetch_repository := fetch_repository sample_env;
     jobs_fault := jobs_fault sample_env;
     repositories_fault := repositories_fault sample_env;
     temp_dir := temp_dir sample_env;
     git_clone :=
       Some {| message := "Remote branch main not found"; stack := "GitError" |};
     fs_remove := fs_remove sample_env;
     list_files := list_files sample_env;
     results_fault := results_fault sample_env;
     fetch_agents := fetch_agents sample_env;
     reviews_fault := reviews_fault sample_env |}.

Definition sample_job : ReviewQueue.JobData :=
  {| ReviewQueue.jobId := "job-1"; ReviewQueue.repoId := "repo-1";
     ReviewQueue.queuedAt := 0%nat |}.

(** The same collaborators with a store that refuses the aggregate
    report: the attempt fails after every file was analysed. *)
Definition report_refused_env : Env :=
  {| backend := backend sample_env;
     fetch_repository := fetch_repository sample_env;
     jobs_fault := jobs_fault sample_env;
     repositories_fault := repositories_fault sample_env;
     temp_dir := temp_dir sample_env;
     git_clone := git_clone sample_env;
     fs_remove := fs_remove sample_env;
     list_files := list_files sample_env;
     results_fault :=
       Some {| message := "statement timeout"; stack := "PostgrestError" |};
     fetch_agents := fetch_agents sample_env;
     reviews_fault := reviews_fault sample_env |}.

(** The world in which the queue runs a job again (the queue is set up
    with [attempts: 3]): the two rows are those the earlier attempt left
    in the store; the trace, the log and the run's own variables start
    afresh, as in [initial_world]. *)
Definition retry_world (earlier : World) : World :=
  initial_world (job_row earlier) (repository_status earlier).



End Accounting.

(** ** A program logic for the worker *)

Module Hoare.
Import Js Worker Accounting.

(** Triples with a postcondition for a value and one for an exception. *)
Definition hoare {A} (P : World → Prop) (m : M A)
    (Q : A → World → Prop) (E : Error → World → Prop) : Prop :=
  ∀ w, P w →
    match m w with
    | (Return a, w') => Q a w'
    | (Throw e, w') => E e w'
    end.

(** Events that change neither the job's row nor the reported progress. *)
Definition silent (ev : Event) : bool :=
  match ev with
  | EvJobUpdate _ true | EvProgress _ => false
  | _ => true
  end.

(** Operations that leave the job's row alone and emit silent events. *)
Definition quiet {A} (m : M A) : Prop :=
  ∀ w, job_row (m w).2 = job_row w ∧
       ∃ Δ, trace (m w).2 = trace w ++ Δ ∧ Forall (λ ev, silent ev = true) Δ.

(** Operations that only add to the trace and to the log, events that
    satisfy [ok] and entries that satisfy [okl]. *)
Definition confined {A} (ok : Event → bool) (okl : LogEntry → bool)
    (m : M A) : Prop :=
  ∀ w, ∃ Δ Λ,
    trace (m w).2 = trace w ++ Δ ∧ Forall (λ ev, ok ev = true) Δ ∧
    log (m w).2 = log w ++ Λ ∧ Forall (λ l, okl l = true) Λ.

Definition not_analysis (ev : Event) : bool :=
  match ev with
  | EvAnalyze _ => false
  | _ => true
  end.

Definition is_removal (ev : Event) : bool :=
  match ev with
  | EvRemoveDir _ => true
  | _ => false
  end.

Definition is_batch (ev : Event) : bool :=
  match ev with
  | EvInsertFindings _ _ => true
  | _ => false
  end.

Definition no_event (ev : Event) : bool := false.

Definition is_warning (l : LogEntry) : bool :=
  match level l with
  | warn => true
  | error => false
  end.

Definition any_entry (l : LogEntry) : bool := true.

(** Operations that cannot raise. *)
Definition total {A} (m : M A) : Prop := ∀ w, ∃ a, (m w).1 = Return a.

Definition keeps_row {A} (m : M A) : Prop := ∀ w, job_row (m w).2 = job_row w.

(** The invariant of a run that started with the row [j]: the row in the
    store is the last one observed, every observed row has
    [processed_files <= total_files], the reported progress values never
    decrease and stay below [b], and, when the run started with a progress
    column of at most 40, that column never decreases and stays below [c]. *)
Record inv (j : JobRow) (b c : Z) (t : list Event) (r : JobRow) : Prop := {
  inv_last : last (observed_rows j t) = Some r;
  inv_units : Forall units_ok (observed_rows j t);
  inv_emitted : nondecreasing (progress_values t);
  inv_bound : Forall (λ p, p ≤ b) (progress_values t);
  inv_column :
    progress j ≤ 40 → nondecreasing (map progress (observed_rows j t));
  inv_column_bound : progress j ≤ 40 → progress r ≤ c
}.

Definition Inv (j : JobRow) (b c : Z) (w : World) : Prop :=
  inv j b c (trace w) (job_row w).

(** What holds wherever a run stops. *)
Definition Top (j : JobRow) (w : World) : Prop := Inv j 100 100 w.

(** The last progress value reported before the file at index [i]. *)
Definition reported (len i : Z) : Z :=
  if i =? 0 then 40 else progressPercent i len.

Definition any_row (r : JobRow) : Prop := True.

Definition has_total (len : Z) (r : JobRow) : Prop := total_files r = Some len.

End Hoare.

(** ** Reading the calls of a run *)

Module Observations.
Import Js Worker.

(** The statuses written to the job's row, in order. *)
Definition job_statuses (t : list Event) : list JobStatus :=
  omap (λ ev, match ev with
              | EvJobUpdate u true => u_status u
              | _ => None
              end) t.

(** The statuses written to the repository's row, in order. *)
Definition repository_statuses (t : list Event) : list string :=
  omap (λ ev, match ev with
              | EvRepositoryStatus s true => Some s
              | _ => None
              end) t.

(** The clones attempted. *)
Definition clones (t : list Event) : list (string * string) :=
  omap (λ ev, match ev with
              | EvClone url branch => Some (url, branch)
              | _ => None
              end) t.

(** The directories handed to [fs.remove], in order. *)
Definition removed_dirs (t : list Event) : list string :=
  omap (λ ev, match ev with EvRemoveDir dir => Some dir | _ => None end) t.

(** The events that write a status, attempt a clone or remove a
    directory. *)
Definition marks (ev : Event) : bool :=
  match ev with
  | EvJobUpdate u true => bool_decide (is_Some (u_status u))
  | EvRepositoryStatus _ true | EvClone _ _ | EvRemoveDir _ => true
  | _ => false
  end.

End Observations.

(** ** The phases of a run *)

Module Phases.
Import Js Worker Observations.

(** Operations that write no status, attempt no clone, remove no
    directory and leave the [cleanup] variable alone. *)
Definition unmarked {A} (m : M A) : Prop :=
  ∀ w, cleanup (m w).2 = cleanup w ∧
       ∃ Δ, trace (m w).2 = trace w ++ Δ ∧ Forall (λ ev, marks ev = false) Δ.

(** What a run has written, cloned and removed so far, and its
    [cleanup] variable. *)
Record St (js : list JobStatus) (rs : list string)
    (cl : list (string * string)) (rm : list string) (c : option string)
    (w : World) : Prop := {
  st_job : job_statuses (trace w) = js;
  st_repository : repository_statuses (trace w) = rs;
  st_clones : clones (trace w) = cl;
  st_removed : removed_dirs (trace w) = rm;
  st_cleanup : cleanup w = c
}.

(** How far the [try] block has come. *)
Inductive Phase :=
| Fetched | Started | Cloning | CloneFailed | Cloned | Analyzing
| Completed | Finished.

Definition phase_job (p : Phase) : list JobStatus :=
  match p with
  | Fetched => []
  | Completed | Finished => [processing; completed]
  | _ => [processing]
  end.

Definition phase_repository (p : Phase) : list string :=
  match p with
  | Fetched | Started => []
  | Cloning | CloneFailed | Cloned => ["cloning"]
  | Analyzing | Completed => ["cloning"; "analyzing"]
  | Finished => ["cloning"; "analyzing"; "completed"]
  end.

Definition phase_cloned (p : Phase) : bool :=
  match p with
  | Fetched | Started | Cloning => false
  | _ => true
  end.

Definition phase_removed (p : Phase) : bool :=
  match p with
  | CloneFailed => true
  | _ => false
  end.

Definition phase_cleanup (p : Phase) : bool :=
  match p with
  | Cloned | Analyzing | Completed | Finished => true
  | _ => false
  end.

(** The state of a run in phase [p] of its [try] block, for the clone
    [target] and the temporary directory [dir]. *)
Definition AtPhase (target : string * string) (dir : string) (p : Phase)
    : World → Prop :=
  St (phase_job p) (phase_repository p)
     (if phase_cloned p then [target] else [])
     (if phase_removed p then [dir] else [])
     (if phase_cleanup p then Some dir else None).

(** A [try] block that stopped before its end. *)
Definition Stopped (target : string * string) (dir : string) (w : World)
    : Prop :=
  ∃ p, p ≠ Finished ∧ AtPhase target dir p w.

(** What the [catch] block may add to the statuses of the job and of the
    repository: nothing when the update of the job is refused, the job's
    status alone when the update of the repository is. *)
Definition caught : list (list JobStatus * list string) :=
  [([], []); ([failed], []); ([failed], ["failed"])].

(** The state of a run whose [try] block got to phase [p] and whose
    [catch] block added the statuses [js] and [rs]; [fin] tells whether
    the [finally] block has run. *)
Definition Reached (target : string * string) (dir : string) (p : Phase)
    (js : list JobStatus) (rs : list string) (fin : bool) : World → Prop :=
  St (phase_job p ++ js) (phase_repository p ++ rs)
     (if phase_cloned p then [target] else [])
     (if phase_removed p || (fin && phase_cleanup p) then [dir] else [])
     (if phase_cleanup p then Some dir else None).

(** The repository and branch a run clones. *)
Definition clone_target (env : Env) : string * string :=
  match fetch_repository env with
  | (Some repo, _) => (repo_url repo, branch repo)
  | (None, _) => (EmptyString, EmptyString)
  end.

End Phases.

(** ** Further sample collaborators *)

Module Samples.
Import Js Worker Accounting.

(** The collaborators of [sample_env] with a store that takes the batches
    of findings and refuses the third update of the repository's row, the
    one that marks it completed. *)
Definition late_refusal_env : Env :=
  {| backend := backend sample_env;
     fetch_repository := fetch_repository sample_env;
     jobs_fault := jobs_fault sample_env;
     repositories_fault := λ k,
       if (k =? 2)%nat
       then Some {| message := "connection reset"; stack := "PostgrestError" |}
       else None;
     temp_dir := temp_dir sample_env;
     git_clone := git_clone sample_env;
     fs_remove := fs_remove sample_env;
     list_files := list_files sample_env;
     results_fault := results_fault sample_env;
     fetch_agents := fetch_agents sample_env;
     reviews_fault := λ _, None |}.

(** The collaborators of [sample_env] with a store that refuses every
    update of the job's row. *)
Definition store_down_env : Env :=
  {| backend := backend sample_env;
     fetch_repository := fetch_repository sample_env;
     jobs_fault := λ _,
       Some {| message := "connection refused"; stack := "PostgrestError" |};
     repositories_fault := repositories_fault sample_env;
     temp_dir := temp_dir sample_env;
     git_clone := git_clone sample_env;
     fs_remove := fs_remove sample_env;
     list_files := list_files sample_env;
     results_fault := results_fault sample_env;
     fetch_agents := fetch_agents sample_env;
     reviews_fault := reviews_fault sample_env |}.

(** The collaborators of [sample_env] with no row for the repository. *)
Definition missing_repository_env : Env :=
  {| backend := backend sample_env;
     fetch_repository :=
       (None, Some {| message := "no rows returned"; stack := "PGRST116" |});
     jobs_fault := jobs_fault sample_env;
     repositories_fault := repositories_fault sample_env;
     temp_dir := temp_dir sample_env;
     git_clone := git_clone sample_env;
     fs_remove := fs_remove sample_env;
     list_files := list_files sample_env;
     results_fault := results_fault sample_env;
     fetch_agents := fetch_agents sample_env;
     reviews_fault := reviews_fault sample_env |}.

(** The report of one file, with findings of three severities. *)
Definition sample_results : list FileResult :=
  [{| file := "src/a.js"; file_language := "JavaScript";
      results := Orchestrator.aggregateResults Scenarios.one_failed |}].

End Samples.

(** ** Reading the rows of findings *)

Module Findings.
Import Js Worker.

(** The issues of the file results that have a path, each with the path
    of its file, in the order of the report. *)
Definition flattened (l : list FileResult)
    : list (string * Orchestrator.TaggedIssue) :=
  flat_map (λ fr, if String.eqb (file fr) EmptyString then []
                  else map (pair (file fr))
                         (Orchestrator.allIssues (results fr))) l.

(** What a row of [reviews] says about its finding. *)
Definition row_summary (r : FindingRow) : string * string * string :=
  (file_path r, f_severity r, category r).

(** What the worker makes of an issue of the file at [path]. *)
Definition issue_summary (pi : string * Orchestrator.TaggedIssue)
    : string * string * string :=
  (pi.1,
   severity_of (BaseAgent.severity (Orchestrator.issue pi.2)),
   category_of (Orchestrator.issue_specialty pi.2)).

End Findings.

(** ** Quotients of integers in double precision *)

Module JsMath.
Import Double.

(** [Math.ceil(x)] *)
Definition ceil (x : double) : Z := - ((- mant x) / 2 ^ shift x).

(** [Math.floor(a / b)] for integers [0 <= a] and [0 < b]; the quotient
    [0 / b] is the double zero. *)
Definition floor_div (a b : Z) : Z :=
  if a =? 0 then 0 else floor (div a b).

(** [Math.ceil(a / b)] for integers [0 <= a] and [0 < b]. *)
Definition ceil_div (a b : Z) : Z :=
  if a =? 0 then 0 else ceil (div a b).

End JsMath.

(** ** utils/validators.js *)

Module Validators.
Import Js.

(** *** Regular expressions

    The part of the regular expressions of the language that the pattern
    of [isValidGitHubUrl] uses, with matching by derivatives. *)
Inductive Regex :=
| Never
| Empty
| Char (c : ascii)
| Class (f : ascii → bool)
| Seq (r s : Regex)
| Alt (r s : Regex)
| Star (r : Regex).

(** [r+] *)
Definition Plus (r : Regex) : Regex := Seq r (Star r).

(** A literal text. *)
Fixpoint Lit (s : string) : Regex :=
  match s with
  | EmptyString => Empty
  | String c s => Seq (Char c) (Lit s)
  end.

Fixpoint nullable (r : Regex) : bool :=
  match r with
  | Never | Char _ | Class _ => false
  | Empty | Star _ => true
  | Seq r s => nullable r && nullable s
  | Alt r s => nullable r || nullable s
  end.

Fixpoint deriv (c : ascii) (r : Regex) : Regex :=
  match r with
  | Never | Empty => Never
  | Char d => if Ascii.eqb c d then Empty else Never
  | Class f => if f c then Empty else Never
  | Seq r s =>
      if nullable r then Alt (Seq (deriv c r) s) (deriv c s)
      else Seq (deriv c r) s
  | Alt r s => Alt (deriv c r) (deriv c s)
  | Star r => Seq (deriv c r) (Star r)
  end.

(** [/^r$/.test(s)]: the whole of [s] matches [r]. *)
Fixpoint test (r : Regex) (s : string) : bool :=
  match s with
  | EmptyString => nullable r
  | String c s => test (deriv c r) s
  end.

(** The texts a regular expression stands for. *)
Inductive Matches : Regex → string → Prop :=
| MEmpty : Matches Empty EmptyString
| MChar c : Matches (Char c) (String c EmptyString)
| MClass f c : f c = true → Matches (Class f) (String c EmptyString)
| MSeq r s u v : Matches r u → Matches s v → Matches (Seq r s) (u +:+ v)
| MAltL r s u : Matches r u → Matches (Alt r s) u
| MAltR r s u : Matches s u → Matches (Alt r s) u
| MStarNil r : Matches (Star r) EmptyString
| MStarApp r u v :
    Matches r u → Matches (Star r) v → Matches (Star r) (u +:+ v).

Definition in_range (lo hi : nat) (c : ascii) : bool :=
  ((lo <=? nat_of_ascii c) && (nat_of_ascii c <=? hi))%nat.

(** [\w]: a letter, a digit or the underscore. *)
Definition word (c : ascii) : bool :=
  in_range 65 90 c || in_range 97 122 c || in_range 48 57 c
  || Ascii.eqb c "_".

(** [[\w-]] *)
Definition owner_char (c : ascii) : bool := word c || Ascii.eqb c "-".

(** [[\w.-]] *)
Definition repo_char (c : ascii) : bool :=
  word c || Ascii.eqb c "." || Ascii.eqb c "-".

(** [/^https:\/\/github\.com\/[\w-]+\/[\w.-]+$/] *)
Definition pattern : Regex :=
  Seq (Lit "https://github.com/")
    (Seq (Plus (Class owner_char))
       (Seq (Char "/") (Plus (Class repo_char)))).

(** [isValidGitHubUrl(url)] *)
Definition isValidGitHubUrl (url : string) : bool := test pattern url.

(** *** Texts *)

(** What is left of [s] after the prefix [p], if [s] starts with it. *)
Fixpoint starts_with (p s : string) : option string :=
  match p, s with
  | EmptyString, _ => Some s
  | String a p, String b s => if Ascii.eqb a b then starts_with p s else None
  | String _ _, EmptyString => None
  end.

(** [s.replace(pat, rep)] for a text pattern and a replacement without
    [$]: the first occurrence of [pat] is replaced. *)
Fixpoint replace_first (pat rep s : string) : string :=
  match starts_with pat s with
  | Some rest => rep +:+ rest
  | None =>
      match s with
      | EmptyString => EmptyString
      | String c s => String c (replace_first pat rep s)
      end
  end.

(** [s.split(sep)] for a separator of one character. *)
Fixpoint split (sep : ascii) (s : string) : list string :=
  match s with
  | EmptyString => [EmptyString]
  | String c s =>
      if Ascii.eqb c sep then EmptyString :: split sep s
      else match split sep s with
           | part :: parts => String c part :: parts
           | [] => [String c EmptyString]
           end
  end.

(** [parts[parts.length - k]], which is [undefined] below the array. *)
Definition from_end {A} (k : nat) (parts : list A) : option A :=
  if (length parts <? k)%nat then None else parts !! (length parts - k)%nat.

(** All the characters of a text satisfy [f]. *)
Fixpoint all_chars (f : ascii → bool) (s : string) : bool :=
  match s with
  | EmptyString => true
  | String c s => f c && all_chars f s
  end.

(** Whether [pat] occurs in [s]. *)
Fixpoint contains (pat s : string) : bool :=
  match starts_with pat s with
  | Some _ => true
  | None =>
      match s with
      | EmptyString => false
      | String _ s => contains pat s
      end
  end.

(** *** parseGitHubUrl *)

Record RepoInfo := mkRepoInfo {
  owner : option string;
  repo : option string;
  url : string
}.

(** [parseGitHubUrl(url)] on a text; no step of it raises on a text, so
    the [catch] branch, which returns [null], is not taken.  The second
    [replace] has the pattern [/\$/], the first dollar sign. *)
Definition parseGitHubUrl (url : string) : RepoInfo :=
  let cleanUrl :=
    replace_first "$" EmptyString (replace_first ".git" EmptyString url) in
  let parts := split "/" cleanUrl in
  {| owner := from_end 2 parts;
     repo := from_end 1 parts;
     url := cleanUrl |}.

(** *** Membership tests *)

Definition includes (l : list string) (s : string) : bool :=
  existsb (String.eqb s) l.

(** [isValidJobStatus(status)] *)
Definition isValidJobStatus (status : string) : bool :=
  includes ["pending"; "cloning"; "analyzing"; "completed"; "failed"] status.

(** [isValidSeverity(severity)] *)
Definition isValidSeverity (severity : string) : bool :=
  includes ["critical"; "high"; "medium"; "low"; "info"] severity.

(** *** parseInt and validatePagination *)

Definition byte (n : nat) (c : ascii) : bool := (nat_of_ascii c =? n)%nat.

(** The white space and line terminators of one byte. *)
Definition space1 (a : ascii) : bool :=
  in_range 9 13 a || byte 32 a.

(** U+00A0 in UTF-8. *)
Definition space2 (a b : ascii) : bool := byte 194 a && byte 160 b.

(** U+1680, U+2000 to U+200A, U+2028, U+2029, U+202F, U+205F, U+3000 and
    U+FEFF in UTF-8. *)
Definition space3 (a b c : ascii) : bool :=
  (byte 225 a && byte 154 b && byte 128 c)
  || (byte 226 a && byte 128 b
      && (in_range 128 138 c || byte 168 c || byte 169 c || byte 175 c))
  || (byte 226 a && byte 129 b && byte 159 c)
  || (byte 227 a && byte 128 b && byte 128 c)
  || (byte 239 a && byte 187 b && byte 191 c).

(** The text without its leading white space. *)
Fixpoint skip_space (s : string) : string :=
  match s with
  | EmptyString => EmptyString
  | String a s1 =>
      if space1 a then skip_space s1
      else match s1 with
           | EmptyString => s
           | String b s2 =>
               if space2 a b then skip_space s2
               else match s2 with
                    | EmptyString => s
                    | String c s3 =>
                        if space3 a b c then skip_space s3 else s
                    end
           end
  end.

Definition is_digit (c : ascii) : bool := in_range 48 57 c.

Definition digit_value (c : ascii) : Z := Z.of_nat (nat_of_ascii c) - 48.

(** The value of the decimal digits [s] starts with, after the digits
    already read. *)
Fixpoint leading_digits (s : string) (read : option Z) : option Z :=
  match s with
  | EmptyString => read
  | String c s =>
      if is_digit c
      then leading_digits s (Some (10 * default 0 read + digit_value c))
      else read
  end.

(** [parseInt(s, 10)]: the integer the text starts with, after white
    space and a sign, or [NaN] when no digit is there.  The language
    rounds the integer to a double: below [2 ^ 53] that is the integer
    itself, and beyond it compares with the bounds of
    [validatePagination] as the integer does. *)
Definition parseInt (s : string) : num :=
  let s := skip_space s in
  let '(sign, digits) :=
    match s with
    | String c rest =>
        if Ascii.eqb c "-" then (-1, rest)
        else if Ascii.eqb c "+" then (1, rest)
        else (1, s)
    | EmptyString => (1, s)
    end in
  match leading_digits digits None with
  | Some n => Num (sign * n)
  | None => NaN
  end.

(** A numeral: one decimal digit or more. *)
Definition numeral (s : string) : Prop :=
  s ≠ EmptyString ∧ all_chars is_digit s = true.

(** A text that does not go on with a digit. *)
Definition no_digit_first (s : string) : Prop :=
  match s with
  | EmptyString => True
  | String c _ => is_digit c = false
  end.

(** [isNaN(x) || x < lo] *)
Definition nan_or_below (x : num) (lo : Z) : bool :=
  match x with
  | NaN => true
  | Num z => z <? lo
  end.

Definition above (x : num) (hi : Z) : bool :=
  match x with
  | NaN => false
  | Num z => hi <? z
  end.

Record Pagination := mkPagination {
  valid : bool;
  errors : list string;
  limit : num;
  offset : num
}.

(** [validatePagination(limit, offset)] on the texts of the query; a
    number given instead (the defaults 50 and 0) is first turned into its
    text. *)
Definition validatePagination (limit offset : string) : Pagination :=
  let parsedLimit := parseInt limit in
  let parsedOffset := parseInt offset in
  let errors :=
    (if nan_or_below parsedLimit 1 || above parsedLimit 100
     then ["Limit must be a number between 1 and 100"] else [])
    ++ (if nan_or_below parsedOffset 0
        then ["Offset must be a non-negative number"] else []) in
  {| valid := (length errors =? 0)%nat;
     errors := errors;
     limit := parsedLimit;
     offset := parsedOffset |}.

End Validators.

(** ** services/githubService.js: the files of a clone *)

Module GithubService.
Import Js Validators.

(** A path, by its components: [path.join(dir, name)] of a directory and
    the name of one of its entries adds the name, and
    [filePath.split(path.sep)] lists the components (after an empty one
    for the root, which no test below tells apart). *)
Definition Path : Type := list string.

Definition SUPPORTED_EXTENSIONS : list string :=
  [".js"; ".jsx"; ".ts"; ".tsx"; ".mjs"; ".cjs"; ".py"; ".java";
   ".c"; ".cpp"; ".h"; ".hpp"; ".go"; ".rb"; ".php"; ".rs"; ".swift";
   ".kt"; ".css"; ".scss"; ".html"; ".vue"; ".svelte"].

Definition IGNORED_DIRS : list string :=
  ["node_modules"; ".git"; "dist"; "build"; "coverage"; ".next"; ".nuxt";
   "vendor"; "__pycache__"; ".pytest_cache"; "venv"; "env"; ".venv"].

(** *** path.extname

    The scan of the last portion of a path, from its end: the index of
    the last dot, once met, and what was seen before it ([0]: nothing
    yet, [1]: only dots, [-1]: another character). *)
Record Scan := mkScan { startDot : option nat; preDotState : Z }.

Definition scan_char (i : nat) (c : ascii) (st : Scan) : Scan :=
  if Ascii.eqb c "." then
    match startDot st with
    | None => {| startDot := Some i; preDotState := preDotState st |}
    | Some _ =>
        if preDotState st =? 1 then st
        else {| startDot := startDot st; preDotState := 1 |}
    end
  else
    match startDot st with
    | Some _ => {| startDot := startDot st; preDotState := -1 |}
    | None => st
    end.

(** The characters of [name] from index [i] on are scanned last first. *)
Fixpoint scan (i : nat) (name : string) : Scan :=
  match name with
  | EmptyString => {| startDot := None; preDotState := 0 |}
  | String c name => scan_char i c (scan (S i) name)
  end.

(** [path.extname] of a path whose last portion is [name]: from the last
    dot of the name on, unless the name has no dot, or none but its first
    character, or is [".."]. *)
Definition extname_of_name (name : string) : string :=
  let st := scan 0 name in
  match startDot st with
  | None => EmptyString
  | Some d =>
      if (preDotState st =? 0)
         || ((preDotState st =? 1)
             && (d =? String.length name - 1)%nat && (d =? 1)%nat)
      then EmptyString
      else String.substring d (String.length name - d) name
  end.

Definition extname (filePath : Path) : string :=
  extname_of_name (default EmptyString (last filePath)).

(** [path.relative(from, to)] *)
Fixpoint relative (from to : Path) : Path :=
  match from, to with
  | a :: from', b :: to' =>
      if String.eqb a b then relative from' to'
      else map (λ _, "..") from ++ to
  | _, _ => map (λ _, "..") from ++ to
  end.

(** *** shouldAnalyzeFile, countLines, detectLanguage *)

(** [shouldAnalyzeFile(filePath)] *)
Definition shouldAnalyzeFile (filePath : Path) : bool :=
  if negb (includes SUPPORTED_EXTENSIONS (extname filePath)) then false
  else forallb (λ part, negb (includes IGNORED_DIRS part)) filePath.

(** [countLines(content)] *)
Definition countLines (content : string) : nat :=
  length (split "010" content).

Definition languageMap : gmap string string :=
  list_to_map
    [(".js", "JavaScript"); (".jsx", "JavaScript React");
     (".ts", "TypeScript"); (".tsx", "TypeScript React");
     (".mjs", "JavaScript ES Module"); (".cjs", "JavaScript CommonJS");
     (".py", "Python"); (".java", "Java"); (".c", "C"); (".cpp", "C++");
     (".h", "C Header"); (".hpp", "C++ Header"); (".go", "Go");
     (".rb", "Ruby"); (".php", "PHP"); (".rs", "Rust");
     (".swift", "Swift"); (".kt", "Kotlin"); (".css", "CSS");
     (".scss", "SCSS"); (".html", "HTML"); (".vue", "Vue");
     (".svelte", "Svelte")].

(** [detectLanguage(filePath)]: the lookup is that of the own properties
    of [languageMap]; an extension is empty or starts with a dot, and no
    member of [Object.prototype] has such a name. *)
Definition detectLanguage (filePath : Path) : string :=
  or_str (languageMap !! extname filePath) "Unknown".

(** *** The file system *)

(** What [readdir] with file types finds: regular files, directories with
    their entries ([None] when reading the directory raises), and entries
    that are neither (links, sockets). *)
#[local] Set Warnings "-register-all".
Inductive Node :=
| RegularFile
| Directory (entries : option (list (string * Node)))
| Special.
#[local] Set Warnings "register-all".

(** [fs.readFile(path, 'utf8')] and the size of [fs.statSync(path)] in
    bytes; each may raise. *)
Record FileSystem := mkFileSystem {
  readFile : Path → Completion string;
  statSize : Path → Completion Z
}.

Record Found := mkFound { fullPath : Path; relativePath : Path }.

(** [findCodeFiles(dirPath, baseDir)], where [dir] is what the file
    system holds at [dirPath].  Reading the directory is the only step
    that raises, and the handler leaves the list empty. *)
Fixpoint findCodeFiles (dir : Node) (dirPath baseDir : Path) : list Found :=
  match dir with
  | Directory (Some entries) =>
      (fix loop (entries : list (string * Node)) : list Found :=
         match entries with
         | [] => []
         | (name, entry) :: entries =>
             let fullPath := dirPath ++ [name] in
             let relativePath := relative baseDir fullPath in
             match entry with
             | Directory _ =>
                 if negb (includes IGNORED_DIRS name)
                 then findCodeFiles entry fullPath baseDir
                 else []
             | RegularFile =>
                 if shouldAnalyzeFile fullPath
                 then [{| fullPath := fullPath;
                          relativePath := relativePath |}]
                 else []
             | Special => []
             end ++ loop entries
         end) entries
  | _ => []
  end.

(** The regular files of a tree, by their path from its root: through
    directories that can be read. *)
Inductive file_at : Node → Path → Prop :=
| file_here name entries :
    (name, RegularFile) ∈ entries →
    file_at (Directory (Some entries)) [name]
| file_below name sub entries rel :
    (name, Directory sub) ∈ entries →
    file_at (Directory sub) rel →
    file_at (Directory (Some entries)) (name :: rel).

(** No component of the path is the name of an ignored directory. *)
Definition clear_of_ignored (p : Path) : Prop :=
  Forall (λ part, part ∉ IGNORED_DIRS) p.

(** The number of line feeds of a text. *)
Fixpoint line_feeds (s : string) : nat :=
  match s with
  | EmptyString => 0
  | String c s => (if Ascii.eqb c "010" then 1 else 0) + line_feeds s
  end.

(** [(size / 1024).toFixed(2)], in hundredths: the nearest number of two
    decimals, the upper one of two.  [size / 1024] is exact. *)
Definition getFileSizeKB (size : Z) : Z := (200 * size + 1024) / 2048.

(** [content.trim().length === 0]: nothing is left after the leading
    white space. *)
Definition blank (content : string) : bool :=
  String.eqb (skip_space content) EmptyString.

Record ParsedFile := mkParsedFile {
  path : Path;
  content : string;
  extension : string;
  language : string;
  lines : nat;
  sizeKB : Z
}.

(** The body of [for (const file of codeFiles)]: [None] when the file is
    skipped, which is also what the handler of the [try] does. *)
Definition parse_file (fs : FileSystem) (file : Found) : option ParsedFile :=
  match readFile fs (fullPath file) with
  | Throw _ => None
  | Return content =>
      if blank content then None
      else
        match statSize fs (fullPath file) with
        | Throw _ => None
        | Return size =>
            let sizeKB := getFileSizeKB size in
            if 10000 <? sizeKB then None
            else Some {| path := relativePath file;
                         content := content;
                         extension := extname (fullPath file);
                         language := detectLanguage (fullPath file);
                         lines := countLines content;
                         sizeKB := sizeKB |}
        end
  end.

(** [parseCodeFiles(repoPath)], where [repo] is what was cloned there;
    [sizeKB] is in hundredths. *)
Definition parseCodeFiles (fs : FileSystem) (repo : Node) (repoPath : Path)
    : list ParsedFile :=
  let codeFiles := findCodeFiles repo repoPath repoPath in
  omap (parse_file fs) codeFiles.

End GithubService.

(** ** utils/responses.js *)

Module Responses.
Import Js.

Record PageInfo := mkPageInfo {
  total : Z;
  limit : Z;
  offset : Z;
  hasMore : bool;
  page : Z;
  totalPages : Z
}.

(** [paginatedResponse(data, total, limit, offset)] for the numbers of a
    valid pagination and the count of a query ([0 <= total],
    [0 < limit], [0 <= offset]); [success] is [true]. *)
Definition paginatedResponse {A} (data : list A) (total limit offset : Z)
    : list A * PageInfo :=
  (data,
   {| total := total;
      limit := limit;
      offset := offset;
      hasMore := offset + Z.of_nat (length data) <? total;
      page := JsMath.floor_div offset limit + 1;
      totalPages := JsMath.ceil_div total limit |}).

End Responses.

(** ** Objects with counters *)

Module Counters.
Import Js Validators.

(** An object built from [{}] by assignments of counters: its own
    properties, in the order of their creation. *)
Definition Obj : Type := list (string * Z).

Fixpoint get (o : Obj) (k : string) : option Z :=
  match o with
  | [] => None
  | (k', v) :: o => if String.eqb k' k then Some v else get o k
  end.

Fixpoint set (o : Obj) (k : string) (v : Z) : Obj :=
  match o with
  | [] => [(k, v)]
  | (k', v') :: o =>
      if String.eqb k' k then (k, v) :: o else (k', v') :: set o k v
  end.

(** The array index a key is, if it is one: a canonical numeral below
    [2 ^ 32 - 1]. *)
Definition array_index (k : string) : option Z :=
  match k with
  | EmptyString => None
  | String c rest =>
      if all_chars is_digit k
         && (negb (Ascii.eqb c "0") || String.eqb rest EmptyString)
      then
        match leading_digits k None with
        | Some n => if n <? 2 ^ 32 - 1 then Some n else None
        | None => None
        end
      else None
  end.

Definition is_index (e : string * Z) : Prop := is_Some (array_index e.1).

Definition index_le (a b : string * Z) : Prop :=
  default 0 (array_index a.1) ≤ default 0 (array_index b.1).

#[export] Instance index_le_dec : RelDecision index_le :=
  λ a b, Z_le_dec _ _.

(** [Object.entries(o)]: the array indices first, in ascending order,
    then the other keys in the order of their creation. *)
Definition entries (o : Obj) : list (string * Z) :=
  merge_sort index_le (filter is_index o)
  ++ filter (λ e, ¬ is_index e) o.

(** The sum of the counters of an object. *)
Definition sum_counters (o : Obj) : Z := foldr (λ e s, e.2 + s) 0 o.

End Counters.

(** ** routes/jobs.js *)

Module JobsRoutes.
Import Js Validators Counters.

(** The fields of a row of [reviews] that the helpers read; [None] is a
    missing or [null] field. *)
Record Review := mkReview {
  severity : option string;
  category : option string
}.

(** The timestamps of a row of [review_jobs], in milliseconds ([None]
    for a missing or [null] field); the texts are those of
    [toISOString]. *)
Record JobTimes := mkJobTimes {
  created_at : option Z;
  started_at : option Z;
  completed_at : option Z
}.

Record Metrics := mkMetrics {
  queueTime : option Z;
  queueTimeFormatted : option string;
  processingTime : option Z;
  processingTimeFormatted : option string;
  totalTime : option Z;
  totalTimeFormatted : option string
}.

(** [formatDuration(seconds)] for a whole number of seconds. *)
Definition formatDuration (seconds : Z) : string :=
  if seconds <? 60 then pretty seconds +:+ "s"
  else if seconds <? 3600 then
    let minutes := JsMath.floor_div seconds 60 in
    let secs := Z.rem seconds 60 in
    pretty minutes +:+ "m " +:+ pretty secs +:+ "s"
  else
    let hours := JsMath.floor_div seconds 3600 in
    let minutes := JsMath.floor_div (Z.rem seconds 3600) 60 in
    pretty hours +:+ "h " +:+ pretty minutes +:+ "m".

(** [Math.round((to - from) / 1000)] when both dates are there. *)
Definition seconds_between (from to : option Z) : option Z :=
  match from, to with
  | Some from, Some to => Some (round_div (to - from) 1000)
  | _, _ => None
  end.

(** [calculateJobMetrics(job)] *)
Definition calculateJobMetrics (job : JobTimes) : Metrics :=
  let queue := seconds_between (created_at job) (started_at job) in
  let processing := seconds_between (started_at job) (completed_at job) in
  let total := seconds_between (created_at job) (completed_at job) in
  {| queueTime := queue;
     queueTimeFormatted := formatDuration <$> queue;
     processingTime := processing;
     processingTimeFormatted := formatDuration <$> processing;
     totalTime := total;
     totalTimeFormatted := formatDuration <$> total |}.

(** The key a field stands for in [summary.hasOwnProperty(field)]. *)
Definition own_key (field : option string) : string :=
  match field with
  | Some s => s
  | None => "null"
  end.

(** [groupBySeverity(reviews)] *)
Definition groupBySeverity (reviews : list Review) : gmap string Z :=
  fold_left
    (λ summary review,
       let k := own_key (severity review) in
       match summary !! k with
       | Some n => <[k := n + 1]> summary
       | None => summary
       end)
    reviews
    (list_to_map [("critical", 0); ("high", 0); ("medium", 0); ("low", 0);
                  ("info", 0)]).

(** A row of [reviews] as the worker stored it, read back. *)
Definition review_of (row : Worker.FindingRow) : Review :=
  {| severity := Some (Worker.f_severity row);
     category := Some (Worker.category row) |}.

(** The sum of the five counters of a summary. *)
Definition counted (summary : gmap string Z) : Z :=
  foldr (λ k sum, default 0 (summary !! k) + sum) 0
    ["critical"; "high"; "medium"; "low"; "info"].

(** [countBy(array, field)], for keys that are not names of
    [Object.prototype]: a counter that is there is at least [1]. *)
Definition countBy (array : list Review) (field : Review → option string)
    : Obj :=
  fold_left
    (λ acc item,
       let key := or_str (field item) "unknown" in
       set acc key (default 0 (get acc key) + 1))
    array [].

(** The keys of the items, as [countBy] reads them. *)
Definition keys_of (array : list Review) (field : Review → option string)
    : list string :=
  map (λ item, or_str (field item) "unknown") array.

(** How often [k] is among the keys. *)
Definition occurrences (k : string) (keys : list string) : Z :=
  Z.of_nat (length (filter (λ k', k' = k) keys)).

(** [getMostCommon(array, field)] *)
Definition getMostCommon (array : list Review)
    (field : Review → option string) : option (string * Z) :=
  if (length array =? 0)%nat then None
  else
    match entries (countBy array field) with
    | [] => None
    | first :: rest =>
        Some (fold_left (λ max entry, if max.2 <? entry.2 then entry else max)
                rest first)
    end.

(** *** PATCH /api/jobs/:id *)

(** A value of a JSON body: a number and an object come with the text
    they convert to. *)
Inductive Value :=
| VUndefined
| VNull
| VBool (b : bool)
| VNumber (text : string)
| VText (s : string)
| VObject (text : string).

Definition truthy (v : Value) : bool :=
  match v with
  | VUndefined | VNull => false
  | VBool b => b
  | VNumber text => negb (String.eqb text "0")
  | VText s => negb (String.eqb s EmptyString)
  | VObject _ => true
  end.

Definition to_text (v : Value) : string :=
  match v with
  | VUndefined => "undefined"
  | VNull => "null"
  | VBool b => if b then "true" else "false"
  | VNumber text | VText text | VObject text => text
  end.

(** [validStatuses.includes(v)] *)
Definition valid_status (v : Value) : bool :=
  match v with
  | VText s => isValidJobStatus s
  | _ => false
  end.

(** [v === s] for a text [s] *)
Definition is_text (v : Value) (s : string) : bool :=
  match v with
  | VText t => String.eqb t s
  | _ => false
  end.

Definition is_undefined (v : Value) : bool :=
  match v with
  | VUndefined => true
  | _ => false
  end.

(** The fields of the body that the handler reads. *)
Record Body := mkBody {
  b_status : Value;
  b_progress : Value;
  b_total_files : Value;
  b_processed_files : Value;
  b_started_at : Value;
  b_completed_at : Value
}.

(** A field after validation: left as it was, or the number read. *)
Inductive Field :=
| Kept (v : Value)
| Parsed (n : num).

Record Updates := mkUpdates {
  u_status : Value;
  u_progress : Field;
  u_total_files : Field;
  u_processed_files : Field;
  u_started_at : Value;
  u_completed_at : Value
}.

Inductive Checked :=
| Refused (status : Z) (error : string)
| Passed (updates : Updates).

(** The validation of a counter that is there. *)
Definition check_number (v : Value) (hi : option Z) : option Field :=
  if is_undefined v then Some (Kept v)
  else
    let n := parseInt (to_text v) in
    if nan_or_below n 0 || from_option (above n) false hi then None
    else Some (Parsed n).

(** The handler up to the query: the validation of the body and the
    timestamps added to it; [now] is [new Date().toISOString()]. *)
Definition check_updates (updates : Body) (now : string) : Checked :=
  if truthy (b_status updates) && negb (valid_status (b_status updates))
  then Refused 400 "Invalid status"
  else
    match check_number (b_progress updates) (Some 100) with
    | None => Refused 400 "Progress must be between 0 and 100"
    | Some progress =>
        match check_number (b_total_files updates) None with
        | None => Refused 400 "total_files must be a non-negative number"
        | Some total_files =>
            match check_number (b_processed_files updates) None with
            | None =>
                Refused 400 "processed_files must be a non-negative number"
            | Some processed_files =>
                let started :=
                  if is_text (b_status updates) "processing"
                     && negb (truthy (b_started_at updates))
                  then VText now else b_started_at updates in
                let completed :=
                  if is_text (b_status updates) "completed"
                     && negb (truthy (b_completed_at updates))
                  then VText now else b_completed_at updates in
                let completed :=
                  if is_text (b_status updates) "failed"
                     && negb (truthy completed)
                  then VText now else completed in
                Passed {| u_status := b_status updates;
                          u_progress := progress;
                          u_total_files := total_files;
                          u_processed_files := processed_files;
                          u_started_at := started;
                          u_completed_at := completed |}
            end
        end
    end.

End JobsRoutes.

(** ** frontend: components/JobProgress.tsx *)

Module JobProgress.
Import Js.

(** [formatDuration(ms)] of the component, for [0 <= ms]. *)
Definition formatDuration (ms : Z) : string :=
  let seconds := JsMath.floor_div ms 1000 in
  let minutes := JsMath.floor_div seconds 60 in
  let hours := JsMath.floor_div minutes 60 in
  if 0 <? hours then
    pretty hours +:+ "h " +:+ pretty (Z.rem minutes 60) +:+ "m"
  else if 0 <? minutes then
    pretty minutes +:+ "m " +:+ pretty (Z.rem seconds 60) +:+ "s"
  else pretty seconds +:+ "s".

(** The text next to [Total Time:], shown when [job.metrics.totalTime > 0]:
    the component formats [totalTime] itself. *)
Definition total_time_shown (metrics : JobsRoutes.Metrics) : option string :=
  match JobsRoutes.totalTime metrics with
  | Some totalTime =>
      if 0 <? totalTime then Some (formatDuration totalTime) else None
  | None => None
  end.

End JobProgress.

(** ** routes/repositories.js: POST /api/repositories *)

Module RepositoriesRoute.
Import Js Validators JobsRoutes.

(** The rows of the two tables that the handler writes. *)
Record RepositoryRow := mkRepositoryRow {
  id : string;
  repo_url : string;
  repo_name : option string;
  repo_owner : option string;
  branch : Value;
  status : string
}.

Record JobRow := mkJobRow {
  job_id : string;
  repo_id : string;
  job_status : string;
  progress : Z
}.

Record Store := mkStore {
  repositories : list RepositoryRow;
  review_jobs : list JobRow;
  queue : ReviewQueue.Queue
}.

(** What the handler does not decide: the ids the store gives to the
    rows, whether it refuses an insert or misses a delete, whether the
    queue can be reached, its policy on ids, and the clock. *)
Record Env := mkEnv {
  repository_id : string;
  new_job_id : string;
  repositories_fault : option Error;
  jobs_fault : option Error;
  delete_fault : bool;
  queue_fault : option Error;
  policy : ReviewQueue.OnDuplicate;
  now : nat
}.

Record Request := mkRequest {
  req_repo_url : Value;
  req_branch : Value
}.

Inductive Response :=
| BadRequest (error : string)
| Created (repository : RepositoryRow) (job : JobRow)
| ServerError (error : Error).

(** The status of a response. *)
Definition code (r : Response) : Z :=
  match r with
  | BadRequest _ => 400
  | Created _ _ => 201
  | ServerError _ => 500
  end.

(** [parseGitHubUrl(url)] on a value of the body: [replace] is a method
    of texts only, and the handler of the function turns the error of
    calling it on another value into [null]. *)
Definition parseGitHubUrl_value (v : Value) : option RepoInfo :=
  match v with
  | VText url => Some (parseGitHubUrl url)
  | _ => None
  end.

(** The handler of [POST /]; the lines written to the log are left
    out. *)
Definition post (env : Env) (req : Request) (s : Store) : Response * Store :=
  let repo_url := req_repo_url req in
  let branch :=
    if is_undefined (req_branch req) then VText "main" else req_branch req in
  if negb (truthy repo_url) then (BadRequest "repo_url is required", s)
  else if negb (isValidGitHubUrl (to_text repo_url))
  then (BadRequest "Invalid GitHub URL format", s)
  else
    match parseGitHubUrl_value repo_url with
    | None => (BadRequest "Failed to parse GitHub URL", s)
    | Some repoInfo =>
        match repositories_fault env with
        | Some repoError => (ServerError repoError, s)
        | None =>
            let repository :=
              {| id := repository_id env;
                 repo_url := url repoInfo;
                 repo_name := repo repoInfo;
                 repo_owner := owner repoInfo;
                 branch := branch;
                 status := "pending" |} in
            let s1 :=
              {| repositories := repositories s ++ [repository];
                 review_jobs := review_jobs s;
                 queue := queue s |} in
            match jobs_fault env with
            | Some jobError =>
                let s2 :=
                  if delete_fault env then s1
                  else
                    {| repositories :=
                         List.filter
                           (λ r, negb (String.eqb (id r) (id repository)))
                           (repositories s1);
                       review_jobs := review_jobs s1;
                       queue := queue s1 |} in
                (ServerError jobError, s2)
            | None =>
                let job :=
                  {| job_id := new_job_id env;
                     repo_id := id repository;
                     job_status := "queued";
                     progress := 0 |} in
                let s2 :=
                  {| repositories := repositories s1;
                     review_jobs := review_jobs s1 ++ [job];
                     queue := queue s1 |} in
                let s3 :=
                  match queue_fault env with
                  | Some _ => s2
                  | None =>
                      {| repositories := repositories s2;
                         review_jobs := review_jobs s2;
                         queue :=
                           (ReviewQueue.queueReviewJob (policy env) (now env)
                              (queue s2) (job_id job) (id repository)
                              ReviewQueue.no_options).1 |}
                  end in
                (Created repository job, s3)
            end
        end
    end.

(** The rows of [repositories] have ids of their own. *)
Definition fresh (env : Env) (s : Store) : Prop :=
  Forall (λ r, id r ≠ repository_id env) (repositories s).

(** A store that refuses the insert of the job, an empty database, and a
    request for a repository. *)
Definition jobs_down : Env :=
  {| repository_id := "repo-1"; new_job_id := "job-1";
     repositories_fault := None;
     jobs_fault :=
       Some {| message := "connection reset"; stack := "PostgrestError" |};
     delete_fault := false; queue_fault := None;
     policy := ReviewQueue.KeepExisting; now := 0%nat |}.

(** A store that takes both rows, and a queue that cannot be reached. *)
Definition queue_down : Env :=
  {| repository_id := "repo-1"; new_job_id := "job-1";
     repositories_fault := None; jobs_fault := None;
     delete_fault := false;
     queue_fault :=
       Some {| message := "connect ECONNREFUSED"; stack := "Error" |};
     policy := ReviewQueue.KeepExisting; now := 0%nat |}.

Definition empty_store : Store :=
  {| repositories := []; review_jobs := []; queue := [] |}.

Definition sample_request : Request :=
  {| req_repo_url := VText "https://github.com/facebook/react.git";
     req_branch := VUndefined |}.

End RepositoriesRoute.

(** ** The agents' answers as JSON values

    [BaseAgent.analyze] stores whatever [JSON.parse] makes of the answer
    in [findings], and [aggregateResults] walks it unchecked.  The
    orchestrator is embedded here a second time over JSON values of any
    shape; [BaseAgent.Findings] is the shape the prompt asks for. *)

Module Answers.
Import Js.

(** What [JSON.parse] returns.  Numbers are integers, as the prompt asks
    for [line] and [score]. *)
#[local] Set Warnings "-register-all".
Inductive Json :=
| JNull
| JBool (b : bool)
| JNumber (z : Z)
| JText (s : string)
| JArray (elements : list Json)
| JObject (members : list (string * Json)).
#[local] Set Warnings "register-all".

(** Truthiness: [null], [false], [0] and the empty text are falsy. *)
Definition truthy (v : Json) : bool :=
  match v with
  | JNull => false
  | JBool b => b
  | JNumber z => negb (z =? 0)
  | JText s => negb (String.eqb s EmptyString)
  | JArray _ | JObject _ => true
  end.

Definition truthy_opt (v : option Json) : bool :=
  match v with
  | Some v => truthy v
  | None => false
  end.

(** The own property [k] of a parsed object: of two members with the
    same name [JSON.parse] keeps the later one. *)
Definition own (members : list (string * Json)) (k : string) : option Json :=
  fold_left (λ found m, if String.eqb m.1 k then Some m.2 else found)
    members None.

Definition TypeError (msg : string) : Error :=
  {| message := msg; stack := "TypeError: " +:+ msg |}.

(** [v.k], for the keys the orchestrator reads ([issues], [severity],
    [score]), which neither texts, arrays nor [Object.prototype] define:
    reading a property of [null] raises, and every value other than an
    object answers [undefined]. *)
Definition get (v : Json) (k : string) : Completion (option Json) :=
  match v with
  | JNull =>
      Throw (TypeError
               ("Cannot read properties of null (reading '" +:+ k +:+ "')"))
  | JObject members => Return (own members k)
  | _ => Return None
  end.

(** [String(v)], the text a value stands for as a property key: the
    elements of an array are joined by commas, [null] elements counting
    as empty. *)
Fixpoint to_text (v : Json) : string :=
  match v with
  | JNull => "null"
  | JBool b => if b then "true" else "false"
  | JNumber z => pretty z
  | JText s => s
  | JArray l =>
      (fix join (l : list Json) : string :=
         match l with
         | [] => EmptyString
         | x :: l' =>
             let s := match x with
                      | JNull => EmptyString
                      | _ => to_text x
                      end in
             match l' with
             | [] => s
             | _ => s +:+ "," +:+ join l'
             end
         end) l
  | JObject _ => "[object Object]"
  end.

(** The property key of [obj[v]]. *)
Definition to_key (v : option Json) : string :=
  match v with
  | Some v => to_text v
  | None => "undefined"
  end.

(** What [analyze] resolves to, with [findings] as parsed. *)
Record Result := mkResult {
  agentName : option string;
  specialty : option string;
  error : option string;
  findings : option Json;
  tokensUsed : option Z
}.

(** The remote service and the JSON parser: [JSON_parse] gives the value
    the answer's text stands for or raises a [SyntaxError]. *)
Record Backend := mkBackend {
  create : string → string → string → Completion BaseAgent.Response;
  JSON_parse : string → Completion Json
}.

(** [analyze(code, language)] of BaseAgent.js. *)
Definition analyze (b : Backend) (a : BaseAgent.Agent)
    (code language : string) : Completion Result :=
  let failure (e : Error) :=
    Return {| agentName := Some (BaseAgent.name a);
              specialty := Some (BaseAgent.agent_specialty a);
              error := Some (message e);
              findings := None;
              tokensUsed := None |} in
  let userPrompt := BaseAgent.buildUserPrompt code language in
  match create b (BaseAgent.model a) (BaseAgent.systemPrompt a) userPrompt with
  | Throw e => failure e
  | Return response =>
      match JSON_parse b (BaseAgent.content response) with
      | Throw e => failure e
      | Return analysis =>
          Return {| agentName := Some (BaseAgent.name a);
                    specialty := Some (BaseAgent.agent_specialty a);
                    error := None;
                    findings := Some analysis;
                    tokensUsed := Some (BaseAgent.total_tokens response) |}
      end
  end.

(** An element of [allIssues]: the issue that is spread, and the two
    properties added to it. *)
Record Tagged := mkTagged {
  issue : Json;
  agent : option string;
  issue_specialty : option string
}.

(** The report, with the fields of [Orchestrator.Report].
    [overallScore] is [None] when a truthy score is not a number: the
    arithmetic of [reduce] on other values is not modelled; it cannot
    raise. *)
Record Report := mkReport {
  success : bool;
  overallScore : option Z;
  totalIssuesFound : nat;
  issuesBySeverity : gmap string num;
  agentResults : list Result;
  failedAgents : list Result;
  allIssues : list Tagged;
  agentsRun : nat;
  totalTokens : num
}.

(** [r => r.error] *)
Definition has_error (r : Result) : bool := truthy_str (error r).

Definition Acc : Type := gmap string num * list Tagged.

(** [array.forEach(f)] with a callback that may raise. *)
Fixpoint forEach {A B} (f : B → A → Completion B) (l : list A) (b : B)
    : Completion B :=
  match l with
  | [] => Return b
  | a :: l =>
      match f b a with
      | Return b' => forEach f l b'
      | Throw e => Throw e
      end
  end.

(** The callback of the inner [forEach]:
    [issuesBySeverity[issue.severity]++; allIssues.push({...issue, ...})] *)
Definition visit_issue (r : Result) (acc : Acc) (i : Json) : Completion Acc :=
  match get i "severity" with
  | Throw e => Throw e
  | Return severity =>
      Return (incr acc.1 (to_key severity),
              acc.2 ++ [{| issue := i; agent := agentName r;
                           issue_specialty := specialty r |}])
  end.

(** [value.forEach(callback)] on a truthy value: only an array has the
    method. *)
Definition walk (r : Result) (value : Json) (acc : Acc) : Completion Acc :=
  match value with
  | JArray issues => forEach (visit_issue r) issues acc
  | _ => Throw (TypeError "result.findings.issues.forEach is not a function")
  end.

(** The callback of the outer [forEach]:
    [if (result.findings && result.findings.issues) ...] *)
Definition visit_result (acc : Acc) (r : Result) : Completion Acc :=
  match findings r with
  | Some f =>
      if truthy f then
        match get f "issues" with
        | Throw e => Throw e
        | Return (Some issues) =>
            if truthy issues then walk r issues acc else Return acc
        | Return None => Return acc
        end
      else Return acc
  | None => Return acc
  end.

(** [r.findings.score] of a result whose [findings] are truthy. *)
Definition score_of (r : Result) : option Json :=
  match findings r with
  | Some f =>
      match get f "score" with
      | Return score => score
      | Throw _ => None
      end
  | None => None
  end.

(** [r => r.findings && r.findings.score] *)
Definition has_score (r : Result) : bool :=
  match findings r with
  | Some f => truthy f && truthy_opt (score_of r)
  | None => false
  end.

(** The scores as numbers, if they all are. *)
Fixpoint numbers (l : list (option Json)) : option (list Z) :=
  match l with
  | [] => Some []
  | Some (JNumber z) :: l =>
      match numbers l with
      | Some zs => Some (z :: zs)
      | None => None
      end
  | _ => None
  end.

(** [aggregateResults(results, totalDuration)] *)
Definition aggregateResults (results : list Result) : Completion Report :=
  let successful := List.filter (λ r, negb (has_error r)) results in
  let failed := List.filter has_error results in
  match forEach visit_result successful (Orchestrator.initial_tally, []) with
  | Throw e => Throw e
  | Return acc =>
      let scores := map score_of (List.filter has_score successful) in
      let tokens :=
        fold_left (λ sum r, num_add sum (to_num (tokensUsed r)))
          successful (Num 0) in
      Return {| success := true;
                overallScore := Orchestrator.mean_score <$> numbers scores;
                totalIssuesFound := length acc.2;
                issuesBySeverity := acc.1;
                agentResults := successful;
                failedAgents := failed;
                allIssues := acc.2;
                agentsRun := length successful;
                totalTokens := tokens |}
  end.

(** [analyzeCode(code, language)]: what [aggregateResults] raises is
    raised inside the [try] block, whose [catch] logs and rethrows. *)
Definition analyzeCode (b : Backend) (o : Orchestrator.AgentOrchestrator)
    (code language : string) : Completion Report :=
  let agentPromises :=
    map (λ a, analyze b a code language) (Orchestrator.agents o) in
  match Orchestrator.Promise_all agentPromises with
  | Return results => aggregateResults results
  | Throw e => Throw e
  end.

(** *** The shape the prompt asks for *)

Definition field (k : string) (v : option Json) : list (string * Json) :=
  match v with
  | Some v => [(k, v)]
  | None => []
  end.

Definition of_issue (i : BaseAgent.Issue) : Json :=
  JObject
    (field "severity" (JText <$> BaseAgent.severity i)
     ++ field "line" (JNumber <$> BaseAgent.line i)
     ++ field "description" (JText <$> BaseAgent.description i)
     ++ field "recommendation" (JText <$> BaseAgent.recommendation i)).

Definition of_findings (f : BaseAgent.Findings) : Json :=
  JObject
    (field "issues" ((λ l, JArray (map of_issue l)) <$> BaseAgent.issues f)
     ++ field "summary" (JText <$> BaseAgent.summary f)
     ++ field "score" (JNumber <$> BaseAgent.score f)).

(** A result whose answer has that shape; an answer that is falsy is
    [null]. *)
Definition of_result (r : BaseAgent.AgentResult) : Result :=
  {| agentName := BaseAgent.agentName r;
     specialty := BaseAgent.specialty r;
     error := BaseAgent.error r;
     findings :=
       match BaseAgent.error r, BaseAgent.findings r with
       | None, None => Some JNull
       | _, f => of_findings <$> f
       end;
     tokensUsed := BaseAgent.tokensUsed r |}.

Definition of_tagged (t : Orchestrator.TaggedIssue) : Tagged :=
  {| issue := of_issue (Orchestrator.issue t);
     agent := Orchestrator.agent t;
     issue_specialty := Orchestrator.issue_specialty t |}.

Definition of_acc (acc : Orchestrator.Acc) : Acc :=
  (acc.1, map of_tagged acc.2).

Definition of_report (rep : Orchestrator.Report) : Report :=
  {| success := Orchestrator.success rep;
     overallScore := Some (Orchestrator.overallScore rep);
     totalIssuesFound := Orchestrator.totalIssuesFound rep;
     issuesBySeverity := Orchestrator.issuesBySeverity rep;
     agentResults := map of_result (Orchestrator.agentResults rep);
     failedAgents := map of_result (Orchestrator.failedAgents rep);
     allIssues := map of_tagged (Orchestrator.allIssues rep);
     agentsRun := Orchestrator.agentsRun (Orchestrator.metrics rep);
     totalTokens := Orchestrator.totalTokens (Orchestrator.metrics rep) |}.

(** A backend whose answers all have that shape. *)
Definition of_backend (b : BaseAgent.Backend) : Backend :=
  {| create := BaseAgent.create b;
     JSON_parse := λ text,
       match BaseAgent.JSON_parse b text with
       | Return (Some f) => Return (of_findings f)
       | Return None => Return JNull
       | Throw e => Throw e
       end |}.

(** [Completion] as a functor. *)
Definition on_return {A B} (f : A → B) (c : Completion A) : Completion B :=
  match c with
  | Return a => Return (f a)
  | Throw e => Throw e
  end.

(** *** Answers that can be walked *)

Definition is_null (v : Json) : bool :=
  match v with
  | JNull => true
  | _ => false
  end.

(** An answer whose [issues], when truthy, are an array that holds no
    [null]. *)
Definition walkable (v : Json) : bool :=
  match v with
  | JObject members =>
      match own members "issues" with
      | Some (JArray issues) => forallb (λ i, negb (is_null i)) issues
      | Some v => negb (truthy v)
      | None => true
      end
  | _ => true
  end.

(** A result [aggregateResults] gets through: a failed one, or one whose
    answer can be walked. *)
Definition passes (r : Result) : bool :=
  has_error r ||
  match findings r with
  | Some f => walkable f
  | None => true
  end.

Definition returns {A} (c : Completion A) : bool :=
  match c with
  | Return _ => true
  | Throw _ => false
  end.

(** *** Sample answers *)

(** The answer [{issues: 'none', summary: 'Looks fine', score: 90}]: a
    JSON object, as [response_format] demands, whose [issues] is a text. *)
Definition text_issues : Json :=
  JObject [("issues", JText "none"); ("summary", JText "Looks fine");
           ("score", JNumber 90)].

(** The answer [{issues: [null], score: 90}]. *)
Definition null_issue : Json :=
  JObject [("issues", JArray [JNull]); ("score", JNumber 90)].

Definition no_issues : Json :=
  JObject [("issues", JArray []); ("summary", JText "Looks fine");
           ("score", JNumber 90)].

(** A backend that answers every agent, the style agent with [odd] and
    the others with [no_issues]. *)
Definition answering (odd : Json) : Backend :=
  {| create := λ model system user,
       Return {| BaseAgent.content :=
                   if String.eqb system
                        (BaseAgent.systemPrompt BaseAgent.StyleAgent)
                   then "odd" else "plain";
                 BaseAgent.total_tokens := 120 |};
     JSON_parse := λ text,
       Return (if String.eqb text "odd" then odd else no_issues) |}.

(** A backend whose remote call raises an error with an empty message for
    the security agent and answers the others with [no_issues]. *)
Definition silent_failure : Backend :=
  {| create := λ model system user,
       if String.eqb system (BaseAgent.systemPrompt BaseAgent.SecurityAgent)
       then Throw {| message := EmptyString; stack := "Error" |}
       else Return {| BaseAgent.content := "plain";
                      BaseAgent.total_tokens := 120 |};
     JSON_parse := λ _, Return no_issues |}.

End Answers.

(** * Properties *)

(** ** The orchestrator *)

Module OrchestratorProps.
Import Js BaseAgent Orchestrator Scenarios.

Lemma elem_of_filter {A} (f : A → bool) (l : list A) (x : A) :
  x ∈ List.filter f l ↔ x ∈ l ∧ f x = true.
Proof. rewrite !list_elem_of_In. apply filter_In. Qed.

Lemma filter_lengths {A} (f : A → bool) (l : list A) :
  (length (List.filter f l) + length (List.filter (λ x, negb (f x)) l)
   = length l)%nat.
Proof.
  induction l as [|x l IH]; simpl; [done|].
  destruct (f x); simpl; lia.
Qed.

(** [analyze] always resolves: to the failure object when the remote
    call or the parsing raised, to the success object otherwise. *)
Lemma analyze_resolves b a code language :
  ∃ r, analyze b a code language = Return r ∧
    agentName r = Some (name a) ∧ specialty r = Some (agent_specialty a) ∧
    match failure b a code language with
    | Some e => error r = Some (message e) ∧ findings r = None
    | None => error r = None
    end.
Proof.
  unfold analyze, failure.
  destruct (create b _ _ _) as [resp|e]; [|eexists; eauto].
  destruct (JSON_parse b _) as [f|e]; eexists; eauto.
Qed.

Lemma Promise_all_resolved {A B} (f : A → Completion B) (g : A → B)
    (l : list A) :
  (∀ a, a ∈ l → f a = Return (g a)) →
  Promise_all (map f l) = Return (map g l).
Proof.
  induction l as [|a l IH]; intros Hf; simpl; [done|].
  rewrite (Hf a) by apply list_elem_of_here.
  rewrite IH; [done|]. intros a' Ha'. apply Hf. by apply list_elem_of_further.
Qed.

Lemma analyze_outcome b a code language :
  analyze b a code language = Return (outcome b code language a).
Proof.
  unfold outcome.
  destruct (analyze_resolves b a code language) as (r & -> & _). done.
Qed.

Lemma analyzeCode_aggregates b o code language :
  analyzeCode b o code language
  = Return (aggregateResults (map (outcome b code language) (agents o))).
Proof.
  unfold analyzeCode, analyzeCode_with.
  rewrite (Promise_all_resolved _ (outcome b code language)); [done|].
  intros a _. apply analyze_outcome.
Qed.

Lemma has_error_outcome b code language a :
  has_error (outcome b code language a) = true →
  fails b code language a = true.
Proof.
  unfold fails.
  destruct (analyze_resolves b a code language) as (r & Hr & _ & _ & Hf).
  unfold outcome. rewrite Hr.
  destruct (failure b a code language); [done|].
  unfold has_error. by rewrite Hf.
Qed.

Lemma outcome_has_error b code language a e :
  failure b a code language = Some e →
  message e ≠ EmptyString →
  has_error (outcome b code language a) = true.
Proof.
  intros Hf Hm.
  destruct (analyze_resolves b a code language) as (r & Hr & _ & _ & He).
  unfold outcome. rewrite Hr. rewrite Hf in He. destruct He as [He _].
  unfold has_error. rewrite He. simpl.
  destruct (String.eqb_spec (message e) EmptyString); [done|done].
Qed.

(** For answers of the shape the prompt asks for: every configured agent
    is run and settles with a result, and [analyzeCode] returns normally
    whatever the agents did: a run whose remote call or parsing raised is
    recorded with its error, in the failed list as soon as the message is
    not empty, and every run that did not fail is recorded among the
    successful results. *)
Lemma analyzeCode_isolates_failures (b : Backend)
    (o : AgentOrchestrator) (code language : string) :
  ∃ rep, analyzeCode b o code language = Return rep ∧
    ∀ a, a ∈ agents o →
      ∃ r, analyze b a code language = Return r ∧
        match failure b a code language with
        | Some e =>
            error r = Some (message e) ∧
            (message e ≠ EmptyString → r ∈ failedAgents rep)
        | None => error r = None ∧ r ∈ agentResults rep
        end.
Proof.
  eexists. split; [apply analyzeCode_aggregates|].
  intros a Ha. exists (outcome b code language a).
  split; [apply analyze_outcome|].
  assert (Hin : outcome b code language a
                ∈ map (outcome b code language) (agents o)).
  { apply list_elem_of_fmap. eauto. }
  destruct (analyze_resolves b a code language) as (r & Hr & _ & _ & Hf).
  assert (Hro : outcome b code language a = r).
  { unfold outcome. by rewrite Hr. }
  rewrite Hro in *. clear Hro.
  destruct (failure b a code language) as [e|] eqn:Hfail.
  - destruct Hf as [He _]. split; [done|]. intros Hm. simpl.
    apply elem_of_filter. split; [done|].
    unfold has_error. rewrite He. simpl.
    by destruct (String.eqb_spec (message e) EmptyString).
  - split; [done|]. simpl. apply elem_of_filter. split; [done|].
    unfold has_error. by rewrite Hf.
Qed.

Lemma analyzeCode_isolates_failures_witness :
  ∃ rep, analyzeCode flaky_backend new_AgentOrchestrator "x = 1" "Python"
         = Return rep ∧
    length (failedAgents rep) = 1%nat ∧ length (agentResults rep) = 3%nat.
Proof.
  destruct (analyzeCode_isolates_failures flaky_backend
              new_AgentOrchestrator "x = 1" "Python") as [rep [Hrep _]].
  exists rep. split; [exact Hrep|].
  vm_compute in Hrep. injection Hrep as <-. split; reflexivity.
Defined.

(** *** Counting the outcomes *)

Lemma filter_map_length {A B} (f : B → bool) (g : A → B) (h : A → bool)
    (l : list A) :
  (∀ a, a ∈ l → f (g a) = h a) →
  length (List.filter f (map g l)) = length (List.filter h l).
Proof.
  induction l as [|a l IH]; intros Hl; simpl; [done|].
  rewrite (Hl a) by apply list_elem_of_here.
  assert (IH' : length (List.filter f (map g l)) = length (List.filter h l)).
  { apply IH. intros a' Ha'. apply Hl. by apply list_elem_of_further. }
  destruct (h a); simpl; by rewrite IH'.
Qed.

Lemma filter_idem {A} (f : A → bool) (l : list A) :
  List.filter f (List.filter f l) = List.filter f l.
Proof.
  induction l as [|a l IH]; simpl; [done|].
  destruct (f a) eqn:Hfa; simpl; [|done]. by rewrite Hfa, IH.
Qed.

(** The score only reads the successful results. *)
Lemma overallScore_of_successful (rs : list AgentResult) :
  overallScore (aggregateResults rs)
  = overallScore (aggregateResults (agentResults (aggregateResults rs))).
Proof. simpl. by rewrite filter_idem. Qed.

(** C2, as stated: with [K = 4] outcomes of which [M = 1] failed, the
    failed list does not have [K - M = 3] elements. *)
Lemma failed_list_length_counterexample :
  let K := length one_failed in
  let M := length (List.filter has_error one_failed) in
  (M < K)%nat ∧
  length (failedAgents (aggregateResults one_failed)) ≠ (K - M)%nat.
Proof. vm_compute. split; [lia|discriminate]. Qed.

(** C2, amended.  With [K] configured agents of which [M] fail on a file
    (each with a non-empty error message), the report records [K]
    outcomes in all: [M] in the failed list and [K - M] in the successful
    one; and its score is the one obtained from the successful outcomes
    alone. *)
Theorem report_accounts_for_every_agent (b : Backend)
    (o : AgentOrchestrator) (code language : string) :
  (∀ a e, a ∈ agents o → failure b a code language = Some e →
          message e ≠ EmptyString) →
  let K := length (agents o) in
  let M := length (List.filter (fails b code language) (agents o)) in
  ∃ rep, analyzeCode b o code language = Return rep ∧
    (length (agentResults rep) + length (failedAgents rep) = K)%nat ∧
    length (failedAgents rep) = M ∧
    length (agentResults rep) = (K - M)%nat ∧
    overallScore rep = overallScore (aggregateResults (agentResults rep)).
Proof.
  intros Hmsg K M. eexists. split; [apply analyzeCode_aggregates|].
  set (rs := map (outcome b code language) (agents o)).
  assert (HM : length (List.filter has_error rs) = M).
  { apply filter_map_length. intros a Ha. unfold fails.
    destruct (failure b a code language) as [e|] eqn:Hf.
    - eapply outcome_has_error; eauto.
    - destruct (has_error (outcome b code language a)) eqn:He; [|done].
      apply has_error_outcome in He. unfold fails in He. by rewrite Hf in He. }
  assert (HK : length rs = K) by apply length_map.
  pose proof (filter_lengths has_error rs) as Hsum.
  simpl. repeat split; [lia|lia|lia|apply overallScore_of_successful].
Qed.

Lemma report_accounts_for_every_agent_witness :
  ∃ rep, analyzeCode flaky_backend new_AgentOrchestrator "x = 1" "Python"
         = Return rep ∧
    (length (agentResults rep) + length (failedAgents rep) = 4)%nat ∧
    length (failedAgents rep) = 1%nat ∧
    length (agentResults rep) = 3%nat.
Proof.
  destruct (report_accounts_for_every_agent flaky_backend
              new_AgentOrchestrator "x = 1" "Python")
    as (rep & Hrep & H1 & H2 & H3 & _).
  - intros a e Ha Hf. vm_compute in Ha.
    repeat (apply elem_of_cons in Ha as [->|Ha];
            [vm_compute in Hf; try discriminate;
             injection Hf as <-; simpl; discriminate|]).
    by apply elem_of_nil in Ha.
  - exists rep. split; [exact Hrep|]. split; [exact H1|].
    split; [exact H2|exact H3].
Defined.

(** *** The score *)

(** C3, at the failing input: of two successful outcomes scoring 0 and
    100 the report's score is 100, where the mean of the two is 50. *)
Theorem aggregateResults_drops_zero_score :
  successful_scores zero_and_hundred = [0; 100] ∧
  mean_score (successful_scores zero_and_hundred) = 50 ∧
  overallScore (aggregateResults zero_and_hundred) = 100.
Proof. vm_compute. done. Qed.

(** Where no successful outcome scores 0, the score is the rounded mean
    of the successful scores. *)
Lemma overallScore_mean (rs : list AgentResult) :
  0 ∉ successful_scores rs →
  overallScore (aggregateResults rs) = mean_score (successful_scores rs).
Proof.
  intros Hnz. simpl. f_equal. unfold successful_scores in *.
  induction (List.filter (λ r, negb (has_error r)) rs) as [|r l IH];
    [done|].
  cbn [List.filter omap list_omap] in *.
  unfold has_score.
  destruct (findings r) as [f|] eqn:Hf; [|by apply IH].
  destruct (score f) as [z|] eqn:Hs; [|by apply IH].
  cbn [truthy_num]. destruct (Z.eqb_spec z 0) as [->|Hz]; cbn [negb].
  - exfalso. apply Hnz. apply list_elem_of_here.
  - cbn [map]. unfold score_of at 1. rewrite Hf, Hs. cbn [default].
    f_equal. apply IH. intros H0. apply Hnz. by apply list_elem_of_further.
Qed.

(** In general the score is the rounded mean of the successful scores
    other than 0. *)
Lemma overallScore_nonzero_mean (rs : list AgentResult) :
  overallScore (aggregateResults rs)
  = mean_score (List.filter (λ s, negb (s =? 0)) (successful_scores rs)).
Proof.
  simpl. f_equal. unfold successful_scores.
  induction (List.filter (λ r, negb (has_error r)) rs) as [|r l IH];
    [done|].
  cbn [List.filter omap list_omap]. unfold has_score.
  destruct (findings r) as [f|] eqn:Hf; [|exact IH].
  destruct (score f) as [z|] eqn:Hs; [|exact IH].
  cbn [truthy_num List.filter].
  destruct (negb (z =? 0)); [|exact IH].
  cbn [map]. unfold score_of at 1. rewrite Hf, Hs. cbn [default]. by f_equal.
Qed.

(** With no successful outcome the score is 0. *)
Lemma overallScore_no_success (rs : list AgentResult) :
  List.filter (λ r, negb (has_error r)) rs = [] →
  overallScore (aggregateResults rs) = 0.
Proof. intros H. simpl. by rewrite H. Qed.

(** The join itself does not isolate: a run that raised would make
    [analyzeCode] raise.  The isolation of C1 rests on [analyze]. *)
Lemma analyzeCode_with_rethrows o invoke a :
  a ∈ agents o → (∃ e, invoke a = Throw e) →
  ∃ e, analyzeCode_with o invoke = Throw e.
Proof.
  intros Ha [e He]. unfold analyzeCode_with.
  induction (agents o) as [|a' l IH]; [by apply elem_of_nil in Ha|].
  simpl. apply elem_of_cons in Ha as [<-|Ha].
  - rewrite He. by eexists.
  - destruct (invoke a') as [r|e']; [|by eexists].
    destruct (IH Ha) as [e'' He'']. destruct (Promise_all (map invoke l));
      [discriminate|]. by eexists.
Qed.

(** What [analyzeCode] returns carries [success: true]. *)
Lemma analyzeCode_with_success o invoke rep :
  analyzeCode_with o invoke = Return rep → success rep = true.
Proof.
  unfold analyzeCode_with.
  destruct (Promise_all _); [|discriminate].
  by intros [= <-].
Qed.

(** *** The severity tally *)












End OrchestratorProps.

(** ** The queue *)

Module QueueProps.
Import ReviewQueue.

Lemma find_none_entries (i : string) (q : Queue) :
  List.find (has_id i) q = None → entries_for i q = [].
Proof.
  unfold entries_for. induction q as [|j q IH]; simpl; [done|].
  destruct (has_id i j); [discriminate|]. exact IH.
Qed.

Lemma entries_for_app (i : string) (q q' : Queue) :
  entries_for i (q ++ q') = entries_for i q ++ entries_for i q'.
Proof. unfold entries_for. apply List.filter_app. Qed.

Lemma has_id_same (i : string) (j j' : QueueJob) :
  id j = id j' → has_id i j = has_id i j'.
Proof. unfold has_id. by intros ->. Qed.

Lemma replace_id_entries_length (i : string) (j : QueueJob) (q : Queue) :
  length (entries_for i (replace_id j q)) = length (entries_for i q).
Proof.
  unfold entries_for. induction q as [|j' q IH]; simpl; [done|].
  destruct (has_id (id j) j') eqn:Hj; simpl.
  - apply String.eqb_eq in Hj.
    rewrite (has_id_same i j j') by done. by destruct (has_id i j').
  - destruct (has_id i j'); simpl; by rewrite IH.
Qed.

Lemma replace_id_length (j : QueueJob) (q : Queue) :
  length (replace_id j q) = length q.
Proof.
  induction q as [|j' q IH]; simpl; [done|].
  destruct (has_id (id j) j'); simpl; by rewrite ?IH.
Qed.

Lemma find_some_entries (i : string) (q : Queue) (j : QueueJob) :
  List.find (has_id i) q = Some j → (1 ≤ length (entries_for i q))%nat.
Proof.
  unfold entries_for. induction q as [|j' q IH]; simpl; [done|].
  destruct (has_id i j'); simpl; [lia|]. exact IH.
Qed.

(** One [add] under an id the queue holds at most once leaves exactly one
    entry under that id. *)
Lemma add_one_entry (policy : OnDuplicate) (q : Queue) (name : string)
    (d : JobData) (o : JobOpts) :
  (length (entries_for (o_jobId o) q) ≤ 1)%nat →
  length (entries_for (o_jobId o) (add policy q name d o).1) = 1%nat.
Proof.
  intros Hq. unfold add.
  destruct (List.find (has_id (o_jobId o)) q) as [j'|] eqn:Hfind.
  - apply find_some_entries in Hfind.
    destruct policy; simpl; [lia|].
    rewrite replace_id_entries_length. lia.
  - apply find_none_entries in Hfind. simpl.
    rewrite entries_for_app, Hfind. simpl.
    unfold has_id. simpl. by rewrite String.eqb_refl.
Qed.

(** An [add] under an id the queue already holds adds no entry. *)
Lemma add_held (policy : OnDuplicate) (q : Queue) (name : string)
    (d : JobData) (o : JobOpts) :
  (1 ≤ length (entries_for (o_jobId o) q))%nat →
  length (add policy q name d o).1 = length q.
Proof.
  intros Hq. unfold add.
  destruct (List.find (has_id (o_jobId o)) q) as [j'|] eqn:Hfind.
  - destruct policy; simpl; [done|]. apply replace_id_length.
  - apply find_none_entries in Hfind. rewrite Hfind in Hq. simpl in Hq. lia.
Qed.

Lemma job_options_id (jobId : string) (options : Options) :
  opt_jobId options = None → o_jobId (job_options jobId options) = jobId.
Proof. unfold job_options. simpl. by intros ->. Qed.

Lemma entries_nil_length (i : string) (q : Queue) :
  length (entries_for i q) = 0%nat → entries_for i q = [].
Proof. by destruct (entries_for i q). Qed.

Lemma replace_id_entries (j : QueueJob) (q : Queue) :
  length (entries_for (id j) q) = 1%nat →
  entries_for (id j) (replace_id j q) = [j].
Proof.
  unfold entries_for. induction q as [|j' q IH]; simpl; [done|].
  destruct (has_id (id j) j') eqn:Hj; simpl.
  - intros Hlen. unfold has_id at 1. rewrite String.eqb_refl. f_equal.
    apply entries_nil_length. unfold entries_for. lia.
  - rewrite Hj. exact IH.
Qed.

(** C7.  Queueing the same [jobId] twice, with options that do not carry
    an id of their own, leaves exactly one entry under that id: the second
    call finds the first call's entry and adds none; a queue that updates
    the entry it holds then holds the second call's job. *)
Theorem enqueue_idempotent_on_jobId (policy : OnDuplicate) (q : Queue)
    (jobId repoId repoId' : string) (options options' : Options)
    (now now' : nat) :
  opt_jobId options = None →
  opt_jobId options' = None →
  (length (entries_for jobId q) ≤ 1)%nat →
  let q1 := (queueReviewJob policy now q jobId repoId options).1 in
  let second := queueReviewJob policy now' q1 jobId repoId' options' in
  length (entries_for jobId q1) = 1%nat ∧
  length (entries_for jobId second.1) = 1%nat ∧
  length second.1 = length q1 ∧
  (policy = UpdateExisting → entries_for jobId second.1 = [second.2]).
Proof.
  intros Ho Ho' Hq q1 second. subst q1 second. unfold queueReviewJob.
  pose proof (job_options_id jobId options Ho) as Hid.
  pose proof (job_options_id jobId options' Ho') as Hid'.
  set (q1 := (add policy q "code-review"
               {| jobId := jobId; repoId := repoId; queuedAt := now |}
               (job_options jobId options)).1).
  assert (H1 : length (entries_for jobId q1) = 1%nat).
  { subst q1. rewrite <- Hid at 1. apply add_one_entry. by rewrite Hid. }
  split; [exact H1|]. split; [|split].
  - rewrite <- Hid' at 1. apply add_one_entry. rewrite Hid'. lia.
  - apply add_held. rewrite Hid'. lia.
  - intros ->. unfold add.
    destruct (List.find (has_id (o_jobId (job_options jobId options'))) q1)
      as [j'|] eqn:Hfind.
    + cbn [fst snd].
      set (j := {| id := o_jobId (job_options jobId options');
                   job_name := "code-review";
                   data := {| jobId := jobId; repoId := repoId';
                              queuedAt := now' |};
                   opts := job_options jobId options' |}).
      assert (Hj : id j = jobId) by exact Hid'.
      rewrite <- Hj at 1. apply replace_id_entries. by rewrite Hj.
    + apply find_none_entries in Hfind. rewrite Hid' in Hfind.
      rewrite Hfind in H1. discriminate.
Qed.

Lemma enqueue_idempotent_on_jobId_witness :
  let q1 :=
    (queueReviewJob UpdateExisting 1 [] "job-1" "repo-1" no_options).1 in
  let second := queueReviewJob UpdateExisting 2 q1 "job-1" "repo-1" no_options in
  length (entries_for "job-1" q1) = 1%nat ∧
  length (entries_for "job-1" second.1) = 1%nat ∧
  length second.1 = length q1 ∧
  (UpdateExisting = UpdateExisting →
   entries_for "job-1" second.1 = [second.2]).
Proof.
  apply (enqueue_idempotent_on_jobId UpdateExisting [] "job-1" "repo-1"
           "repo-1" no_options no_options 1 2);
    [reflexivity|reflexivity|simpl; lia].
Defined.

End QueueProps.

(** ** Double-precision progress *)

Module DoubleProps.
Import Double.

Lemma rne_spec (a b : Z) :
  0 < b →
  2 * a - b ≤ 2 * rne a b * b ≤ 2 * a + b ∧
  (2 * rne a b * b = 2 * a + b → Z.even (rne a b) = true) ∧
  (2 * rne a b * b = 2 * a - b → Z.even (rne a b) = true).
Proof.
  intros Hb. unfold rne.
  pose proof (Z.div_mod a b ltac:(lia)) as Hdm.
  pose proof (Z.mod_pos_bound a b Hb) as Hr.
  set (q := a / b) in *. set (r := a mod b) in *.
  destruct (Z.ltb_spec (2 * r) b) as [H1|H1].
  { split; [nia|]. split; intros; nia. }
  destruct (Z.ltb_spec b (2 * r)) as [H2|H2].
  { split; [nia|]. split; intros; nia. }
  assert (Ht : 2 * r = b) by lia.
  destruct (Z.even q) eqn:Hq.
  - split; [nia|]. split; intros; [nia|done].
  - split; [nia|]. split; intros.
    + rewrite Z.even_add, Hq. done.
    + nia.
Qed.

Lemma rne_mono (a b c d : Z) :
  0 < b → 0 < d → a * d ≤ c * b → rne a b ≤ rne c d.
Proof.
  intros Hb Hd Hle.
  destruct (rne_spec a b Hb) as ([_ Hu] & He1 & _).
  destruct (rne_spec c d Hd) as ([Hl _] & _ & He2).
  set (m1 := rne a b) in *. set (m2 := rne c d) in *.
  destruct (Z.le_gt_cases m1 m2) as [|Hgt]; [done|exfalso].
  assert (H1 : (2 * m1 - 1) * (b * d) ≤ 2 * a * d) by nia.
  assert (H2 : 2 * c * b ≤ (2 * m2 + 1) * (b * d)) by nia.
  assert (Hbd : 0 < b * d) by nia.
  assert (H3 : (2 * m1 - 1) * (b * d) ≤ (2 * m2 + 1) * (b * d)) by nia.
  assert (Hm : m1 = m2 + 1) by nia.
  assert (E1 : 2 * m1 * b = 2 * a + b) by nia.
  assert (E2 : 2 * m2 * d = 2 * c - d) by nia.
  specialize (He1 E1). specialize (He2 E2).
  rewrite Hm, Z.even_add, He2 in He1. done.
Qed.

Lemma rne_exact (m b : Z) : 0 < b → rne (m * b) b = m.
Proof.
  intros Hb. unfold rne. rewrite Z.div_mul, Z.mod_mul by lia.
  destruct (Z.ltb_spec (2 * 0) b); [done|lia].
Qed.

Lemma exponent_spec (a b : Z) :
  0 < a → 0 < b → a < 2 ^ 53 * b →
  0 ≤ exponent a b ∧
  2 ^ 52 * b ≤ a * 2 ^ exponent a b < 2 ^ 53 * b.
Proof.
  intros Ha Hb Hab. unfold exponent, ceil_div.
  set (N := (2 ^ 53 * b + a - 1) / a).
  assert (HN : 1 < N).
  { assert (2 ≤ N); [|lia]. subst N. apply Z.div_le_lower_bound; lia. }
  pose proof (Z.log2_up_spec N HN) as [Hlo Hhi].
  pose proof (Z.log2_up_pos N HN) as Hpos.
  replace (Z.pred (Z.log2_up N)) with (Z.log2_up N - 1) in Hlo by lia.
  set (e := Z.log2_up N - 1) in *.
  assert (He : 0 ≤ e) by lia.
  replace (Z.log2_up N) with (e + 1) in Hhi by lia.
  rewrite Z.pow_add_r in Hhi by lia. change (2 ^ 1) with 2 in Hhi.
  assert (Hpe : 0 < 2 ^ e) by (apply Z.pow_pos_nonneg; lia).
  split; [done|].
  pose proof (Z.div_mod (2 ^ 53 * b + a - 1) a ltac:(lia)) as Hdm.
  pose proof (Z.mod_pos_bound (2 ^ 53 * b + a - 1) a Ha) as Hr.
  fold N in Hdm.
  split; nia.
Qed.

Lemma round_spec (a b : Z) :
  0 < a → 0 < b → a < 2 ^ 53 * b →
  0 ≤ shift (round a b) ∧ 2 ^ 52 ≤ mant (round a b) ≤ 2 ^ 53.
Proof.
  intros Ha Hb Hab. destruct (exponent_spec a b Ha Hb Hab) as (He & Hlo & Hhi).
  unfold round. cbn [mant shift]. split; [done|]. split.
  - etrans; [|apply (rne_mono (2 ^ 52 * 1) 1); lia].
    rewrite rne_exact; lia.
  - etrans; [apply (rne_mono _ _ (2 ^ 53 * 1) 1); lia|].
    rewrite rne_exact; lia.
Qed.

Lemma round_mono (a b c d : Z) :
  0 < a → 0 < b → a < 2 ^ 53 * b →
  0 < c → 0 < d → c < 2 ^ 53 * d →
  a * d ≤ c * b →
  le_val (round a b) (round c d).
Proof.
  intros Ha Hb Hab Hc Hd Hcd Hle.
  destruct (round_spec a b Ha Hb Hab) as (_ & _ & Hm1).
  destruct (round_spec c d Hc Hd Hcd) as (_ & Hm2 & _).
  destruct (exponent_spec a b Ha Hb Hab) as (He1 & Hlo1 & Hhi1).
  destruct (exponent_spec c d Hc Hd Hcd) as (He2 & Hlo2 & Hhi2).
  unfold le_val, round in *. cbn [mant shift] in *.
  set (e1 := exponent a b) in *. set (e2 := exponent c d) in *.
  set (m1 := rne (a * 2 ^ e1) b) in *. set (m2 := rne (c * 2 ^ e2) d) in *.
  assert (Hp1 : 0 < 2 ^ e1) by (apply Z.pow_pos_nonneg; lia).
  assert (Hp2 : 0 < 2 ^ e2) by (apply Z.pow_pos_nonneg; lia).
  destruct (Z.lt_trichotomy e1 e2) as [Hlt|[Heq|Hgt]].
  - exfalso.
    assert (Hk : 2 ^ e2 = 2 ^ e1 * 2 ^ (e2 - e1)).
    { rewrite <- Z.pow_add_r by lia. f_equal. lia. }
    assert (Hk2 : 2 ≤ 2 ^ (e2 - e1)).
    { change 2 with (2 ^ 1) at 1. apply Z.pow_le_mono_r; lia. }
    set (k := 2 ^ (e2 - e1)) in *.
    assert (H1 : 2 ^ 53 * b ≤ a * 2 ^ e2) by (rewrite Hk; nia).
    assert (H2 : a * 2 ^ e2 * d ≤ c * 2 ^ e2 * b) by nia.
    assert (H3 : c * 2 ^ e2 * b < 2 ^ 53 * d * b) by nia.
    nia.
  - subst m1 m2. rewrite <- Heq in *.
    apply Z.mul_le_mono_nonneg_r; [lia|].
    apply rne_mono; [done|done|]. nia.
  - assert (Hk : 2 ^ e1 = 2 ^ e2 * 2 ^ (e1 - e2)).
    { rewrite <- Z.pow_add_r by lia. f_equal. lia. }
    assert (Hk2 : 2 ≤ 2 ^ (e1 - e2)).
    { change 2 with (2 ^ 1) at 1. apply Z.pow_le_mono_r; lia. }
    set (k := 2 ^ (e1 - e2)) in *.
    rewrite Hk.
    assert (m1 * 2 ^ e2 ≤ 2 ^ 53 * 2 ^ e2) by nia.
    assert (2 ^ 53 * 2 ^ e2 ≤ 2 ^ 52 * (2 ^ e2 * k)) by (change (2 ^ 53) with (2 ^ 52 * 2); nia).
    assert (2 ^ 52 * (2 ^ e2 * k) ≤ m2 * (2 ^ e2 * k)) by nia.
    lia.
Qed.

Lemma div_spec (p n : Z) :
  0 < p ≤ n →
  0 ≤ shift (div p n) ∧ 2 ^ 52 ≤ mant (div p n) ≤ 2 ^ shift (div p n).
Proof.
  intros Hpn. unfold div.
  assert (Hr : p < 2 ^ 53 * n) by lia.
  destruct (round_spec p n ltac:(lia) ltac:(lia) Hr) as (He & Hlo & _).
  split; [done|]. split; [done|].
  unfold round in *. cbn [mant shift] in *.
  set (e := exponent p n) in *.
  assert (Hp : 0 < 2 ^ e) by (apply Z.pow_pos_nonneg; lia).
  etrans; [apply (rne_mono _ _ (2 ^ e * 1) 1); nia|].
  rewrite rne_exact; lia.
Qed.

Lemma floor_mono (x y : double) :
  0 ≤ shift x → 0 ≤ shift y → le_val x y → floor x ≤ floor y.
Proof.
  unfold le_val, floor. intros Hx Hy Hle.
  assert (Hp1 : 0 < 2 ^ shift x) by (apply Z.pow_pos_nonneg; lia).
  assert (Hp2 : 0 < 2 ^ shift y) by (apply Z.pow_pos_nonneg; lia).
  apply Z.div_le_lower_bound; [done|].
  pose proof (Z.mul_div_le (mant x) (2 ^ shift x) Hp1) as Hq.
  set (q := mant x / 2 ^ shift x) in *.
  nia.
Qed.

Lemma ratio50_mono (p q n : Z) :
  0 < p → p ≤ q → q ≤ n → ratio50 p n ≤ ratio50 q n.
Proof.
  intros Hp Hpq Hqn. unfold ratio50.
  destruct (div_spec p n ltac:(lia)) as (He1 & Hlo1 & Hhi1).
  destruct (div_spec q n ltac:(lia)) as (He2 & Hlo2 & Hhi2).
  assert (Hle : le_val (div p n) (div q n)).
  { unfold div. apply round_mono; try lia. nia. }
  unfold le_val in Hle. unfold mul_int.
  set (x := div p n) in *. set (y := div q n) in *.
  assert (Hp1 : 0 < 2 ^ shift x) by (apply Z.pow_pos_nonneg; lia).
  assert (Hp2 : 0 < 2 ^ shift y) by (apply Z.pow_pos_nonneg; lia).
  assert (Hr1 : mant x * 50 < 2 ^ 53 * 2 ^ shift x).
  { change (2 ^ 53) with 9007199254740992. lia. }
  assert (Hr2 : mant y * 50 < 2 ^ 53 * 2 ^ shift y).
  { change (2 ^ 53) with 9007199254740992. lia. }
  apply floor_mono.
  - apply round_spec; lia.
  - apply round_spec; lia.
  - apply round_mono; lia.
Qed.

Lemma ratio50_full (n : Z) : 0 < n → ratio50 n n = 50.
Proof.
  intros Hn. unfold ratio50, div.
  assert (Hd : round n n = {| mant := 2 ^ 52; shift := 52 |}).
  { unfold round, exponent, ceil_div.
    assert (HN : (2 ^ 53 * n + n - 1) / n = 2 ^ 53).
    { symmetry. apply (Z.div_unique_pos _ _ _ (n - 1)); lia. }
    rewrite HN. change (Z.log2_up (2 ^ 53) - 1) with 52.
    f_equal. rewrite (Z.mul_comm n). apply rne_exact. lia. }
  rewrite Hd. vm_compute. done.
Qed.

Lemma ratio50_nonneg (p n : Z) : 0 < p ≤ n → 0 ≤ ratio50 p n.
Proof.
  intros Hpn. unfold ratio50, mul_int.
  destruct (div_spec p n Hpn) as (He & Hlo & Hhi).
  set (x := div p n) in *.
  assert (Hp1 : 0 < 2 ^ shift x) by (apply Z.pow_pos_nonneg; lia).
  destruct (round_spec (mant x * 50) (2 ^ shift x)) as (He' & Hlo' & _);
    [lia|lia|change (2 ^ 53) with 9007199254740992; lia|].
  unfold floor. apply Z.div_pos; [lia|]. apply Z.pow_pos_nonneg; lia.
Qed.

Lemma ratio50_bounds (p n : Z) : 0 < p ≤ n → 0 ≤ ratio50 p n ≤ 50.
Proof.
  intros Hpn. split; [by apply ratio50_nonneg|].
  rewrite <- (ratio50_full n) by lia. apply ratio50_mono; lia.
Qed.

End DoubleProps.

(** ** The worker *)

Module WorkerProps.
Import Js Double Worker Accounting Hoare.
Import DoubleProps.

(** *** Rules of the program logic *)

Lemma hoare_ret {A} (P : World → Prop) (a : A) Q E :
  (∀ w, P w → Q a w) → hoare P (ret a) Q E.
Proof. intros H w Hw. by apply H. Qed.

Lemma hoare_throw {A} (P : World → Prop) (e : Error) (Q : A → World → Prop) E :
  (∀ w, P w → E e w) → hoare P (throw e) Q E.
Proof. intros H w Hw. by apply H. Qed.

Lemma hoare_bind {A B} (P : World → Prop) (m : M A) (k : A → M B) R Q E :
  hoare P m R E → (∀ a, hoare (R a) (k a) Q E) → hoare P (bind m k) Q E.
Proof.
  intros Hm Hk w Hw. unfold bind. specialize (Hm w Hw).
  destruct (m w) as [[a|e] w']; [|done]. by apply Hk.
Qed.

Lemma hoare_conseq {A} (P P' : World → Prop) (m : M A)
    (Q Q' : A → World → Prop) (E E' : Error → World → Prop) :
  hoare P' m Q' E' →
  (∀ w, P w → P' w) → (∀ a w, Q' a w → Q a w) → (∀ e w, E' e w → E e w) →
  hoare P m Q E.
Proof.
  intros Hm HP HQ HE w Hw. specialize (Hm w (HP w Hw)).
  destruct (m w) as [[a|e] w']; eauto.
Qed.

Lemma hoare_try {A} (P : World → Prop) (body : M A) handler fin
    (Q Q' : A → World → Prop) (E E' E'' : Error → World → Prop) :
  hoare P body Q' E' →
  (∀ e, hoare (E' e) (handler e) Q' E'') →
  (∀ a, hoare (Q' a) fin (λ _, Q a) E) →
  (∀ e, hoare (E'' e) fin (λ _, E e) E) →
  hoare P (try_catch_finally body handler fin) Q E.
Proof.
  intros Hb Hh Hf1 Hf2 w Hw. unfold try_catch_finally.
  specialize (Hb w Hw). destruct (body w) as [[a|e] w1].
  - specialize (Hf1 a w1 Hb). by destruct (fin w1) as [[[]|e'] w2].
  - specialize (Hh e w1 Hb). destruct (handler e w1) as [[a|e'] w2].
    + specialize (Hf1 a w2 Hh). by destruct (fin w2) as [[[]|e''] w3].
    + specialize (Hf2 e' w2 Hh). by destruct (fin w2) as [[[]|e''] w3].
Qed.

Lemma hoare_foldM {A B} (I : B → World → Prop) (f : B → A → M B)
    (l : list A) (b : B) E :
  (∀ b a, a ∈ l → hoare (I b) (f b a) I E) →
  hoare (I b) (foldM f l b) I E.
Proof.
  revert b. induction l as [|a l IH]; intros b Hf; simpl.
  - by apply hoare_ret.
  - eapply hoare_bind.
    + apply Hf. apply list_elem_of_here.
    + intros b'. apply IH. intros b'' a' Ha'. apply Hf.
      by apply list_elem_of_further.
Qed.

(** *** Reading traces *)

Lemma nondecreasing_snoc (l : list Z) (x : Z) :
  nondecreasing l → Forall (λ y, y ≤ x) l → nondecreasing (l ++ [x]).
Proof.
  unfold nondecreasing. induction 1 as [|y l Hl IH Hy]; intros Hle; simpl.
  - repeat constructor.
  - apply Forall_cons in Hle as [Hyx Hle]. constructor; [by apply IH|].
    apply Forall_app. split; [done|]. by constructor.
Qed.

Lemma progress_values_snoc (t : list Event) (ev : Event) :
  progress_values (t ++ [ev])
  = progress_values t ++ match ev with EvProgress p => [p] | _ => [] end.
Proof.
  unfold progress_values. rewrite omap_app. f_equal. by destruct ev.
Qed.

Lemma observed_rows_nonempty (r : JobRow) (t : list Event) :
  ∃ r', last (observed_rows r t) = Some r'.
Proof.
  revert r. induction t as [|ev t IH]; intros r; simpl; [by eexists|].
  destruct ev as [| u [] | | | | | | | | |]; try apply IH.
  destruct (IH (apply_update u r)) as [r' Hr'].
  exists r'. rewrite last_cons, Hr'. done.
Qed.

Lemma observed_rows_silent (r : JobRow) (t : list Event) (ev : Event) :
  silent ev = true → observed_rows r (t ++ [ev]) = observed_rows r t.
Proof.
  intros Hs. revert r. induction t as [|ev' t IH]; intros r; simpl.
  - by destruct ev as [| u [] | | | | | | | | |].
  - destruct ev' as [| u [] | | | | | | | | |]; by rewrite ?IH.
Qed.

Lemma observed_rows_progress (r : JobRow) (t : list Event) (p : Z) :
  observed_rows r (t ++ [EvProgress p]) = observed_rows r t.
Proof.
  revert r. induction t as [|ev' t IH]; intros r; simpl; [done|].
  destruct ev' as [| u [] | | | | | | | | |]; by rewrite ?IH.
Qed.

Lemma observed_rows_update (r r' : JobRow) (t : list Event) (u : JobUpdate) :
  last (observed_rows r t) = Some r' →
  observed_rows r (t ++ [EvJobUpdate u true])
  = observed_rows r t ++ [apply_update u r'].
Proof.
  revert r. induction t as [|ev' t IH]; intros r; simpl.
  - by intros [= ->].
  - destruct ev' as [| u' [] | | | | | | | | |]; try apply IH.
    intros Hl. rewrite IH; [done|].
    destruct (observed_rows_nonempty (apply_update u' r) t) as [r'' Hr''].
    rewrite last_cons, Hr'' in Hl. by rewrite Hr'', Hl.
Qed.

Lemma inv_weaken j b c b' c' t r :
  b ≤ b' → c ≤ c' → inv j b c t r → inv j b' c' t r.
Proof.
  intros Hb Hc [H1 H2 H3 H4 H5 H6]. split; try done.
  - eapply Forall_impl; [exact H4|]. simpl. intros. lia.
  - intros H40. specialize (H6 H40). lia.
Qed.

Lemma inv_silent j b c t r ev :
  silent ev = true → inv j b c t r → inv j b c (t ++ [ev]) r.
Proof.
  intros Hs [H1 H2 H3 H4 H5 H6].
  assert (Hp : progress_values (t ++ [ev]) = progress_values t).
  { rewrite progress_values_snoc.
    destruct ev as [| u [] | | | | | | | | |]; try done; by rewrite app_nil_r. }
  split; rewrite ?observed_rows_silent, ?Hp; done.
Qed.

Lemma inv_progress j b c t r p :
  b ≤ p → inv j b c t r → inv j p c (t ++ [EvProgress p]) r.
Proof.
  intros Hp [H1 H2 H3 H4 H5 H6].
  split; rewrite ?observed_rows_progress, ?progress_values_snoc; try done.
  - apply nondecreasing_snoc; [done|].
    eapply Forall_impl; [exact H4|]. simpl. intros. lia.
  - apply Forall_app. split.
    + eapply Forall_impl; [exact H4|]. simpl. intros. lia.
    + by constructor.
Qed.

Lemma last_column (l : list JobRow) (r : JobRow) :
  last l = Some r →
  nondecreasing (map progress l) →
  Forall (λ y, y ≤ progress r) (map progress l).
Proof.
  unfold nondecreasing. induction l as [|x l IH]; [done|].
  intros Hl Hs. simpl in Hs. apply StronglySorted_inv in Hs as [Hs Hx].
  destruct l as [|y l].
  - injection Hl as ->. by repeat constructor.
  - rewrite last_cons_cons in Hl. specialize (IH Hl Hs).
    constructor; [|done].
    apply Forall_cons in IH as [Hy _]. apply Forall_cons in Hx as [Hxy _]. lia.
Qed.

Lemma inv_row_units j b c t r : inv j b c t r → units_ok r.
Proof.
  intros [H1 H2 _ _ _ _]. rewrite Forall_forall in H2. apply H2.
  rewrite last_Some in H1. destruct H1 as [l' ->]. set_solver.
Qed.

Lemma inv_update j b c c' t r u :
  units_ok (apply_update u r) →
  (progress r ≤ c →
   progress r ≤ progress (apply_update u r) ≤ c') →
  inv j b c t r →
  inv j b c' (t ++ [EvJobUpdate u true]) (apply_update u r).
Proof.
  intros Hu Hp [H1 H2 H3 H4 H5 H6].
  assert (Hpv : progress_values (t ++ [EvJobUpdate u true]) = progress_values t).
  { rewrite progress_values_snoc. by rewrite app_nil_r. }
  split; rewrite ?(observed_rows_update _ _ _ _ H1), ?Hpv; try done.
  - by rewrite last_snoc.
  - apply Forall_app. split; [done|]. by constructor.
  - intros H40. specialize (H5 H40). specialize (Hp (H6 H40)).
    rewrite map_app. apply nondecreasing_snoc; [done|].
    eapply Forall_impl; [by apply last_column|]. cbv beta. intros. lia.
  - intros H40. specialize (Hp (H6 H40)). lia.
Qed.

(** *** Operations that leave the row and the progress alone *)

Lemma quiet_ret {A} (a : A) : quiet (ret a).
Proof. intros w. split; [done|]. exists []. by rewrite app_nil_r. Qed.

Lemma quiet_throw {A} (e : Error) : quiet (@throw A e).
Proof. intros w. split; [done|]. exists []. by rewrite app_nil_r. Qed.

Lemma quiet_bind {A B} (m : M A) (k : A → M B) :
  quiet m → (∀ a, quiet (k a)) → quiet (bind m k).
Proof.
  intros Hm Hk w. unfold bind. destruct (Hm w) as [Hr (Δ & Ht & Hs)].
  destruct (m w) as [[a|e] w1]; simpl in *; [|eauto].
  destruct (Hk a w1) as [Hr' (Δ' & Ht' & Hs')].
  split; [congruence|]. exists (Δ ++ Δ'). split.
  - by rewrite Ht', Ht, app_assoc.
  - by apply Forall_app.
Qed.

Lemma quiet_emit (ev : Event) : silent ev = true → quiet (emit ev).
Proof. intros Hs w. split; [done|]. exists [ev]. split; [done|]. by constructor. Qed.

Lemma quiet_same {A} (m : M A) :
  (∀ w, job_row (m w).2 = job_row w ∧ trace (m w).2 = trace w) → quiet m.
Proof.
  intros H w. destruct (H w) as [H1 H2]. split; [done|].
  exists []. by rewrite app_nil_r.
Qed.

Lemma quiet_logger lvl msg : quiet (logger lvl msg).
Proof. by apply quiet_same. Qed.

Lemma quiet_now : quiet now.
Proof. by apply quiet_same. Qed.

Lemma quiet_set_cleanup dir : quiet (set_cleanup dir).
Proof. by apply quiet_same. Qed.

Lemma quiet_foldM {A B} (f : B → A → M B) (l : list A) (b : B) :
  (∀ b a, quiet (f b a)) → quiet (foldM f l b).
Proof.
  intros Hf. revert b. induction l as [|a l IH]; intros b; simpl.
  - apply quiet_ret.
  - apply quiet_bind; [apply Hf|]. intros b'. apply IH.
Qed.

Ltac quiet_step :=
  lazymatch goal with
  | |- quiet (bind _ _) => apply quiet_bind; [|intros ?]
  | |- quiet (ret _) => apply quiet_ret
  | |- quiet (throw _) => apply quiet_throw
  | |- quiet (logger _ _) => apply quiet_logger
  | |- quiet now => apply quiet_now
  | |- quiet (set_cleanup _) => apply quiet_set_cleanup
  | |- quiet (emit _) => apply quiet_emit; reflexivity
  end.

Ltac quiet_auto := repeat quiet_step.

Lemma quiet_updateRepositoryStatus env repoId s :
  quiet (updateRepositoryStatus env repoId s).
Proof.
  unfold updateRepositoryStatus. apply quiet_bind; [by apply quiet_same|].
  intros k. destruct (repositories_fault env k); quiet_auto;
    by apply quiet_same.
Qed.

Lemma quiet_cleanupTempDir env dir : quiet (cleanupTempDir env dir).
Proof. unfold cleanupTempDir. quiet_auto. destruct (fs_remove env); quiet_auto. Qed.

Lemma quiet_cloneRepository env url br : quiet (cloneRepository env url br).
Proof.
  unfold cloneRepository. quiet_auto. destruct (git_clone env); quiet_auto.
  apply quiet_cleanupTempDir.
Qed.

Lemma quiet_parseCodeFiles env dir : quiet (parseCodeFiles env dir).
Proof. unfold parseCodeFiles. quiet_auto. destruct (list_files env); quiet_auto. Qed.

Lemma quiet_analyzeCode env f : quiet (Worker.analyzeCode env f).
Proof.
  unfold Worker.analyzeCode. quiet_auto.
  destruct (Orchestrator.analyzeCode _ _ _ _); quiet_auto.
Qed.

Lemma quiet_save_results env row : quiet (save_results env row).
Proof.
  unfold save_results. destruct (results_fault env); quiet_auto;
    by apply quiet_same.
Qed.

Lemma quiet_insert_batch env i batch : quiet (insert_batch env i batch).
Proof.
  unfold insert_batch. destruct (reviews_fault env _); quiet_auto;
    by apply quiet_same.
Qed.

Lemma quiet_insert_batches env fuel all i n :
  quiet (insert_batches env fuel all i n).
Proof.
  revert i n. induction fuel as [|fuel IH]; intros i n; simpl; quiet_auto.
  destruct (_ <? _)%nat; quiet_auto. { apply quiet_insert_batch. } apply IH.
Qed.

Lemma quiet_push_finding jobId repoId agentMap filePath all issue :
  quiet (push_finding jobId repoId agentMap filePath all issue).
Proof.
  unfold push_finding. quiet_auto. destruct (truthy_str _); quiet_auto.
Qed.

Lemma quiet_extract_file jobId repoId agentMap all fr :
  quiet (extract_file jobId repoId agentMap all fr).
Proof.
  unfold extract_file. destruct (String.eqb _ _); quiet_auto.
  apply quiet_foldM. intros. apply quiet_push_finding.
Qed.

Lemma quiet_save_findings env jobId repoId results :
  quiet (save_findings env jobId repoId results).
Proof.
  unfold save_findings. apply quiet_bind; [quiet_auto|intros _].
  destruct (fetch_agents env) as [agents agentsError].
  apply quiet_bind; [destruct agentsError; quiet_auto|intros _].
  apply quiet_bind; [destruct agents; quiet_auto|intros _].
  apply quiet_bind;
    [apply quiet_foldM; intros; apply quiet_extract_file|intros all].
  destruct all; quiet_auto. apply quiet_insert_batches.
Qed.

Lemma quiet_finalizer env : quiet (finalizer env).
Proof.
  intros w. unfold finalizer. destruct (cleanup w).
  - apply quiet_cleanupTempDir.
  - by apply quiet_ret.
Qed.

(** *** The invariant along a run *)

Lemma inv_silents j b c t r Δ :
  Forall (λ ev, silent ev = true) Δ → inv j b c t r → inv j b c (t ++ Δ) r.
Proof.
  intros HΔ. revert t. induction HΔ as [|ev Δ Hev _ IH]; intros t Hinv.
  - by rewrite app_nil_r.
  - change (ev :: Δ) with ([ev] ++ Δ). rewrite app_assoc.
    apply IH. by apply inv_silent.
Qed.

Lemma inv_quiet {A} (m : M A) j b c w :
  quiet m → Inv j b c w → Inv j b c (m w).2.
Proof.
  intros Hq Hinv. destruct (Hq w) as [Hr (Δ & Ht & Hs)].
  unfold Inv. rewrite Hr, Ht. by apply inv_silents.
Qed.

Lemma hoare_quiet {A} (m : M A) j b c (Φ : JobRow → Prop) :
  b ≤ 100 → c ≤ 100 → quiet m →
  hoare (λ w, Inv j b c w ∧ Φ (job_row w)) m
    (λ _ w, Inv j b c w ∧ Φ (job_row w)) (λ _ w, Top j w).
Proof.
  intros Hb Hc Hq w [Hinv HΦ].
  pose proof (inv_quiet m j b c w Hq Hinv) as Hinv'.
  destruct (Hq w) as [Hr _].
  destruct (m w) as [[a|e] w']; simpl in *.
  - split; [done|]. by rewrite Hr.
  - by apply (inv_weaken j b c).
Qed.

Lemma hoare_job_progress j b c p (Φ : JobRow → Prop) E :
  b ≤ p →
  hoare (λ w, Inv j b c w ∧ Φ (job_row w)) (job_progress p)
    (λ _ w, Inv j p c w ∧ Φ (job_row w)) E.
Proof.
  intros Hp w [Hinv HΦ]. unfold job_progress, emit, modify, Inv. simpl.
  split; [|done]. by apply (inv_progress j b c).
Qed.

Lemma hoare_updateJobStatus env jobId u j b c c' (Φ Ψ : JobRow → Prop) :
  b ≤ 100 → c ≤ 100 → c' ≤ 100 →
  (∀ r, Φ r → units_ok r →
        units_ok (apply_update u r) ∧
        (progress r ≤ c →
         progress r ≤ progress (apply_update u r) ≤ c') ∧
        Ψ (apply_update u r)) →
  hoare (λ w, Inv j b c w ∧ Φ (job_row w)) (updateJobStatus env jobId u)
    (λ _ w, Inv j b c' w ∧ Ψ (job_row w)) (λ _ w, Top j w).
Proof.
  intros Hb Hc Hc' Hu w [Hinv HΦ].
  unfold updateJobStatus, bind, next_jobs_call. cbn [fst snd].
  destruct (jobs_fault env (jobs_calls w)) as [e|].
  - unfold emit, logger, modify, throw, Top, Inv in *. cbn.
    apply (inv_weaken j b c); [done|done|]. by apply inv_silent.
  - unfold emit, write_job, modify, Inv in *. cbn.
    destruct (Hu _ HΦ (inv_row_units _ _ _ _ _ Hinv)) as (H1 & H2 & H3).
    split; [|done]. by apply (inv_update j b c c').
Qed.

(** *** The analysis loop *)

Lemma progressPercent_ratio (p n : Z) : progressPercent p n = 40 + ratio50 p n.
Proof. done. Qed.

Lemma reported_next len i :
  0 ≤ i < len → reported len i ≤ progressPercent (i + 1) len ≤ 90.
Proof.
  intros Hi. unfold reported. rewrite !progressPercent_ratio.
  pose proof (ratio50_bounds (i + 1) len ltac:(lia)).
  destruct (Z.eqb_spec i 0); [lia|].
  pose proof (ratio50_mono i (i + 1) len ltac:(lia) ltac:(lia) ltac:(lia)). lia.
Qed.

Lemma reported_le_90 len i : 0 ≤ i ≤ len → reported len i ≤ 90.
Proof.
  intros Hi. unfold reported. destruct (Z.eqb_spec i 0); [lia|].
  rewrite progressPercent_ratio.
  pose proof (ratio50_bounds i len ltac:(lia)). lia.
Qed.

Lemma hoare_analyze_file env jobId j len acc i f :
  0 ≤ i < len →
  hoare (λ w, Inv j (reported len i) (reported len i) w ∧ has_total len (job_row w))
    (analyze_file env jobId len acc i f)
    (λ _ w, Inv j (reported len (i + 1)) (reported len (i + 1)) w
            ∧ has_total len (job_row w))
    (λ _ w, Top j w).
Proof.
  intros Hi. pose proof (reported_next len i Hi) as Hnext.
  pose proof (reported_le_90 len i ltac:(lia)) as H90.
  assert (Hrep : reported len (i + 1) = progressPercent (i + 1) len).
  { unfold reported. destruct (Z.eqb_spec (i + 1) 0); [lia|done]. }
  rewrite Hrep. unfold analyze_file.
  eapply hoare_bind.
  { apply hoare_quiet; [lia|lia|apply quiet_analyzeCode]. }
  intros results. eapply hoare_bind.
  { apply hoare_quiet; [lia|lia|].
    destruct (Orchestrator.success results); quiet_auto. }
  intros acc'. eapply hoare_bind.
  { apply (hoare_updateJobStatus _ _ _ j _ _ (progressPercent (i + 1) len)
             (has_total len) (has_total len)); [lia|lia|lia|].
    intros r Hr Hu. unfold has_total, units_ok in *. simpl. rewrite Hr. simpl.
    split; [lia|]. split; [lia|done]. }
  intros ?. eapply hoare_bind.
  { apply hoare_job_progress. lia. }
  intros ?. by apply hoare_ret.
Qed.

Lemma hoare_analyze_files env jobId j len files i acc :
  0 ≤ i → i + Z.of_nat (length files) = len →
  hoare (λ w, Inv j (reported len i) (reported len i) w ∧ has_total len (job_row w))
    (analyze_files env jobId len files i acc)
    (λ _ w, Inv j 90 90 w ∧ has_total len (job_row w))
    (λ _ w, Top j w).
Proof.
  revert i acc. induction files as [|f files IH]; intros i acc Hi Hlen.
  - simpl in *. apply hoare_ret. intros w [Hinv Ht]. split; [|done].
    apply (inv_weaken j (reported len i) (reported len i)); [..|done];
      apply reported_le_90; lia.
  - simpl length in Hlen. simpl. eapply hoare_bind.
    + apply hoare_analyze_file. lia.
    + intros acc'. apply IH; lia.
Qed.

(** *** The whole run *)

Ltac quiet_bind_step b c Φ tac :=
  eapply hoare_bind; [apply (hoare_quiet _ _ b c Φ); [lia|lia|tac]|].

Lemma hoare_pipeline env jobId repoId j :
  hoare (λ w, Inv j 10 40 w ∧ any_row (job_row w))
    (pipeline env jobId repoId)
    (λ _ w, Top j w) (λ _ w, Top j w).
Proof.
  unfold pipeline.
  quiet_bind_step 10 40 any_row quiet_auto. intros ?.
  destruct (fetch_repository env) as [repo repoError].
  assert (Hthrow : ∀ msg,
    hoare (λ w, Inv j 10 40 w ∧ any_row (job_row w))
      (throw (new_Error msg) : M JobResult)
      (λ _ w, Top j w) (λ _ w, Top j w)).
  { intros msg. apply hoare_throw. intros w [Hinv _].
    by apply (inv_weaken j 10 40). }
  destruct repoError as [e|]; [apply Hthrow|].
  destruct repo as [repo|]; [|apply Hthrow].
  quiet_bind_step 10 40 any_row quiet_auto. intros started.
  eapply hoare_bind.
  { apply (hoare_updateJobStatus _ _ _ j 10 40 40 any_row any_row);
      [lia|lia|lia|].
    intros r _ Hu. unfold units_ok in *. simpl. split; [done|]. split; [lia|done]. }
  intros ?.
  quiet_bind_step 10 40 any_row ltac:(apply quiet_updateRepositoryStatus).
  intros ?.
  eapply hoare_bind; [apply (hoare_job_progress j 10 40 10 any_row); lia|intros ?].
  quiet_bind_step 10 40 any_row ltac:(apply quiet_cloneRepository).
  intros cloneResult.
  quiet_bind_step 10 40 any_row quiet_auto. intros ?.
  eapply hoare_bind; [apply (hoare_job_progress j 10 40 30 any_row); lia|intros ?].
  quiet_bind_step 30 40 any_row ltac:(apply quiet_updateRepositoryStatus).
  intros ?.
  quiet_bind_step 30 40 any_row ltac:(apply quiet_parseCodeFiles).
  intros files. set (len := Z.of_nat (length files)).
  eapply hoare_bind.
  { apply (hoare_updateJobStatus _ _ _ j 30 40 40 any_row (has_total len));
      [lia|lia|lia|].
    intros r _ Hu. unfold units_ok, has_total in *. simpl.
    split; [lia|]. split; [lia|done]. }
  intros ?.
  eapply hoare_bind;
    [apply (hoare_job_progress j 30 40 40 (has_total len)); lia|intros ?].
  eapply hoare_bind.
  { apply (hoare_analyze_files env jobId j len files 0); lia. }
  intros totals.
  quiet_bind_step 90 90 (has_total len) quiet_auto. intros created.
  quiet_bind_step 90 90 (has_total len) ltac:(apply quiet_save_results).
  intros ?.
  quiet_bind_step 90 90 (has_total len) ltac:(apply quiet_save_findings).
  intros ?.
  quiet_bind_step 90 90 (has_total len) quiet_auto. intros finished.
  eapply hoare_bind.
  { apply (hoare_updateJobStatus _ _ _ j 90 90 100 (has_total len) any_row);
      [lia|lia|lia|].
    intros r Hr Hu. unfold units_ok, has_total in *. simpl. rewrite Hr. simpl.
    split; [lia|]. split; [lia|done]. }
  intros ?.
  quiet_bind_step 90 100 any_row ltac:(apply quiet_updateRepositoryStatus).
  intros ?.
  eapply hoare_bind; [apply (hoare_job_progress j 90 100 100 any_row); lia|intros ?].
  apply hoare_ret. by intros w [Hinv _].
Qed.

Lemma hoare_on_error env jobId repoId j e :
  hoare (Top j) (on_error env jobId repoId e) (λ _ w, Top j w) (λ _ w, Top j w).
Proof.
  unfold on_error.
  eapply hoare_conseq with (P' := λ w, Inv j 100 100 w ∧ any_row (job_row w));
    [|by intros w Hw; split|intros a w Hw; exact Hw|intros a w Hw; exact Hw].
  quiet_bind_step 100 100 any_row quiet_auto. intros ?.
  quiet_bind_step 100 100 any_row quiet_auto. intros ?.
  quiet_bind_step 100 100 any_row quiet_auto. intros finished.
  eapply hoare_bind.
  { apply (hoare_updateJobStatus _ _ _ j 100 100 100 any_row any_row);
      [lia|lia|lia|].
    intros r _ Hu. unfold units_ok in *. simpl. split; [done|]. split; [lia|done]. }
  intros ?.
  quiet_bind_step 100 100 any_row ltac:(apply quiet_updateRepositoryStatus).
  intros ?. apply hoare_throw. by intros w [Hinv _].
Qed.

Lemma hoare_finalizer env j :
  hoare (Top j) (finalizer env) (λ _ w, Top j w) (λ _ w, Top j w).
Proof.
  intros w Hw. pose proof (inv_quiet _ j 100 100 w (quiet_finalizer env) Hw).
  by destruct (finalizer env w) as [[[]|e] w'].
Qed.

Lemma hoare_processReviewJob env job j :
  hoare (λ w, Inv j 10 40 w) (processReviewJob env job)
    (λ _ w, Top j w) (λ _ w, Top j w).
Proof.
  unfold processReviewJob.
  eapply hoare_try with (Q' := λ _ w, Top j w) (E' := λ _ w, Top j w)
                        (E'' := λ _ w, Top j w).
  - eapply hoare_conseq; [apply hoare_pipeline|..]; done.
  - intros e. apply hoare_on_error.
  - intros a. apply hoare_finalizer.
  - intros e. apply hoare_finalizer.
Qed.

Lemma Inv_initial j s : units_ok j → Inv j 10 40 (initial_world j s).
Proof.
  intros Hj. unfold Inv. simpl. split; simpl; try done.
  - by repeat constructor.
  - constructor.
  - intros _. repeat constructor.
Qed.

(** *** One turn of the loop, exactly *)

Lemma analyzeCode_run env f w :
  ∃ w', Worker.analyzeCode env f w = (Return (report_of env f), w') ∧
        trace w' = trace w ++ [EvAnalyze (path f)] ∧
        log w' = log w ∧ job_row w' = job_row w ∧
        jobs_calls w' = jobs_calls w ∧ cleanup w' = cleanup w.
Proof.
  unfold Worker.analyzeCode, report_of.
  rewrite OrchestratorProps.analyzeCode_aggregates.
  unfold bind, emit, modify, ret. simpl. eexists. repeat split.
Qed.

Lemma analyze_file_run env jobId len acc i f w :
  ∃ w',
    match jobs_fault env (jobs_calls w) with
    | None =>
        analyze_file env jobId len acc i f w
        = (Return (push_result acc f (report_of env f)), w') ∧
        trace w' = trace w ++
          [EvAnalyze (path f); EvJobUpdate (file_update len i) true;
           EvProgress (progressPercent (i + 1) len)] ∧
        log w' = log w ∧
        job_row w' = apply_update (file_update len i) (job_row w)
    | Some e =>
        analyze_file env jobId len acc i f w = (Throw e, w') ∧
        trace w' = trace w ++
          [EvAnalyze (path f); EvJobUpdate (file_update len i) false] ∧
        job_row w' = job_row w
    end ∧
    jobs_calls w' = S (jobs_calls w) ∧ cleanup w' = cleanup w.
Proof.
  destruct (analyzeCode_run env f w) as (w1 & Hrun & Ht & Hl & Hr & Hk & Hc).
  assert (Hs : Orchestrator.success (report_of env f) = true) by done.
  destruct (jobs_fault env (jobs_calls w)) as [e|] eqn:Hf;
    unfold analyze_file, updateJobStatus, bind, next_jobs_call;
    rewrite Hrun, Hs; unfold ret at 1; cbn [fst snd]; rewrite Hk, Hf;
    unfold emit, logger, write_job, job_progress, emit, modify, throw, ret;
    eexists; (split; [split; [reflexivity|]|]);
    cbn [trace log job_row jobs_calls cleanup];
    rewrite ?Ht, ?Hl, ?Hr, ?Hk, ?Hc, <- ?app_assoc; repeat split.
Qed.

Lemma analyze_files_at_once env jobId len files i acc w :
  ∃ Δ, trace (analyze_files env jobId len files i acc w).2 = trace w ++ Δ ∧
       reported_at_once len i Δ.
Proof.
  revert i acc w. induction files as [|f files IH]; intros i acc w; simpl.
  - exists []. rewrite app_nil_r. split; [done|constructor].
  - destruct (analyze_file_run env jobId len acc i f w) as (w1 & Hturn & _).
    unfold bind. destruct (jobs_fault env (jobs_calls w)) as [e|].
    + destruct Hturn as (-> & Ht & _). simpl. eexists. split; [exact Ht|].
      constructor.
    + destruct Hturn as (-> & Ht & _).
      destruct (IH (i + 1) (push_result acc f (report_of env f)) w1)
        as (Δ & HΔ & Hat).
      eexists. split.
      * rewrite HΔ, Ht, <- app_assoc. done.
      * simpl. by constructor.
Qed.

(** *** Operations that cannot raise *)

Lemma quiet_keeps_row {A} (m : M A) : quiet m → keeps_row m.
Proof. intros Hq w. by destruct (Hq w). Qed.

Lemma total_ret {A} (a : A) : total (ret a).
Proof. intros w. by eexists. Qed.

Lemma total_bind {A B} (m : M A) (k : A → M B) :
  total m → (∀ a, total (k a)) → total (bind m k).
Proof.
  intros Hm Hk w. unfold bind. destruct (Hm w) as [a Ha].
  destruct (m w) as [[a'|e] w1]; simpl in *; [|discriminate]. apply Hk.
Qed.

Lemma total_modify f : total (modify f).
Proof. intros w. by eexists. Qed.

Lemma total_now : total now.
Proof. intros w. by eexists. Qed.

Lemma total_foldM {A B} (f : B → A → M B) (l : list A) (b : B) :
  (∀ b a, total (f b a)) → total (foldM f l b).
Proof.
  intros Hf. revert b. induction l as [|a l IH]; intros b; simpl.
  - apply total_ret.
  - apply total_bind; [apply Hf|]. intros b'. apply IH.
Qed.

Ltac total_step :=
  lazymatch goal with
  | |- total (bind _ _) => apply total_bind; [|intros ?]
  | |- total (ret _) => apply total_ret
  | |- total (logger _ _) => apply total_modify
  | |- total (emit _) => apply total_modify
  | |- total (set_cleanup _) => apply total_modify
  | |- total (write_job _) => apply total_modify
  | |- total (write_repository_status _) => apply total_modify
  | |- total (write_results _) => apply total_modify
  | |- total (write_reviews _) => apply total_modify
  | |- total (job_progress _) => apply total_modify
  | |- total now => apply total_now
  end.

Ltac total_auto := repeat total_step.

Lemma total_updateJobStatus env jobId u :
  (∀ k, jobs_fault env k = None) → total (updateJobStatus env jobId u).
Proof.
  intros Hok. unfold updateJobStatus. apply total_bind; [by eexists|].
  intros k. rewrite Hok. total_auto.
Qed.

Lemma total_updateRepositoryStatus env repoId s :
  (∀ k, repositories_fault env k = None) →
  total (updateRepositoryStatus env repoId s).
Proof.
  intros Hok. unfold updateRepositoryStatus. apply total_bind; [by eexists|].
  intros k. rewrite Hok. total_auto.
Qed.

Lemma total_cleanupTempDir env dir : total (cleanupTempDir env dir).
Proof. unfold cleanupTempDir. total_auto. destruct (fs_remove env); total_auto. Qed.

Lemma total_cloneRepository env url br :
  git_clone env = None → total (cloneRepository env url br).
Proof. intros Hok. unfold cloneRepository. rewrite Hok. total_auto. Qed.

Lemma total_parseCodeFiles env dir files :
  list_files env = Return files → total (parseCodeFiles env dir).
Proof. intros Hok. unfold parseCodeFiles. rewrite Hok. total_auto. Qed.

Lemma total_analyze_files env jobId len files i acc :
  (∀ k, jobs_fault env k = None) →
  total (analyze_files env jobId len files i acc).
Proof.
  intros Hok. revert i acc. induction files as [|f files IH]; intros i acc; simpl.
  - apply total_ret.
  - apply total_bind; [|intros acc'; apply IH].
    intros w. destruct (analyze_file_run env jobId len acc i f w) as (w1 & H & _).
    rewrite Hok in H. destruct H as [-> _]. by eexists.
Qed.

Lemma total_save_results env row :
  results_fault env = None → total (save_results env row).
Proof. intros Hok. unfold save_results. rewrite Hok. total_auto. Qed.

Lemma total_insert_batch env i batch : total (insert_batch env i batch).
Proof. unfold insert_batch. destruct (reviews_fault env _); total_auto. Qed.

Lemma total_insert_batches env fuel all i n :
  total (insert_batches env fuel all i n).
Proof.
  revert i n. induction fuel as [|fuel IH]; intros i n; simpl; total_auto.
  destruct (_ <? _)%nat; total_auto. { apply total_insert_batch. } apply IH.
Qed.

Lemma total_push_finding jobId repoId agentMap filePath all issue :
  total (push_finding jobId repoId agentMap filePath all issue).
Proof. unfold push_finding. total_auto. destruct (truthy_str _); total_auto. Qed.

Lemma total_extract_file jobId repoId agentMap all fr :
  total (extract_file jobId repoId agentMap all fr).
Proof.
  unfold extract_file. destruct (String.eqb _ _); total_auto.
  apply total_foldM. intros. apply total_push_finding.
Qed.

Lemma total_save_findings env jobId repoId results :
  total (save_findings env jobId repoId results).
Proof.
  unfold save_findings. apply total_bind; [total_auto|intros _].
  destruct (fetch_agents env) as [agents agentsError].
  apply total_bind; [destruct agentsError; total_auto|intros _].
  apply total_bind; [destruct agents; total_auto|intros _].
  apply total_bind;
    [apply total_foldM; intros; apply total_extract_file|intros all].
  destruct all; total_auto. apply total_insert_batches.
Qed.

Lemma total_finalizer env : total (finalizer env).
Proof.
  intros w. unfold finalizer. destruct (cleanup w).
  - apply total_cleanupTempDir.
  - by eexists.
Qed.

Lemma hoare_total {A} (m : M A) E :
  total m → hoare (λ _, True) m (λ _ _, True) E.
Proof.
  intros Hm w _. destruct (Hm w) as [a Ha].
  by destruct (m w) as [[a'|e] w'].
Qed.

Lemma hoare_steady {A} (m : M A) (Φ : JobRow → Prop) E :
  total m → keeps_row m →
  hoare (λ w, Φ (job_row w)) m (λ _ w, Φ (job_row w)) E.
Proof.
  intros Hm Hk w Hw. destruct (Hm w) as [a Ha]. specialize (Hk w).
  destruct (m w) as [[a'|e] w']; simpl in *; [|discriminate]. by rewrite Hk.
Qed.

Lemma hoare_false {A} (m : M A) Q E : hoare (λ _, False) m Q E.
Proof. by intros w []. Qed.

Lemma hoare_update_accepted env jobId u (Ψ : JobRow → Prop) E :
  (∀ k, jobs_fault env k = None) →
  (∀ r, Ψ (apply_update u r)) →
  hoare (λ _, True) (updateJobStatus env jobId u) (λ _ w, Ψ (job_row w)) E.
Proof.
  intros Hok HΨ w _. unfold updateJobStatus, bind, next_jobs_call. cbn [fst snd].
  rewrite Hok. unfold write_job, emit, modify. cbn. apply HΨ.
Qed.

(** *** Persistence failures *)

Ltac total_bind_step tac :=
  eapply hoare_bind; [apply hoare_total; tac|].

Lemma hoare_finalizer_steady env (Φ : JobRow → Prop) E :
  hoare (λ w, Φ (job_row w)) (finalizer env) (λ _ w, Φ (job_row w)) E.
Proof.
  apply hoare_steady; [apply total_finalizer|].
  apply quiet_keeps_row, quiet_finalizer.
Qed.

Lemma hoare_pure {A} (φ : Prop) (P : World → Prop) (m : M A) Q E :
  (φ → hoare P m Q E) → hoare (λ w, φ ∧ P w) m Q E.
Proof. intros H w [Hφ Hw]. by apply H. Qed.

Section GoesThrough.

Variable env : Env.
Hypothesis Hgo : analysis_goes_through env.

Lemma jobs_accepted k : jobs_fault env k = None.
Proof. by destruct Hgo as ([Hjobs _] & _). Qed.

Lemma repositories_accepted k : repositories_fault env k = None.
Proof. by destruct Hgo as ([_ Hrepos] & _). Qed.

(** Up to the insert of the aggregate report. *)
Lemma hoare_pipeline_saved jobId repoId
    (Q : JobResult → World → Prop) (E : Error → World → Prop) :
  (∀ files totals created,
     hoare (λ _, True)
       (save_results env
          {| rr_job_id := jobId; rr_repo_id := repoId;
             rr_results := aggregate files totals;
             overall_score := avgScore (analysisResults totals);
             total_issues := totalIssues totals;
             rr_created_at := created |};;;
        save_findings env jobId repoId (analysisResults totals);;;
        let* finished := now in
        updateJobStatus env jobId
          {| u_status := Some completed; u_progress := Some 100;
             u_total_files := None;
             u_processed_files := Some (Z.of_nat (length files));
             u_error_message := None; u_started_at := None;
             u_completed_at := Some finished |};;;
        updateRepositoryStatus env repoId "completed";;;
        job_progress 100;;;
        ret {| r_jobId := jobId; r_repoId := repoId;
               filesProcessed := Z.of_nat (length files);
               r_totalIssues := totalIssues totals;
               r_overallScore := avgScore (analysisResults totals);
               r_status := completed |})
       Q E) →
  hoare (λ _, True) (pipeline env jobId repoId) Q E.
Proof.
  intros Htail.
  destruct Hgo as (_ & [repo Hrepo] & Hclone & [files0 Hfiles]).
  pose proof jobs_accepted as Hjobs.
  pose proof repositories_accepted as Hrepos.
  unfold pipeline. rewrite Hrepo.
  total_bind_step total_auto. intros ?.
  total_bind_step total_auto. intros started.
  total_bind_step ltac:(by apply total_updateJobStatus). intros ?.
  total_bind_step ltac:(by apply total_updateRepositoryStatus). intros ?.
  total_bind_step total_auto. intros ?.
  total_bind_step ltac:(by apply total_cloneRepository). intros cloneResult.
  total_bind_step total_auto. intros ?.
  total_bind_step total_auto. intros ?.
  total_bind_step ltac:(by apply total_updateRepositoryStatus). intros ?.
  total_bind_step ltac:(by eapply total_parseCodeFiles). intros files.
  total_bind_step ltac:(by apply total_updateJobStatus). intros ?.
  total_bind_step total_auto. intros ?.
  total_bind_step ltac:(by apply total_analyze_files). intros totals.
  total_bind_step total_auto. intros created.
  apply Htail.
Qed.

(** The [catch] block marks the job failed and rethrows. *)
Lemma hoare_on_error_accepted jobId repoId e Q :
  hoare (λ _, True) (on_error env jobId repoId e) Q
    (λ e' w, e' = e ∧ failed_with e (job_row w)).
Proof.
  unfold on_error.
  total_bind_step total_auto. intros ?.
  total_bind_step total_auto. intros ?.
  total_bind_step total_auto. intros finished.
  eapply hoare_bind.
  { apply (hoare_update_accepted _ _ _ (failed_with e));
      [apply jobs_accepted|].
    intros r. unfold failed_with. simpl. eauto. }
  intros ?. eapply hoare_bind.
  { apply hoare_steady;
      [apply total_updateRepositoryStatus, repositories_accepted|].
    apply quiet_keeps_row, quiet_updateRepositoryStatus. }
  intros ?. by apply hoare_throw.
Qed.

Lemma aggregate_failure_fails_job job e w :
  results_fault env = Some e →
  (processReviewJob env job w).1 = Throw e ∧
  failed_with e (job_row (processReviewJob env job w).2).
Proof.
  intros Hfault.
  assert (H : hoare (λ _, True) (processReviewJob env job)
                (λ _ _, False) (λ e' w, e' = e ∧ failed_with e (job_row w))).
  { unfold processReviewJob.
    eapply hoare_try with (Q' := λ _ _, False) (E' := λ e' _, e' = e ∧ True)
      (E'' := λ e' w, e' = e ∧ failed_with e (job_row w)).
    - apply hoare_pipeline_saved. intros files totals created.
      eapply hoare_bind; [|intros ?; apply hoare_false].
      intros w' _. unfold save_results. rewrite Hfault.
      by unfold bind, emit, logger, modify, throw.
    - intros e'. apply hoare_pure. intros ->.
      apply hoare_on_error_accepted.
    - intros a. apply hoare_false.
    - intros e'. apply hoare_pure. intros ->.
      eapply hoare_conseq;
        [apply (hoare_finalizer_steady env (failed_with e)
                  (λ e' w, e' = e ∧ failed_with e (job_row w)))|..]; done. }
  specialize (H w I). destruct (processReviewJob env job w) as [[a|e'] w']; [done|].
  destruct H as [-> H]. done.
Qed.

Lemma findings_failure_completes_job job w :
  results_fault env = None →
  (∃ r, (processReviewJob env job w).1 = Return r ∧ r_status r = completed) ∧
  completed_row (job_row (processReviewJob env job w).2).
Proof.
  intros Hfault.
  assert (H : hoare (λ _, True) (processReviewJob env job)
                (λ r w, r_status r = completed ∧ completed_row (job_row w))
                (λ _ _, False)).
  { unfold processReviewJob.
    eapply hoare_try
      with (Q' := λ r w, r_status r = completed ∧ completed_row (job_row w))
           (E' := λ _ _, False) (E'' := λ _ _, False).
    - apply hoare_pipeline_saved. intros files totals created.
      total_bind_step ltac:(by apply total_save_results). intros ?.
      total_bind_step ltac:(apply total_save_findings). intros ?.
      total_bind_step total_auto. intros finished.
      eapply hoare_bind.
      { apply (hoare_update_accepted _ _ _ completed_row);
          [apply jobs_accepted|].
        intros r. unfold completed_row. simpl. eauto. }
      intros ?. eapply hoare_bind.
      { apply hoare_steady;
          [apply total_updateRepositoryStatus, repositories_accepted|].
        apply quiet_keeps_row, quiet_updateRepositoryStatus. }
      intros ?. eapply hoare_bind.
      { apply hoare_steady; [total_auto|]. by intros w'. }
      intros ?. apply hoare_ret. by intros w' Hw'.
    - intros e'. apply hoare_false.
    - intros r. apply hoare_pure. intros Hr.
      eapply hoare_conseq;
        [apply (hoare_finalizer_steady env completed_row (λ _ _, False))|..];
        done.
    - intros e'. apply hoare_false. }
  specialize (H w I). destruct (processReviewJob env job w) as [[r|e'] w']; [|done].
  destruct H as [Hr H]. split; [by exists r|done].
Qed.

End GoesThrough.

(** *** The batches of findings *)

Lemma insert_batches_run env fuel all i n w :
  (length all - i ≤ fuel * BATCH_SIZE)%nat →
  ∃ n' Δ Λ,
    (insert_batches env fuel all i n w).1 = Return n' ∧
    batches_done all i w (insert_batches env fuel all i n w).2 Δ Λ.
Proof.
  revert i n w. induction fuel as [|fuel IH]; intros i n w Hfuel.
  - exists n, [], []. split; [done|]. simpl.
    split; rewrite ?app_nil_r; try done.
    simpl. rewrite drop_ge; [done|lia].
  - simpl. destruct (Nat.ltb_spec i (length all)) as [Hlt|Hge].
    + set (batch := take BATCH_SIZE (drop i all)).
      assert (Hsplit : batch ++ drop (i + BATCH_SIZE) all = drop i all).
      { subst batch. rewrite <- drop_drop. apply take_drop. }
      unfold bind, insert_batch.
      destruct (reviews_fault env (i / BATCH_SIZE)%nat) as [e|] eqn:Hf;
        unfold bind, emit, logger, write_reviews, modify, ret; cbn [fst snd];
        match goal with
        | |- context [insert_batches env fuel all ?i' ?n' ?w'] =>
            set (w1 := w');
            destruct (IH i' n' w1) as (m & Δ & Λ & Hret & Hd);
              [unfold BATCH_SIZE in *; lia|]
        end;
        destruct Hd as [H1 H2 H3 H4 H5 H6 H7].
      * eexists m, (EvInsertFindings batch false :: Δ), (_ :: Λ).
        split; [exact Hret|]. split.
        -- rewrite H1. unfold w1. cbn [trace]. by rewrite <- app_assoc.
        -- rewrite H2. unfold w1. cbn [log]. by rewrite <- app_assoc.
        -- cbn. fold (attempted Δ). by rewrite H3.
        -- by rewrite H4.
        -- cbn. fold (attempted Δ). unfold refused_batches in H5. by rewrite H5.
        -- by constructor.
        -- by rewrite H7.
      * eexists m, (EvInsertFindings batch true :: Δ), Λ.
        split; [exact Hret|]. split.
        -- rewrite H1. unfold w1. cbn [trace]. by rewrite <- app_assoc.
        -- by rewrite H2.
        -- cbn. fold (attempted Δ). by rewrite H3.
        -- rewrite H4. unfold w1, accepted_rows. cbn. fold (attempted Δ).
           by rewrite <- app_assoc.
        -- done.
        -- done.
        -- by rewrite H7.
    + exists n, [], []. split; [done|]. simpl.
      split; rewrite ?app_nil_r; try done.
      simpl. rewrite drop_ge; [done|lia].
Qed.

(** *** Running a prefix of the pipeline *)

Lemma run_bind {A B} (m : M A) (k : A → M B) w c w1 :
  m w = (c, w1) →
  bind m k w = match c with
               | Return a => k a w1
               | Throw e => (Throw e, w1)
               end.
Proof. intros H. unfold bind. by rewrite H. Qed.

Ltac rewrite_env :=
  repeat match goal with
    | H : ∀ k, jobs_fault _ k = None |- context [jobs_fault _ _] => rewrite H
    | H : ∀ k, repositories_fault _ k = None
      |- context [repositories_fault _ _] => rewrite H
    | H : git_clone _ = _ |- context [git_clone _] => rewrite H
    | H : fetch_repository _ = _ |- context [fetch_repository _] => rewrite H
    | H : fs_remove _ = _ |- context [fs_remove _] => rewrite H
    end.

Ltac world_simpl :=
  cbn [job_row repository_status review_results reviews trace log jobs_calls
       repositories_calls clock cleanup fst snd].

Ltac run_head :=
  repeat (progress
    (cbv beta iota zeta delta
       [cloneRepository cleanupTempDir updateJobStatus updateRepositoryStatus
        job_progress bind ret throw emit logger modify now set_cleanup
        next_jobs_call next_repositories_call write_job
        write_repository_status];
     world_simpl; rewrite_env)).

Ltac step :=
  erewrite run_bind; [|run_head; reflexivity]; cbv beta iota; world_simpl.


(** *** Categories *)




(** *** The claims about the worker *)







Lemma analyze_files_pushes env jobId len files i acc w t w' :
  analyze_files env jobId len files i acc w = (Return t, w') →
  map file (analysisResults t)
  = map file (analysisResults acc) ++ map path files.
Proof.
  revert i acc w. induction files as [|f files IH]; intros i acc w; simpl.
  - intros [= <- _]. by rewrite app_nil_r.
  - destruct (analyze_file_run env jobId len acc i f w) as (w1 & Hturn & _).
    unfold bind. destruct (jobs_fault env (jobs_calls w)) as [e|].
    + destruct Hturn as (-> & _). discriminate.
    + destruct Hturn as (-> & _). intros Hrest.
      rewrite (IH _ _ _ Hrest). unfold push_result. cbn [analysisResults].
      rewrite map_app. cbn [map file]. by rewrite <- app_assoc.
Qed.

(** C9.  Whatever [analyzeCode] returns carries [success: true], for any
    agents and any number of failures among them, and with the agents of
    this repository it does return; so does the value the worker tests
    after its call; and therefore every turn of the loop that returns has
    pushed the file onto [analysisResults] and written nothing to the log
    (as every turn does whose update of the row is accepted), and a loop
    that returns has pushed every file. *)
Theorem success_branch_always_taken :
  (∀ o invoke rep,
     Orchestrator.analyzeCode_with o invoke = Return rep →
     Orchestrator.success rep = true) ∧
  (∀ b o code language,
     ∃ rep, Orchestrator.analyzeCode b o code language = Return rep ∧
            Orchestrator.success rep = true) ∧
  (∀ env jobId len acc i f w,
     jobs_fault env (jobs_calls w) = None →
     ∃ w', analyze_file env jobId len acc i f w
           = (Return (push_result acc f (report_of env f)), w') ∧
           log w' = log w) ∧
  (∀ env f w rep w',
     analyzeCode env f w = (Return rep, w') →
     Orchestrator.success rep = true) ∧
  (∀ env jobId len acc i f w acc' w',
     analyze_file env jobId len acc i f w = (Return acc', w') →
     acc' = push_result acc f (report_of env f) ∧ log w' = log w) ∧
  (∀ env jobId len files i acc w t w',
     analyze_files env jobId len files i acc w = (Return t, w') →
     map file (analysisResults t)
     = map file (analysisResults acc) ++ map path files).
Proof.
  split; [exact OrchestratorProps.analyzeCode_with_success|]. split.
  { intros b o code language. eexists.
    split; [apply OrchestratorProps.analyzeCode_aggregates|done]. }
  split.
  { intros env jobId len acc i f w Hok.
    destruct (analyze_file_run env jobId len acc i f w) as (w1 & Hturn & _).
    rewrite Hok in Hturn. destruct Hturn as (Heq & _ & Hlog & _).
    by exists w1. }
  split.
  - intros env f w rep w' Hrun.
    destruct (analyzeCode_run env f w) as (w1 & Hrun' & _).
    rewrite Hrun' in Hrun. by injection Hrun as <- _.
  - split; [|exact analyze_files_pushes].
    intros env jobId len acc i f w acc' w' Hrun.
    destruct (analyze_file_run env jobId len acc i f w) as (w1 & Hturn & _).
    destruct (jobs_fault env (jobs_calls w)) as [e|].
    + destruct Hturn as (Heq & _). rewrite Heq in Hrun. discriminate.
    + destruct Hturn as (Heq & _ & Hlog & _). rewrite Heq in Hrun.
      injection Hrun as <- <-. done.
Qed.

Lemma success_branch_always_taken_witness :
  ∃ rep,
    Orchestrator.analyzeCode Scenarios.flaky_backend orchestrator
      "x = 1" "Python" = Return rep ∧
    Orchestrator.success rep = true.
Proof.
  destruct success_branch_always_taken as (H & _).
  eexists. split; [reflexivity|].
  apply (H orchestrator
           (λ agent, BaseAgent.analyze Scenarios.flaky_backend agent
                       "x = 1" "Python")).
  reflexivity.
Defined.

End WorkerProps.

(** ** Answers of any shape *)

Module AnswerProps.
Import Js.

(** *** The two embeddings of the orchestrator agree on the asked shape *)

Lemma get_issues (f : BaseAgent.Findings) :
  Answers.get (Answers.of_findings f) "issues"
  = Return ((λ l, Answers.JArray (map Answers.of_issue l))
              <$> BaseAgent.issues f).
Proof. destruct f as [[l|] [z|] [s|]]; reflexivity. Qed.

Lemma get_score (f : BaseAgent.Findings) :
  Answers.get (Answers.of_findings f) "score"
  = Return (Answers.JNumber <$> BaseAgent.score f).
Proof. destruct f as [[l|] [z|] [s|]]; reflexivity. Qed.

Lemma findings_shaped (r : BaseAgent.AgentResult) (f : BaseAgent.Findings) :
  BaseAgent.findings r = Some f →
  Answers.findings (Answers.of_result r) = Some (Answers.of_findings f).
Proof. intros Hf. unfold Answers.of_result. simpl. rewrite Hf. by destruct (BaseAgent.error r). Qed.

Lemma findings_falsy (r : BaseAgent.AgentResult) :
  BaseAgent.findings r = None →
  Answers.findings (Answers.of_result r) = None ∨
  Answers.findings (Answers.of_result r) = Some Answers.JNull.
Proof.
  intros Hf. unfold Answers.of_result. simpl. rewrite Hf.
  destruct (BaseAgent.error r); auto.
Qed.

Lemma get_severity (i : BaseAgent.Issue) :
  Answers.get (Answers.of_issue i) "severity"
  = Return (Answers.JText <$> BaseAgent.severity i).
Proof. destruct i as [[s|] [z|] [d|] [r|]]; reflexivity. Qed.

Lemma to_key_severity (s : option string) :
  Answers.to_key (Answers.JText <$> s) = property_key s.
Proof. by destruct s. Qed.

Lemma visit_issues_shaped (r : BaseAgent.AgentResult)
    (l : list BaseAgent.Issue) (acc : Orchestrator.Acc) :
  Answers.forEach (Answers.visit_issue (Answers.of_result r))
    (map Answers.of_issue l) (Answers.of_acc acc)
  = Return (Answers.of_acc (fold_left (Orchestrator.visit_issue r) l acc)).
Proof.
  revert acc. induction l as [|i l IH]; intros acc; [done|].
  cbn [map Answers.forEach fold_left].
  unfold Answers.visit_issue at 1. rewrite get_severity, to_key_severity.
  rewrite <- IH. f_equal. unfold Answers.of_acc, Orchestrator.visit_issue. simpl.
  by rewrite map_app.
Qed.

Lemma visit_result_shaped (r : BaseAgent.AgentResult)
    (acc : Orchestrator.Acc) :
  Answers.visit_result (Answers.of_acc acc) (Answers.of_result r)
  = Return (Answers.of_acc (Orchestrator.visit_result acc r)).
Proof.
  unfold Answers.visit_result, Orchestrator.visit_result, Orchestrator.issues_of.
  destruct (BaseAgent.findings r) as [f|] eqn:Hf.
  - rewrite (findings_shaped r f Hf), get_issues.
    change (Answers.truthy (Answers.of_findings f)) with true. cbv iota.
    destruct (BaseAgent.issues f) as [l|]; [|done].
    cbn [fmap option_fmap option_map Answers.truthy default Answers.walk].
    apply visit_issues_shaped.
  - by destruct (findings_falsy r Hf) as [-> | ->].
Qed.

Lemma visit_results_shaped (rs : list BaseAgent.AgentResult)
    (acc : Orchestrator.Acc) :
  Answers.forEach Answers.visit_result (map Answers.of_result rs) (Answers.of_acc acc)
  = Return (Answers.of_acc (fold_left Orchestrator.visit_result rs acc)).
Proof.
  revert acc. induction rs as [|r rs IH]; intros acc; simpl; [done|].
  by rewrite visit_result_shaped, IH.
Qed.

Lemma filter_of_result (f : Answers.Result → bool)
    (g : BaseAgent.AgentResult → bool) (rs : list BaseAgent.AgentResult) :
  (∀ r, f (Answers.of_result r) = g r) →
  List.filter f (map Answers.of_result rs)
  = map Answers.of_result (List.filter g rs).
Proof.
  intros Hfg. induction rs as [|r rs IH]; simpl; [done|].
  rewrite Hfg. destruct (g r); simpl; by rewrite IH.
Qed.

Lemma score_of_shaped (r : BaseAgent.AgentResult) :
  Answers.score_of (Answers.of_result r)
  = match BaseAgent.findings r with
    | Some f => Answers.JNumber <$> BaseAgent.score f
    | None => None
    end.
Proof.
  unfold Answers.score_of.
  destruct (BaseAgent.findings r) as [f|] eqn:Hf.
  - by rewrite (findings_shaped r f Hf), get_score.
  - by destruct (findings_falsy r Hf) as [-> | ->].
Qed.

Lemma has_score_shaped (r : BaseAgent.AgentResult) :
  Answers.has_score (Answers.of_result r) = Orchestrator.has_score r.
Proof.
  unfold Answers.has_score, Orchestrator.has_score.
  rewrite score_of_shaped.
  destruct (BaseAgent.findings r) as [f|] eqn:Hf.
  - rewrite (findings_shaped r f Hf).
    change (Answers.truthy (Answers.of_findings f)) with true.
    by destruct (BaseAgent.score f).
  - by destruct (findings_falsy r Hf) as [-> | ->].
Qed.

Lemma scores_shaped (rs : list BaseAgent.AgentResult) :
  Forall (λ r, Orchestrator.has_score r = true) rs →
  Answers.numbers (map Answers.score_of (map Answers.of_result rs))
  = Some (map Orchestrator.score_of rs).
Proof.
  induction 1 as [|r rs Hr _ IH]; [done|].
  cbn [map Answers.numbers]. rewrite score_of_shaped, IH.
  unfold Orchestrator.has_score, Orchestrator.score_of in *.
  destruct (BaseAgent.findings r) as [f|]; [|done].
  by destruct (BaseAgent.score f) as [z|].
Qed.

Lemma has_error_shaped (r : BaseAgent.AgentResult) :
  Answers.has_error (Answers.of_result r) = Orchestrator.has_error r.
Proof. done. Qed.

Lemma tokens_shaped (rs : list BaseAgent.AgentResult) (n : num) :
  fold_left (λ sum r, num_add sum (to_num (Answers.tokensUsed r)))
    (map Answers.of_result rs) n
  = fold_left (λ sum r, num_add sum (to_num (BaseAgent.tokensUsed r))) rs n.
Proof. revert n. induction rs as [|r rs IH]; intros n; simpl; [done|]. apply IH. Qed.

(** On answers of the shape the prompt asks for, the orchestrator over
    JSON values returns what the orchestrator over [BaseAgent.Findings]
    computes. *)
Lemma aggregateResults_shaped (rs : list BaseAgent.AgentResult) :
  Answers.aggregateResults (map Answers.of_result rs)
  = Return (Answers.of_report (Orchestrator.aggregateResults rs)).
Proof.
  unfold Answers.aggregateResults, Orchestrator.aggregateResults.
  rewrite (filter_of_result (λ r, negb (Answers.has_error r))
             (λ r, negb (Orchestrator.has_error r)))
    by (intros r; by rewrite has_error_shaped).
  rewrite (filter_of_result Answers.has_error Orchestrator.has_error)
    by apply has_error_shaped.
  change (Orchestrator.initial_tally, @nil Answers.Tagged)
    with (Answers.of_acc (Orchestrator.initial_tally, [])).
  rewrite visit_results_shaped.
  rewrite (filter_of_result Answers.has_score Orchestrator.has_score)
    by apply has_score_shaped.
  rewrite scores_shaped, tokens_shaped.
  - unfold Answers.of_report. cbn. by rewrite !length_map.
  - apply Forall_forall. intros r Hr.
    apply list_elem_of_In, filter_In in Hr. tauto.
Qed.

Lemma analyze_shaped (b : BaseAgent.Backend) (a : BaseAgent.Agent)
    (code language : string) :
  Answers.analyze (Answers.of_backend b) a code language
  = Answers.on_return Answers.of_result (BaseAgent.analyze b a code language).
Proof.
  unfold Answers.analyze, BaseAgent.analyze. cbn [Answers.create Answers.of_backend Answers.JSON_parse].
  destruct (BaseAgent.create b _ _ _) as [resp|e]; [|done].
  by destruct (BaseAgent.JSON_parse b _) as [[f|]|e].
Qed.

Lemma Promise_all_on_return {A B} (f : A → B) (l : list (Completion A)) :
  Orchestrator.Promise_all (map (Answers.on_return f) l)
  = Answers.on_return (map f) (Orchestrator.Promise_all l).
Proof.
  induction l as [|[a|e] l IH]; simpl; [done| |done].
  rewrite IH. by destruct (Orchestrator.Promise_all l).
Qed.

(** With a backend whose answers have the shape the prompt asks for,
    [analyzeCode] over JSON values is [analyzeCode] over
    [BaseAgent.Findings]. *)
Lemma analyzeCode_shaped (b : BaseAgent.Backend)
    (o : Orchestrator.AgentOrchestrator) (code language : string) :
  Answers.analyzeCode (Answers.of_backend b) o code language
  = Answers.on_return Answers.of_report
      (Orchestrator.analyzeCode b o code language).
Proof.
  unfold Answers.analyzeCode, Orchestrator.analyzeCode,
    Orchestrator.analyzeCode_with.
  rewrite (map_ext _ (λ a, Answers.on_return Answers.of_result
                             (BaseAgent.analyze b a code language)))
    by (intros a; apply analyze_shaped).
  rewrite <- (map_map (λ a, BaseAgent.analyze b a code language)
                (Answers.on_return Answers.of_result)).
  rewrite Promise_all_on_return.
  destruct (Orchestrator.Promise_all _) as [rs|e]; [|done].
  apply aggregateResults_shaped.
Qed.

(** *** When the orchestrator raises *)

(** [analyze] never raises, whatever the answer. *)
Lemma analyze_settles (b : Answers.Backend) (a : BaseAgent.Agent)
    (code language : string) :
  ∃ r, Answers.analyze b a code language = Return r ∧
       (Answers.error r = None → ∃ v, Answers.findings r = Some v).
Proof.
  unfold Answers.analyze.
  destruct (Answers.create b _ _ _) as [resp|e]; [|by eexists].
  destruct (Answers.JSON_parse b _) as [v|e]; eexists; (split; [done|]);
    [by eexists|done].
Qed.

Lemma forEach_returns {A B} (f : B → A → Completion B) (p : A → bool)
    (l : list A) (b : B) :
  (∀ b a, Answers.returns (f b a) = p a) →
  Answers.returns (Answers.forEach f l b) = forallb p l.
Proof.
  intros Hf. revert b. induction l as [|a l IH]; intros b; simpl; [done|].
  rewrite <- (Hf b a). destruct (f b a) as [b'|e]; simpl; [apply IH|done].
Qed.

Lemma visit_issue_returns (r : Answers.Result) (acc : Answers.Acc)
    (i : Answers.Json) :
  Answers.returns (Answers.visit_issue r acc i) = negb (Answers.is_null i).
Proof. by destruct i. Qed.

Lemma visit_result_returns (acc : Answers.Acc) (r : Answers.Result) :
  Answers.returns (Answers.visit_result acc r)
  = match Answers.findings r with
    | Some f => Answers.walkable f
    | None => true
    end.
Proof.
  unfold Answers.visit_result.
  destruct (Answers.findings r) as [f|]; [|done].
  destruct f as [| [|] | z | s | l | members]; try done.
  - simpl. by destruct (negb (z =? 0)).
  - simpl. by destruct (negb (String.eqb s EmptyString)).
  - cbn [Answers.truthy Answers.get Answers.walkable].
    destruct (Answers.own members "issues") as [v|]; [|done].
    destruct v as [| [|] | z | s | l | ms]; try done.
    + simpl. by destruct (z =? 0).
    + simpl. by destruct (String.eqb s EmptyString).
    + cbn [Answers.truthy Answers.walk].
      apply forEach_returns. intros. apply visit_issue_returns.
Qed.

(** [aggregateResults] returns exactly when every result that is not
    counted as failed has an answer that can be walked. *)
Lemma aggregateResults_returns (rs : list Answers.Result) :
  Answers.returns (Answers.aggregateResults rs) = forallb Answers.passes rs.
Proof.
  unfold Answers.aggregateResults.
  assert (H : Answers.returns
                (Answers.forEach Answers.visit_result
                   (List.filter (λ r, negb (Answers.has_error r)) rs)
                   (Orchestrator.initial_tally, []))
              = forallb Answers.passes rs).
  { rewrite (forEach_returns _ (λ r, match Answers.findings r with
                                      | Some f => Answers.walkable f
                                      | None => true
                                      end))
      by (intros; apply visit_result_returns).
    induction rs as [|r rs IH]; simpl; [done|].
    unfold Answers.passes at 1.
    destruct (Answers.has_error r); simpl; by rewrite IH. }
  by destruct (Answers.forEach _ _ _).
Qed.

(** [analyzeCode] returns exactly when every agent's result gets through
    [aggregateResults]: an agent that failed never makes it raise, an
    agent whose answer cannot be walked always does. *)
Lemma analyzeCode_returns (b : Answers.Backend)
    (o : Orchestrator.AgentOrchestrator) (code language : string) :
  Answers.returns (Answers.analyzeCode b o code language)
  = forallb (λ a, match Answers.analyze b a code language with
                  | Return r => Answers.passes r
                  | Throw _ => false
                  end) (Orchestrator.agents o).
Proof.
  unfold Answers.analyzeCode.
  assert (H : ∃ rs,
            Orchestrator.Promise_all
              (map (λ a, Answers.analyze b a code language)
                 (Orchestrator.agents o)) = Return rs ∧
            forallb Answers.passes rs
            = forallb (λ a, match Answers.analyze b a code language with
                            | Return r => Answers.passes r
                            | Throw _ => false
                            end) (Orchestrator.agents o)).
  { induction (Orchestrator.agents o) as [|a l (rs & Hrs & IH)]; simpl.
    - by exists [].
    - destruct (analyze_settles b a code language) as (r & -> & _).
      rewrite Hrs. exists (r :: rs). simpl. by rewrite IH. }
  destruct H as (rs & -> & <-). apply aggregateResults_returns.
Qed.

(** C1, at the failing input: the remote service answers the style agent
    with the JSON object [{issues: 'none', summary: 'Looks fine',
    score: 90}] and the three others with an empty list of issues.  Every
    agent's run settles, none with an error, and yet [analyzeCode] raises
    a [TypeError]; it does the same when the list of issues holds [null].
    And an agent whose remote call fails with an empty message is recorded
    among the successful results, not in the failed list. *)
Theorem analyzeCode_raises_on_odd_answer :
  let o := Orchestrator.new_AgentOrchestrator in
  (∀ a, a ∈ Orchestrator.agents o →
     ∃ r, Answers.analyze (Answers.answering Answers.text_issues) a
            "x = 1" "Python" = Return r ∧
          Answers.error r = None) ∧
  Answers.analyzeCode (Answers.answering Answers.text_issues) o
    "x = 1" "Python"
  = Throw (Answers.TypeError
             "result.findings.issues.forEach is not a function") ∧
  Answers.analyzeCode (Answers.answering Answers.null_issue) o
    "x = 1" "Python"
  = Throw (Answers.TypeError
             "Cannot read properties of null (reading 'severity')") ∧
  ∃ rep,
    Answers.analyzeCode Answers.silent_failure o "x = 1" "Python"
    = Return rep ∧
    Answers.failedAgents rep = [] ∧
    length (Answers.agentResults rep) = 4%nat ∧
    Answers.totalTokens rep = NaN.
Proof.
  cbv zeta. split.
  { intros a Ha. unfold Orchestrator.new_AgentOrchestrator in Ha.
    cbn [Orchestrator.agents] in Ha.
    repeat (apply elem_of_cons in Ha as [->|Ha]; [by eexists|]).
    by apply elem_of_nil in Ha. }
  split; [reflexivity|]. split; [reflexivity|].
  eexists. split; [reflexivity|]. by repeat split.
Qed.

End AnswerProps.

(** ** Quotients of integers *)

Module JsMathProps.
Import Double JsMath DoubleProps.

Lemma div_between (a b : Z) :
  0 < a < 2 ^ 53 → 0 < b →
  let P := 2 ^ shift (div a b) in
  0 < P ∧ b < 2 * P ∧
  2 * a * P - b ≤ 2 * mant (div a b) * b ≤ 2 * a * P + b.
Proof.
  intros Ha Hb P. subst P. unfold div, round. cbn [mant shift].
  destruct (exponent_spec a b) as (He & Hlo & Hhi); [lia|lia|nia|].
  set (e := exponent a b) in *.
  assert (HP : 0 < 2 ^ e) by (apply Z.pow_pos_nonneg; lia).
  destruct (rne_spec (a * 2 ^ e) b Hb) as ([H1 H2] & _).
  split; [done|]. split; [|lia].
  assert (2 ^ 52 * b < 2 ^ 53 * 2 ^ e) by nia.
  change (2 ^ 53) with (2 ^ 52 * 2) in H. nia.
Qed.

(** Below [2^53] the floor of the double quotient of two integers is
    their integer quotient. *)
Lemma floor_div_exact (a b : Z) :
  0 ≤ a < 2 ^ 53 → 0 < b → floor_div a b = a / b.
Proof.
  intros Ha Hb. unfold floor_div.
  destruct (Z.eqb_spec a 0) as [->|Hne]; [done|].
  destruct (div_between a b) as (HP & HbP & Hlo & Hhi); [lia|lia|].
  unfold floor. set (P := 2 ^ shift (div a b)) in *.
  set (m := mant (div a b)) in *.
  pose proof (Z.div_mod a b ltac:(lia)) as Hdm.
  pose proof (Z.mod_pos_bound a b Hb) as Hr.
  set (q := a / b) in *. set (r := a mod b) in *.
  symmetry. apply (Z.div_unique_pos m P q (m - q * P)); [|lia].
  split; nia.
Qed.

Lemma ceil_div_exact (a b : Z) :
  0 ≤ a < 2 ^ 53 → 0 < b → ceil_div a b = (a + b - 1) / b.
Proof.
  intros Ha Hb. unfold ceil_div.
  destruct (Z.eqb_spec a 0) as [->|Hne].
  { symmetry. apply Z.div_small. lia. }
  destruct (div_between a b) as (HP & HbP & Hlo & Hhi); [lia|lia|].
  unfold ceil. set (P := 2 ^ shift (div a b)) in *.
  set (m := mant (div a b)) in *.
  pose proof (Z.div_mod (a + b - 1) b ltac:(lia)) as Hdm.
  pose proof (Z.mod_pos_bound (a + b - 1) b Hb) as Hr.
  set (c := (a + b - 1) / b) in *. set (r := (a + b - 1) mod b) in *.
  assert (Hc : - m / P = - c); [|lia].
  symmetry. apply (Z.div_unique_pos (- m) P (- c) (c * P - m)); [|lia].
  split; nia.
Qed.

End JsMathProps.

(** ** Outcomes of a run *)

Module RunProps.
Import Js Double Worker Accounting Hoare Observations.
Import WorkerProps.

Lemma hoare_any {A} (P : World → Prop) (m : M A) :
  hoare P m (λ _ _, True) (λ _ _, True).
Proof. intros w _. by destruct (m w) as [[a|e] w']. Qed.

Ltac any_step := eapply hoare_bind; [apply hoare_any|intros ?].

Lemma hoare_repository_accepted env repoId s (Φ : JobRow → Prop) E :
  (∀ k, repositories_fault env k = None) →
  hoare (λ w, Φ (job_row w)) (updateRepositoryStatus env repoId s)
    (λ _ w, Φ (job_row w) ∧ repository_status w = s) E.
Proof.
  intros Hok w Hw. unfold updateRepositoryStatus, bind, next_repositories_call.
  cbn [fst snd]. rewrite Hok.
  unfold write_repository_status, emit, modify. by cbn.
Qed.

Lemma finalizer_returns env w :
  (finalizer env w).1 = Return () ∧
  job_row (finalizer env w).2 = job_row w ∧
  repository_status (finalizer env w).2 = repository_status w.
Proof.
  unfold finalizer. destruct (cleanup w) as [dir|]; [|done].
  unfold cleanupTempDir, bind, emit, logger, modify, ret.
  by destruct (fs_remove env).
Qed.

Lemma hoare_finalizer_rows env (Φ : JobRow → string → Prop) E :
  hoare (λ w, Φ (job_row w) (repository_status w)) (finalizer env)
    (λ _ w, Φ (job_row w) (repository_status w)) E.
Proof.
  intros w Hw. destruct (finalizer_returns env w) as (Hr & Hj & Hs).
  destruct (finalizer env w) as [[[]|e] w']; simpl in *; [|discriminate].
  by rewrite Hj, Hs.
Qed.

Section Accepting.

Variable env : Env.
Hypothesis Hstore : store_accepts_updates env.

Lemma hoare_pipeline_completed jobId repoId :
  hoare (λ _, True) (pipeline env jobId repoId)
    (λ r w, r_status r = completed ∧ completed_row (job_row w) ∧
            repository_status w = "completed")
    (λ _ _, True).
Proof.
  destruct Hstore as [Hjobs Hrepos].
  unfold pipeline. any_step.
  destruct (fetch_repository env) as [repo repoError].
  destruct repoError as [e|]; [by apply hoare_throw|].
  destruct repo as [repo|]; [|by apply hoare_throw].
  do 13 any_step.
  eapply hoare_bind; [apply hoare_any|intros ?].
  eapply hoare_bind; [apply hoare_any|intros ?].
  eapply hoare_bind; [apply hoare_any|intros finished].
  eapply hoare_bind.
  { apply (hoare_update_accepted env jobId _ completed_row); [exact Hjobs|].
    intros r. unfold completed_row. simpl. eauto. }
  intros ?. eapply hoare_bind.
  { apply (hoare_repository_accepted env repoId "completed" completed_row).
    exact Hrepos. }
  intros ?. eapply hoare_bind.
  { instantiate (1 := λ _ w, completed_row (job_row w) ∧
                             repository_status w = "completed").
    by intros w Hw. }
  intros ?. apply hoare_ret. by intros w [? ?].
Qed.

Lemma hoare_on_error_failed jobId repoId e Q :
  hoare (λ _, True) (on_error env jobId repoId e) Q
    (λ e' w, failed_with e' (job_row w) ∧ repository_status w = "failed").
Proof.
  destruct Hstore as [Hjobs Hrepos].
  unfold on_error.
  total_bind_step total_auto. intros ?.
  total_bind_step total_auto. intros ?.
  total_bind_step total_auto. intros finished.
  eapply hoare_bind.
  { apply (hoare_update_accepted _ _ _ (failed_with e)); [exact Hjobs|].
    intros r. unfold failed_with. simpl. eauto. }
  intros ?. eapply hoare_bind.
  { apply (hoare_repository_accepted env repoId "failed" (failed_with e)).
    exact Hrepos. }
  intros ?. by apply hoare_throw.
Qed.

End Accepting.

(** Whatever goes wrong in a run (the repository is missing, the clone or
    the listing of the files fails, the aggregate report is refused), a
    store that accepts the status updates ends up saying what the queue
    is told: a run that returns leaves the job completed at progress 100
    and the repository completed; a run that raises [e] leaves the job
    failed with the message of [e] and the repository failed. *)
Theorem outcome_matches_store (env : Env) (job : ReviewQueue.JobData)
    (w : World) :
  store_accepts_updates env →
  let run := processReviewJob env job w in
  match run.1 with
  | Return r =>
      r_status r = completed ∧ completed_row (job_row run.2) ∧
      repository_status run.2 = "completed"
  | Throw e =>
      failed_with e (job_row run.2) ∧ repository_status run.2 = "failed"
  end.
Proof.
  intros Hstore run. subst run.
  assert (H : hoare (λ _, True) (processReviewJob env job)
    (λ r w, r_status r = completed ∧ completed_row (job_row w) ∧
            repository_status w = "completed")
    (λ e w, failed_with e (job_row w) ∧ repository_status w = "failed")).
  { unfold processReviewJob.
    eapply hoare_try
      with (Q' := λ r w, r_status r = completed ∧ completed_row (job_row w) ∧
                         repository_status w = "completed")
           (E' := λ _ _, True)
           (E'' := λ e w, failed_with e (job_row w) ∧
                          repository_status w = "failed").
    - by apply hoare_pipeline_completed.
    - intros e. by apply hoare_on_error_failed.
    - intros r. apply hoare_pure. intros Hr.
      eapply hoare_conseq;
        [apply (hoare_finalizer_rows env
                  (λ j s, completed_row j ∧ s = "completed")
                  (λ e w, failed_with e (job_row w) ∧
                          repository_status w = "failed"))|..]; done.
    - intros e.
      eapply hoare_conseq;
        [apply (hoare_finalizer_rows env
                  (λ j s, failed_with e j ∧ s = "failed")
                  (λ e w, failed_with e (job_row w) ∧
                          repository_status w = "failed"))|..]; done. }
  specialize (H w I).
  by destruct (processReviewJob env job w) as [[r|e] w'].
Qed.

Lemma outcome_matches_store_witness :
  let run :=
    processReviewJob clone_fails_env sample_job
      (initial_world created_job "pending") in
  match run.1 with
  | Return r =>
      r_status r = completed ∧ completed_row (job_row run.2) ∧
      repository_status run.2 = "completed"
  | Throw e =>
      failed_with e (job_row run.2) ∧ repository_status run.2 = "failed"
  end.
Proof.
  apply (outcome_matches_store clone_fails_env sample_job).
  split; intros k; reflexivity.
Defined.

End RunProps.

(** ** The phases of a run *)

Module PhaseProps.
Import Js Double Worker Accounting Hoare Observations Phases Samples.
Import WorkerProps RunProps.

Lemma unmarked_ret {A} (a : A) : unmarked (ret a).
Proof. intros w. split; [done|]. exists []. by rewrite app_nil_r. Qed.

Lemma unmarked_throw {A} (e : Error) : unmarked (@throw A e).
Proof. intros w. split; [done|]. exists []. by rewrite app_nil_r. Qed.

Lemma unmarked_bind {A B} (m : M A) (k : A → M B) :
  unmarked m → (∀ a, unmarked (k a)) → unmarked (bind m k).
Proof.
  intros Hm Hk w. unfold bind. destruct (Hm w) as [Hc (Δ & Ht & Hs)].
  destruct (m w) as [[a|e] w1]; simpl in *; [|eauto].
  destruct (Hk a w1) as [Hc' (Δ' & Ht' & Hs')].
  split; [congruence|]. exists (Δ ++ Δ'). split.
  - by rewrite Ht', Ht, app_assoc.
  - by apply Forall_app.
Qed.

Lemma unmarked_emit (ev : Event) : marks ev = false → unmarked (emit ev).
Proof.
  intros Hs w. split; [done|]. exists [ev]. split; [done|]. by constructor.
Qed.

Lemma unmarked_same {A} (m : M A) :
  (∀ w, cleanup (m w).2 = cleanup w ∧ trace (m w).2 = trace w) → unmarked m.
Proof.
  intros H w. destruct (H w) as [H1 H2]. split; [done|].
  exists []. by rewrite app_nil_r.
Qed.

Lemma unmarked_logger lvl msg : unmarked (logger lvl msg).
Proof. by apply unmarked_same. Qed.

Lemma unmarked_now : unmarked now.
Proof. by apply unmarked_same. Qed.

Lemma unmarked_foldM {A B} (f : B → A → M B) (l : list A) (b : B) :
  (∀ b a, unmarked (f b a)) → unmarked (foldM f l b).
Proof.
  intros Hf. revert b. induction l as [|a l IH]; intros b; simpl.
  - apply unmarked_ret.
  - apply unmarked_bind; [apply Hf|]. intros b'. apply IH.
Qed.

Ltac unmarked_step :=
  lazymatch goal with
  | |- unmarked (bind _ _) => apply unmarked_bind; [|intros ?]
  | |- unmarked (ret _) => apply unmarked_ret
  | |- unmarked (throw _) => apply unmarked_throw
  | |- unmarked (logger _ _) => apply unmarked_logger
  | |- unmarked now => apply unmarked_now
  | |- unmarked (job_progress _) => apply unmarked_emit; reflexivity
  | |- unmarked (emit _) => apply unmarked_emit; reflexivity
  end.

Ltac unmarked_auto := repeat unmarked_step.

(** An update of the job's row that carries no status. *)
Lemma unmarked_updateJobStatus env jobId u :
  u_status u = None → unmarked (updateJobStatus env jobId u).
Proof.
  intros Hu. unfold updateJobStatus. apply unmarked_bind; [by apply unmarked_same|].
  intros k. destruct (jobs_fault env k); unmarked_auto.
  - by apply unmarked_same.
  - apply unmarked_emit. simpl. rewrite Hu. done.
Qed.

Lemma unmarked_parseCodeFiles env dir : unmarked (parseCodeFiles env dir).
Proof.
  unfold parseCodeFiles. unmarked_auto. destruct (list_files env); unmarked_auto.
Qed.

Lemma unmarked_analyzeCode env f : unmarked (Worker.analyzeCode env f).
Proof.
  unfold Worker.analyzeCode. unmarked_auto.
  destruct (Orchestrator.analyzeCode _ _ _ _); unmarked_auto.
Qed.

Lemma unmarked_analyze_file env jobId len acc i f :
  unmarked (analyze_file env jobId len acc i f).
Proof.
  unfold analyze_file. apply unmarked_bind; [apply unmarked_analyzeCode|].
  intros results. apply unmarked_bind.
  { destruct (Orchestrator.success results); unmarked_auto. }
  intros acc'. apply unmarked_bind; [by apply unmarked_updateJobStatus|].
  intros ?. unmarked_auto.
Qed.

Lemma unmarked_analyze_files env jobId len files i acc :
  unmarked (analyze_files env jobId len files i acc).
Proof.
  revert i acc. induction files as [|f files IH]; intros i acc; simpl.
  - apply unmarked_ret.
  - apply unmarked_bind; [apply unmarked_analyze_file|]. intros acc'. apply IH.
Qed.

Lemma unmarked_save_results env row : unmarked (save_results env row).
Proof.
  unfold save_results. destruct (results_fault env); unmarked_auto;
    by apply unmarked_same.
Qed.

Lemma unmarked_insert_batch env i batch : unmarked (insert_batch env i batch).
Proof.
  unfold insert_batch. destruct (reviews_fault env _); unmarked_auto;
    by apply unmarked_same.
Qed.

Lemma unmarked_insert_batches env fuel all i n :
  unmarked (insert_batches env fuel all i n).
Proof.
  revert i n. induction fuel as [|fuel IH]; intros i n; simpl; unmarked_auto.
  destruct (_ <? _)%nat; unmarked_auto. { apply unmarked_insert_batch. } apply IH.
Qed.

Lemma unmarked_push_finding jobId repoId agentMap filePath all issue :
  unmarked (push_finding jobId repoId agentMap filePath all issue).
Proof.
  unfold push_finding. unmarked_auto. destruct (truthy_str _); unmarked_auto.
Qed.

Lemma unmarked_extract_file jobId repoId agentMap all fr :
  unmarked (extract_file jobId repoId agentMap all fr).
Proof.
  unfold extract_file. destruct (String.eqb _ _); unmarked_auto.
  apply unmarked_foldM. intros. apply unmarked_push_finding.
Qed.

Lemma unmarked_save_findings env jobId repoId results :
  unmarked (save_findings env jobId repoId results).
Proof.
  unfold save_findings. apply unmarked_bind; [unmarked_auto|intros _].
  destruct (fetch_agents env) as [agents agentsError].
  apply unmarked_bind; [destruct agentsError; unmarked_auto|intros _].
  apply unmarked_bind; [destruct agents; unmarked_auto|intros _].
  apply unmarked_bind;
    [apply unmarked_foldM; intros; apply unmarked_extract_file|intros all].
  destruct all; unmarked_auto. apply unmarked_insert_batches.
Qed.


(** *** What a run has written so far *)

Lemma marks_false_job ev :
  marks ev = false →
  match ev with EvJobUpdate u true => u_status u | _ => None end = None.
Proof.
  destruct ev as [| u [] | | | | | | | | |]; try done.
  simpl. intros H. apply bool_decide_eq_false in H.
  destruct (u_status u); [exfalso; apply H; eauto|done].
Qed.

Lemma summary_nil (Δ : list Event) :
  Forall (λ ev, marks ev = false) Δ →
  job_statuses Δ = [] ∧ repository_statuses Δ = [] ∧
  clones Δ = [] ∧ removed_dirs Δ = [].
Proof.
  unfold job_statuses, repository_statuses, clones, removed_dirs.
  induction 1 as [|ev Δ Hev _ (IH1 & IH2 & IH3 & IH4)]; [done|].
  cbn [omap list_omap]. rewrite (marks_false_job ev Hev), IH1, IH2, IH3, IH4.
  by destruct ev as [| u [] | s [] | | | | | | | |].
Qed.

Lemma summary_unmarked (t Δ : list Event) :
  Forall (λ ev, marks ev = false) Δ →
  job_statuses (t ++ Δ) = job_statuses t ∧
  repository_statuses (t ++ Δ) = repository_statuses t ∧
  clones (t ++ Δ) = clones t ∧
  removed_dirs (t ++ Δ) = removed_dirs t.
Proof.
  intros HΔ. destruct (summary_nil Δ HΔ) as (E1 & E2 & E3 & E4).
  unfold job_statuses, repository_statuses, clones, removed_dirs in *.
  rewrite !omap_app, E1, E2, E3, E4. by rewrite !app_nil_r.
Qed.

Lemma St_unmarked {A} (m : M A) js rs cl rm c w :
  unmarked m → St js rs cl rm c w → St js rs cl rm c (m w).2.
Proof.
  intros Hm [H1 H2 H3 H4 H5]. destruct (Hm w) as [Hc (Δ & Ht & HΔ)].
  destruct (summary_unmarked (trace w) Δ HΔ) as (E1 & E2 & E3 & E4).
  split; rewrite ?Ht, ?Hc; congruence.
Qed.

Lemma summary_snoc (t : list Event) (ev : Event) :
  job_statuses (t ++ [ev])
  = job_statuses t ++
      match ev with
      | EvJobUpdate u true => option_list (u_status u)
      | _ => []
      end ∧
  repository_statuses (t ++ [ev])
  = repository_statuses t ++
      match ev with EvRepositoryStatus s true => [s] | _ => [] end ∧
  clones (t ++ [ev])
  = clones t ++ match ev with EvClone u b => [(u, b)] | _ => [] end ∧
  removed_dirs (t ++ [ev])
  = removed_dirs t ++ match ev with EvRemoveDir d => [d] | _ => [] end.
Proof.
  unfold job_statuses, repository_statuses, clones, removed_dirs.
  rewrite !omap_app. cbn [omap list_omap].
  by destruct ev as [| u [] | s [] | | | | | | | |].
Qed.


(** *** The steps of a run *)

Lemma updateJobStatus_run env jobId u w :
  let r := updateJobStatus env jobId u w in
  cleanup r.2 = cleanup w ∧
  match jobs_fault env (jobs_calls w) with
  | Some e => r.1 = Throw e ∧ trace r.2 = trace w ++ [EvJobUpdate u false]
  | None => r.1 = Return () ∧ trace r.2 = trace w ++ [EvJobUpdate u true]
  end.
Proof.
  unfold updateJobStatus, bind, next_jobs_call. cbn [fst snd].
  destruct (jobs_fault env (jobs_calls w)); by cbn.
Qed.

Lemma updateRepositoryStatus_run env repoId s w :
  let r := updateRepositoryStatus env repoId s w in
  cleanup r.2 = cleanup w ∧
  match repositories_fault env (repositories_calls w) with
  | Some e =>
      r.1 = Throw e ∧ trace r.2 = trace w ++ [EvRepositoryStatus s false]
  | None =>
      r.1 = Return () ∧ trace r.2 = trace w ++ [EvRepositoryStatus s true]
  end.
Proof.
  unfold updateRepositoryStatus, bind, next_repositories_call. cbn [fst snd].
  destruct (repositories_fault env (repositories_calls w)); by cbn.
Qed.

Lemma cloneRepository_run env url br w :
  let r := cloneRepository env url br w in
  cleanup r.2 = cleanup w ∧
  match git_clone env with
  | Some e =>
      r.1 = Throw (new_Error ("Clone failed: " +:+ message e)) ∧
      trace r.2 = trace w ++ [EvClone url br; EvRemoveDir (temp_dir env)]
  | None =>
      r.1 = Return (temp_dir env) ∧ trace r.2 = trace w ++ [EvClone url br]
  end.
Proof.
  unfold cloneRepository, cleanupTempDir, bind, emit, logger, modify, ret, throw.
  destruct (git_clone env); [|by cbn].
  destruct (fs_remove env); cbn; by rewrite <- app_assoc.
Qed.

Lemma finalizer_run env w :
  let r := finalizer env w in
  r.1 = Return () ∧ cleanup r.2 = cleanup w ∧
  trace r.2 = trace w ++
    match cleanup w with Some dir => [EvRemoveDir dir] | None => [] end.
Proof.
  unfold finalizer. destruct (cleanup w) as [dir|] eqn:Hc; cbn zeta.
  - unfold cleanupTempDir, bind, emit, logger, modify, ret.
    by destruct (fs_remove env).
  - cbn. by rewrite app_nil_r.
Qed.

Lemma St_snoc js rs cl rm c w w' ev :
  trace w' = trace w ++ [ev] → cleanup w' = cleanup w →
  St js rs cl rm c w →
  St (js ++ match ev with
            | EvJobUpdate u true => option_list (u_status u)
            | _ => []
            end)
     (rs ++ match ev with EvRepositoryStatus s true => [s] | _ => [] end)
     (cl ++ match ev with EvClone u b => [(u, b)] | _ => [] end)
     (rm ++ match ev with EvRemoveDir d => [d] | _ => [] end)
     c w'.
Proof.
  intros Ht Hc [H1 H2 H3 H4 H5].
  destruct (summary_snoc (trace w) ev) as (E1 & E2 & E3 & E4).
  split; rewrite ?Ht, ?Hc; congruence.
Qed.


Lemma St_eq js rs cl rm c js' rs' cl' rm' c' w :
  St js rs cl rm c w →
  js = js' → rs = rs' → cl = cl' → rm = rm' → c = c' →
  St js' rs' cl' rm' c' w.
Proof. by intros H <- <- <- <- <-. Qed.

Section Run.

Variable env : Env.
Variables jobId repoId : string.
Variable target : string * string.

Local Abbreviation At := (AtPhase target (temp_dir env)).
Local Abbreviation Stop := (λ (_ : Error) w, Stopped target (temp_dir env) w).

Lemma ph_unmarked {A} (p : Phase) (m : M A) :
  p ≠ Finished → unmarked m → hoare (At p) m (λ _, At p) Stop.
Proof.
  intros Hp Hm w Hw. pose proof (St_unmarked m _ _ _ _ _ w Hm Hw) as Hw'.
  destruct (m w) as [[a|e] w']; [done|]. by exists p.
Qed.

Lemma ph_job (p p' : Phase) (u : JobUpdate) (s : JobStatus) :
  p ≠ Finished → u_status u = Some s →
  phase_job p ++ [s] = phase_job p' →
  phase_repository p = phase_repository p' →
  phase_cloned p = phase_cloned p' →
  phase_removed p = phase_removed p' →
  phase_cleanup p = phase_cleanup p' →
  hoare (At p) (updateJobStatus env jobId u) (λ _, At p') Stop.
Proof.
  intros Hp Hu E1 E2 E3 E4 E5 w Hw.
  destruct (updateJobStatus_run env jobId u w) as [Hc Hrun].
  destruct (jobs_fault env (jobs_calls w)) as [e|];
    destruct Hrun as [Hr Ht];
    destruct (updateJobStatus env jobId u w) as [[[]|e'] w'];
    simpl in *; try discriminate;
    pose proof (St_snoc _ _ _ _ _ w w' _ Ht Hc Hw) as Hw'; cbn beta iota in Hw'.
  - exists p. split; [done|]. eapply St_eq; [exact Hw'|..]; by rewrite ?app_nil_r.
  - rewrite Hu in Hw'. unfold AtPhase. rewrite <- E1, <- E2, <- E3, <- E4, <- E5.
    eapply St_eq; [exact Hw'|..]; by rewrite ?app_nil_r.
Qed.

Lemma ph_repository (p p' : Phase) (s : string) :
  p ≠ Finished →
  phase_job p = phase_job p' →
  phase_repository p ++ [s] = phase_repository p' →
  phase_cloned p = phase_cloned p' →
  phase_removed p = phase_removed p' →
  phase_cleanup p = phase_cleanup p' →
  hoare (At p) (updateRepositoryStatus env repoId s) (λ _, At p') Stop.
Proof.
  intros Hp E1 E2 E3 E4 E5 w Hw.
  destruct (updateRepositoryStatus_run env repoId s w) as [Hc Hrun].
  destruct (repositories_fault env (repositories_calls w)) as [e|];
    destruct Hrun as [Hr Ht];
    destruct (updateRepositoryStatus env repoId s w) as [[[]|e'] w'];
    simpl in *; try discriminate;
    pose proof (St_snoc _ _ _ _ _ w w' _ Ht Hc Hw) as Hw'; cbn beta iota in Hw'.
  - exists p. split; [done|]. eapply St_eq; [exact Hw'|..]; by rewrite ?app_nil_r.
  - unfold AtPhase. rewrite <- E1, <- E2, <- E3, <- E4, <- E5.
    eapply St_eq; [exact Hw'|..]; by rewrite ?app_nil_r.
Qed.

Lemma ph_clone (url br : string) :
  target = (url, br) →
  hoare (At Cloning) (cloneRepository env url br)
    (λ d w, d = temp_dir env ∧
            St [processing] ["cloning"] [target] [] None w)
    Stop.
Proof.
  intros -> w Hw.
  destruct (cloneRepository_run env url br w) as [Hc Hrun].
  destruct (git_clone env) as [e|]; destruct Hrun as [Hr Ht];
    destruct (cloneRepository env url br w) as [[d|e'] w'];
    simpl in *; try discriminate.
  - exists CloneFailed. split; [done|].
    change [EvClone url br; EvRemoveDir (temp_dir env)]
      with ([EvClone url br] ++ [EvRemoveDir (temp_dir env)]) in Ht.
    destruct Hw as [H1 H2 H3 H4 H5].
    destruct (summary_snoc (trace w ++ [EvClone url br])
                (EvRemoveDir (temp_dir env))) as (E1 & E2 & E3 & E4).
    destruct (summary_snoc (trace w) (EvClone url br)) as (F1 & F2 & F3 & F4).
    rewrite app_assoc in Ht.
    split; rewrite ?Ht, ?Hc, ?E1, ?E2, ?E3, ?E4, ?F1, ?F2, ?F3, ?F4,
             ?H1, ?H2, ?H3, ?H4, ?H5; done.
  - injection Hr as ->. split; [done|].
    pose proof (St_snoc _ _ _ _ _ w w' _ Ht Hc Hw) as Hw'.
    eapply St_eq; [exact Hw'|..]; done.
Qed.

Lemma ph_set_cleanup (d : string) :
  hoare (λ w, d = temp_dir env ∧
              St [processing] ["cloning"] [target] [] None w)
    (set_cleanup d) (λ _, At Cloned) Stop.
Proof. intros w [-> [H1 H2 H3 H4 H5]]. by split. Qed.

Lemma hoare_pipeline_phases :
  (∀ repo, fetch_repository env = (Some repo, None) →
           target = (repo_url repo, branch repo)) →
  hoare (At Fetched) (pipeline env jobId repoId) (λ _, At Finished) Stop.
Proof.
  intros Htarget. unfold pipeline.
  eapply hoare_bind; [apply ph_unmarked; [done|unmarked_auto]|intros ?].
  destruct (fetch_repository env) as [repo repoError].
  assert (Hthrow : ∀ msg,
    hoare (At Fetched) (throw (new_Error msg) : M JobResult)
      (λ _, At Finished) Stop).
  { intros msg. apply hoare_throw. intros w Hw. by exists Fetched. }
  destruct repoError as [e|]; [apply Hthrow|].
  destruct repo as [repo|]; [|apply Hthrow].
  eapply hoare_bind; [apply ph_unmarked; [done|unmarked_auto]|intros started].
  eapply hoare_bind; [by apply (ph_job Fetched Started _ processing)|intros ?].
  eapply hoare_bind; [by apply (ph_repository Started Cloning)|intros ?].
  eapply hoare_bind; [apply ph_unmarked; [done|unmarked_auto]|intros ?].
  eapply hoare_bind; [apply ph_clone; by apply Htarget|intros d].
  eapply hoare_bind; [apply ph_set_cleanup|intros ?].
  eapply hoare_bind; [apply ph_unmarked; [done|unmarked_auto]|intros ?].
  eapply hoare_bind; [by apply (ph_repository Cloned Analyzing)|intros ?].
  eapply hoare_bind;
    [apply ph_unmarked; [done|apply unmarked_parseCodeFiles]|intros files].
  eapply hoare_bind;
    [apply ph_unmarked; [done|by apply unmarked_updateJobStatus]|intros ?].
  eapply hoare_bind; [apply ph_unmarked; [done|unmarked_auto]|intros ?].
  eapply hoare_bind;
    [apply ph_unmarked; [done|apply unmarked_analyze_files]|intros totals].
  eapply hoare_bind; [apply ph_unmarked; [done|unmarked_auto]|intros created].
  eapply hoare_bind;
    [apply ph_unmarked; [done|apply unmarked_save_results]|intros ?].
  eapply hoare_bind;
    [apply ph_unmarked; [done|apply unmarked_save_findings]|intros ?].
  eapply hoare_bind; [apply ph_unmarked; [done|unmarked_auto]|intros finished].
  eapply hoare_bind; [by apply (ph_job Analyzing Completed _ completed)|intros ?].
  eapply hoare_bind; [by apply (ph_repository Completed Finished)|intros ?].
  intros w Hw. unfold bind, job_progress, emit, modify, ret. cbn.
  pose proof (St_snoc _ _ _ _ _ w
    {| job_row := job_row w; repository_status := repository_status w;
       review_results := review_results w; reviews := reviews w;
       trace := trace w ++ [EvProgress 100]; log := log w;
       jobs_calls := jobs_calls w; repositories_calls := repositories_calls w;
       clock := clock w; cleanup := cleanup w |}
    (EvProgress 100) eq_refl eq_refl Hw) as Hw'.
  eapply St_eq; [exact Hw'|..]; by rewrite ?app_nil_r.
Qed.

Lemma hoare_on_error_phases (e : Error) :
  hoare (Stopped target (temp_dir env)) (on_error env jobId repoId e)
    (λ _ _, False)
    (λ _ w, ∃ p js rs, p ≠ Finished ∧ (js, rs) ∈ caught ∧
            Reached target (temp_dir env) p js rs false w).
Proof.
  intros w (p & Hp & Hw). unfold on_error.
  assert (Hhead : unmarked
    (logger Worker.error ("❌ Job failed: " +:+ message e);;;
     logger Worker.error (stack e);;; now)) by unmarked_auto.
  unfold bind at 1 2. unfold bind in Hhead.
  pose proof (St_unmarked _ _ _ _ _ _ w Hhead Hw) as Hw1.
  cbn beta in Hw1.
  destruct (logger Worker.error ("❌ Job failed: " +:+ message e) w)
    as [[[]|e0] w0] eqn:E0; [|discriminate E0].
  destruct (logger Worker.error (stack e) w0) as [[[]|e1] w1'] eqn:E1;
    [|discriminate E1].
  unfold bind at 1.
  destruct (now w1') as [[finished|e2] w1] eqn:E2; [|discriminate E2].
  set (u := {| u_status := Some failed; u_progress := None;
               u_total_files := None; u_processed_files := None;
               u_error_message := Some (message e); u_started_at := None;
               u_completed_at := Some finished |}).
  unfold bind at 1.
  destruct (updateJobStatus_run env jobId u w1) as [Hc Hrun].
  destruct (jobs_fault env (jobs_calls w1)) as [e'|];
    destruct Hrun as [Hr Ht];
    destruct (updateJobStatus env jobId u w1) as [[[]|e''] w2];
    simpl in Hr, Ht, Hc; try discriminate;
    pose proof (St_snoc _ _ _ _ _ w1 w2 _ Ht Hc Hw1) as Hw2;
    cbn beta iota in Hw2.
  { exists p, [], []. split; [done|]. split; [by left|].
    eapply St_eq; [exact Hw2|..]; rewrite ?app_nil_r; try done.
    by destruct (phase_removed p). }
  unfold bind at 1.
  destruct (updateRepositoryStatus_run env repoId "failed" w2) as [Hc' Hrun'].
  destruct (repositories_fault env (repositories_calls w2)) as [e'|];
    destruct Hrun' as [Hr' Ht'];
    destruct (updateRepositoryStatus env repoId "failed" w2) as [[[]|e''] w3];
    simpl in Hr', Ht', Hc'; try discriminate;
    pose proof (St_snoc _ _ _ _ _ w2 w3 _ Ht' Hc' Hw2) as Hw3;
    cbn beta iota in Hw3.
  - exists p, [failed], []. split; [done|].
    split; [right; by left|].
    eapply St_eq; [exact Hw3|..]; rewrite ?app_nil_r; try done.
    by destruct (phase_removed p).
  - exists p, [failed], ["failed"]. split; [done|].
    split; [right; right; by left|].
    eapply St_eq; [exact Hw3|..]; rewrite ?app_nil_r; try done.
    by destruct (phase_removed p).
Qed.

Lemma hoare_finalizer_phases (p : Phase) js rs E :
  hoare (Reached target (temp_dir env) p js rs false) (finalizer env)
    (λ _, Reached target (temp_dir env) p js rs true) E.
Proof.
  intros w Hw. destruct (finalizer_run env w) as (Hr & Hc & Ht).
  destruct (finalizer env w) as [[[]|e] w']; simpl in *; [|discriminate].
  destruct Hw as [H1 H2 H3 H4 H5]. rewrite H5 in Ht.
  assert (Hsum : ∀ Δ, trace w' = trace w ++ Δ →
            Forall (λ ev, match ev with EvRemoveDir _ => True | _ => False end) Δ →
            job_statuses (trace w') = job_statuses (trace w) ∧
            repository_statuses (trace w') = repository_statuses (trace w) ∧
            clones (trace w') = clones (trace w) ∧
            removed_dirs (trace w') = removed_dirs (trace w) ++ removed_dirs Δ).
  { intros Δ -> HΔ.
    unfold job_statuses, repository_statuses, clones, removed_dirs.
    rewrite !omap_app.
    assert (omap (λ ev, match ev with
                        | EvJobUpdate u true => u_status u
                        | _ => None
                        end) Δ = [] ∧
            omap (λ ev, match ev with
                        | EvRepositoryStatus s true => Some s
                        | _ => None
                        end) Δ = [] ∧
            omap (λ ev, match ev with
                        | EvClone url branch => Some (url, branch)
                        | _ => None
                        end) Δ = []) as (-> & -> & ->).
    { induction HΔ as [|ev Δ Hev _ (IH1 & IH2 & IH3)]; [done|].
      cbn [omap list_omap]. rewrite IH1, IH2, IH3. by destruct ev. }
    by rewrite !app_nil_r. }
  destruct (phase_cleanup p) eqn:Hcl.
  - destruct (Hsum [EvRemoveDir (temp_dir env)] Ht) as (E1 & E2 & E3 & E4);
      [by repeat constructor|].
    split; rewrite ?E1, ?E2, ?E3, ?E4, ?Hc, ?Hcl, ?H1, ?H2, ?H3, ?H4, ?H5;
      try done.
    by destruct p.
  - rewrite app_nil_r in Ht.
    split; rewrite ?Ht, ?Hc, ?Hcl, ?H1, ?H2, ?H3, ?H4, ?H5; try done.
Qed.

End Run.

Lemma run_ends (env : Env) (job : ReviewQueue.JobData) (j : JobRow)
    (s : string) :
  let target := clone_target env in
  let run := processReviewJob env job (initial_world j s) in
  ∃ p js rs,
    Reached target (temp_dir env) p js rs true run.2 ∧
    match run.1 with
    | Return _ => p = Finished ∧ js = [] ∧ rs = []
    | Throw _ => p ≠ Finished ∧ (js, rs) ∈ caught
    end.
Proof.
  intros target run. subst run.
  assert (H : hoare (AtPhase target (temp_dir env) Fetched)
    (processReviewJob env job)
    (λ _ w, Reached target (temp_dir env) Finished [] [] true w)
    (λ _ w, ∃ p js rs, p ≠ Finished ∧ (js, rs) ∈ caught ∧
            Reached target (temp_dir env) p js rs true w)).
  { unfold processReviewJob.
    eapply hoare_try
      with (Q' := λ _, AtPhase target (temp_dir env) Finished)
           (E' := λ _, Stopped target (temp_dir env))
           (E'' := λ _ w, ∃ p js rs, p ≠ Finished ∧ (js, rs) ∈ caught ∧
                          Reached target (temp_dir env) p js rs false w).
    - apply hoare_pipeline_phases. intros repo Hrepo.
      unfold target, clone_target. by rewrite Hrepo.
    - intros e. eapply hoare_conseq; [apply hoare_on_error_phases|..]; done.
    - intros r. eapply hoare_conseq;
        [apply (hoare_finalizer_phases env target Finished [] []
                  (λ _ w, ∃ p js rs, p ≠ Finished ∧ (js, rs) ∈ caught ∧
                          Reached target (temp_dir env) p js rs true w))|..];
        try done.
    - intros e w (p & js & rs & Hp & Hin & Hw).
      pose proof (hoare_finalizer_phases env target p js rs (λ _ _, False) w Hw) as Hf.
      destruct (finalizer env w) as [[[]|e'] w']; [|done].
      by exists p, js, rs. }
  specialize (H (initial_world j s)).
  destruct (processReviewJob env job (initial_world j s)) as [[r|e] w'].
  - exists Finished, [], []. split; [apply H; by split|done].
  - destruct H as (p & js & rs & Hp & Hin & Hw); [by split|].
    by exists p, js, rs.
Qed.

Ltac in_list :=
  repeat first [apply list_elem_of_here | apply list_elem_of_further].

Ltac caught_cases H :=
  unfold caught in H;
  repeat (apply elem_of_cons in H as [[= -> ->]|H]);
  [..|by apply elem_of_nil in H].

(** The statuses a run writes to the job's row are, in this order, at
    most processing, completed and failed, completed never coming without
    processing before it; a run that returns has written processing and
    completed and nothing else.  Failed after completed does occur: when
    the update that marks the repository completed is refused. *)
Theorem job_statuses_of_a_run (env : Env) (job : ReviewQueue.JobData)
    (j : JobRow) (s : string) :
  let run := processReviewJob env job (initial_world j s) in
  job_statuses (trace run.2)
    ∈ [[]; [failed]; [processing]; [processing; failed];
       [processing; completed]; [processing; completed; failed]] ∧
  (∀ r, run.1 = Return r →
        job_statuses (trace run.2) = [processing; completed]) ∧
  job_statuses
    (trace (processReviewJob late_refusal_env sample_job
              (initial_world created_job "pending")).2)
  = [processing; completed; failed].
Proof.
  intros run. subst run.
  destruct (run_ends env job j s) as (p & js & rs & [H1 _ _ _ _] & Hout).
  split; [|split; [|by vm_compute]].
  - rewrite H1.
    destruct (processReviewJob env job (initial_world j s)).1.
    + destruct Hout as (-> & -> & _). simpl. in_list.
    + destruct Hout as [Hp Hin]. caught_cases Hin;
        destruct p; try done; simpl; in_list.
  - intros r Hr. rewrite Hr in Hout. destruct Hout as (-> & -> & _).
    by rewrite H1.
Qed.

(** The statuses a run writes to the repository's row are cloning, then
    analyzing, then completed, cut short at any point and then possibly
    followed by failed; a run that returns has written the three; a run
    that raises never marks the repository completed. *)
Theorem repository_statuses_of_a_run (env : Env) (job : ReviewQueue.JobData)
    (j : JobRow) (s : string) :
  let run := processReviewJob env job (initial_world j s) in
  repository_statuses (trace run.2)
    ∈ [[]; ["failed"]; ["cloning"]; ["cloning"; "failed"];
       ["cloning"; "analyzing"]; ["cloning"; "analyzing"; "failed"];
       ["cloning"; "analyzing"; "completed"]] ∧
  (∀ r, run.1 = Return r →
        repository_statuses (trace run.2)
        = ["cloning"; "analyzing"; "completed"]) ∧
  (∀ e, run.1 = Throw e → "completed" ∉ repository_statuses (trace run.2)).
Proof.
  intros run. subst run.
  destruct (run_ends env job j s) as (p & js & rs & [_ H2 _ _ _] & Hout).
  rewrite H2.
  destruct (processReviewJob env job (initial_world j s)).1 as [r|e].
  - destruct Hout as (-> & _ & ->). simpl.
    split; [in_list|]. split; [done|]. by intros e.
  - destruct Hout as [Hp Hin]. split; [|split; [by intros r|]].
    + caught_cases Hin; destruct p; try done; simpl; in_list.
    + intros e0 _ Hc. caught_cases Hin; destruct p; try done; simpl in Hc;
        repeat (apply elem_of_cons in Hc as [Hc|Hc]; [discriminate Hc|]);
        by apply elem_of_nil in Hc.
Qed.

(** A run attempts at most one clone, of the repository and branch of the
    row it loaded, and removes the temporary directory exactly once when
    it attempted the clone (whether the clone, a later step or nothing
    failed) and never otherwise. *)
Theorem temp_dir_removed_once (env : Env) (job : ReviewQueue.JobData)
    (j : JobRow) (s : string) :
  let t := trace (processReviewJob env job (initial_world j s)).2 in
  match clones t with
  | [] => removed_dirs t = []
  | c :: cs =>
      c = clone_target env ∧ cs = [] ∧ removed_dirs t = [temp_dir env]
  end.
Proof.
  intros t. subst t.
  destruct (run_ends env job j s) as (p & js & rs & [_ _ H3 H4 _] & _).
  rewrite H3, H4. by destruct p.
Qed.

End PhaseProps.

(** ** Runs against a failing store *)

Module FaultProps.
Import Js Double Worker Accounting Hoare Observations Phases Samples.
Import WorkerProps.

Ltac step_refused H0 H1 :=
  erewrite run_bind;
    [|run_head; rewrite ?H0, ?H1; run_head; reflexivity];
  cbv beta iota; world_simpl.

(** When the store refuses every update of the job's row, a run changes
    neither that row nor the repository's, attempts no clone, and raises
    the store's error: the one given to the update that should have marked
    the job failed, whatever made the run fail in the first place. *)
Theorem refused_job_updates_hide_the_cause (env : Env)
    (job : ReviewQueue.JobData) (j : JobRow) (s : string) :
  (∀ k, is_Some (jobs_fault env k)) →
  let run := processReviewJob env job (initial_world j s) in
  job_row run.2 = j ∧ repository_status run.2 = s ∧
  clones (trace run.2) = [] ∧
  ∃ k e, jobs_fault env k = Some e ∧ run.1 = Throw e.
Proof.
  intros Hdown run. subst run.
  destruct (Hdown 0%nat) as [e0 H0]. destruct (Hdown 1%nat) as [e1 H1].
  unfold processReviewJob, try_catch_finally, pipeline, initial_world.
  step_refused H0 H1.
  destruct (fetch_repository env) as [[repo|] [err|]];
    repeat step_refused H0 H1;
    cbv beta iota zeta delta [throw]; unfold on_error;
    repeat step_refused H0 H1;
    cbv beta iota zeta delta [throw finalizer]; world_simpl;
    repeat split; eauto.
Qed.

Lemma refused_job_updates_hide_the_cause_witness :
  let run :=
    processReviewJob store_down_env sample_job
      (initial_world created_job "pending") in
  job_row run.2 = created_job ∧ repository_status run.2 = "pending" ∧
  clones (trace run.2) = [] ∧
  ∃ k e, jobs_fault store_down_env k = Some e ∧ run.1 = Throw e.
Proof.
  apply (refused_job_updates_hide_the_cause store_down_env sample_job).
  intros k. by eexists.
Defined.

(** When the repository's row cannot be read, or is not there, the run
    makes three calls and no other: the read, the update that marks the
    job failed with the message "Repository not found: <id>", and the
    update that marks the repository failed.  The job is never marked
    processing and its [started_at] stays as it was. *)
Theorem missing_repository_fails_at_once (env : Env)
    (job : ReviewQueue.JobData) (j : JobRow) (s : string) :
  (∀ repo, fetch_repository env ≠ (Some repo, None)) →
  store_accepts_updates env →
  let jobId := ReviewQueue.jobId job in
  let repoId := ReviewQueue.repoId job in
  let msg := "Repository not found: " +:+ repoId in
  let run := processReviewJob env job (initial_world j s) in
  run.1 = Throw (new_Error msg) ∧
  trace run.2 =
    [EvFetchRepository repoId;
     EvJobUpdate
       {| u_status := Some failed; u_progress := None;
          u_total_files := None; u_processed_files := None;
          u_error_message := Some msg; u_started_at := None;
          u_completed_at := Some 0%nat |} true;
     EvRepositoryStatus "failed" true] ∧
  status (job_row run.2) = failed ∧
  error_message (job_row run.2) = Some msg ∧
  started_at (job_row run.2) = started_at j ∧
  repository_status run.2 = "failed".
Proof.
  intros Hmissing [Hjobs Hrepos] jobId repoId msg run. subst run msg.
  unfold processReviewJob, try_catch_finally, pipeline, initial_world.
  step.
  destruct (fetch_repository env) as [[repo|] [err|]];
    try (by destruct (Hmissing repo));
    cbv beta iota zeta delta [throw]; unfold on_error;
    repeat step;
    cbv beta iota zeta delta [throw finalizer]; world_simpl;
    repeat split.
Qed.

Lemma missing_repository_fails_at_once_witness :
  let run :=
    processReviewJob missing_repository_env sample_job
      (initial_world created_job "pending") in
  run.1 = Throw (new_Error "Repository not found: repo-1") ∧
  status (job_row run.2) = failed ∧
  started_at (job_row run.2) = None.
Proof.
  destruct (missing_repository_fails_at_once missing_repository_env
              sample_job created_job "pending")
    as (H1 & _ & H3 & _ & H5 & _).
  - intros repo. discriminate.
  - split; intros k; reflexivity.
  - split; [exact H1|]. split; [exact H3|exact H5].
Defined.

End FaultProps.

(** ** The rows of findings *)

Module FindingProps.
Import Js Double Worker Accounting Hoare Observations Findings.
Import WorkerProps.

Lemma push_finding_row jobId repoId agentMap filePath all issue w :
  ∃ row w',
    push_finding jobId repoId agentMap filePath all issue w
    = (Return (all ++ [row]), w') ∧
    f_job_id row = jobId ∧ f_repo_id row = repoId ∧
    code_snippet row = None ∧
    row_summary row = issue_summary (filePath, issue).
Proof.
  unfold push_finding.
  destruct (truthy_str (resolve_agentId _ _ _));
    unfold bind, ret, now, logger, modify; cbn; eexists _, _; repeat split.
Qed.

(** The rows one file adds. *)
Lemma push_findings_rows jobId repoId agentMap filePath issues all w :
  ∃ rows w',
    foldM (push_finding jobId repoId agentMap filePath) issues all w
    = (Return (all ++ rows), w') ∧
    Forall (λ row, f_job_id row = jobId ∧ f_repo_id row = repoId ∧
                   code_snippet row = None) rows ∧
    map row_summary rows = map issue_summary (map (pair filePath) issues).
Proof.
  revert all w. induction issues as [|i issues IH]; intros all w; simpl.
  - exists [], w. rewrite app_nil_r. by repeat split.
  - destruct (push_finding_row jobId repoId agentMap filePath all i w)
      as (row & w1 & Hrun & H1 & H2 & H3 & H4).
    unfold bind. rewrite Hrun.
    destruct (IH (all ++ [row]) w1) as (rows & w2 & Hrest & Hall & Hs).
    exists (row :: rows), w2. rewrite Hrest, <- app_assoc. simpl.
    repeat split; [by constructor|by rewrite H4, Hs].
Qed.

Lemma extract_files_rows jobId repoId agentMap results all w :
  ∃ rows w',
    foldM (extract_file jobId repoId agentMap) results all w
    = (Return (all ++ rows), w') ∧
    Forall (λ row, f_job_id row = jobId ∧ f_repo_id row = repoId ∧
                   code_snippet row = None) rows ∧
    map row_summary rows = map issue_summary (flattened results).
Proof.
  revert all w. induction results as [|fr results IH]; intros all w; simpl.
  - exists [], w. rewrite app_nil_r. by repeat split.
  - unfold bind, extract_file at 1.
    destruct (String.eqb (file fr) EmptyString) eqn:Hfile.
    + unfold bind, logger, modify, ret. cbn.
      match goal with |- context [foldM _ results all ?w1] =>
        destruct (IH all w1) as (rows & w2 & Hrest & Hall & Hs) end.
      exists rows, w2. by rewrite Hrest.
    + destruct (push_findings_rows jobId repoId agentMap (file fr)
                  (Orchestrator.allIssues (Worker.results fr)) all w)
        as (rows1 & w1 & Hrun & Hall1 & Hs1).
      rewrite Hrun.
      destruct (IH (all ++ rows1) w1) as (rows2 & w2 & Hrest & Hall2 & Hs2).
      exists (rows1 ++ rows2), w2. rewrite Hrest, <- app_assoc.
      repeat split; [by apply Forall_app|].
      by rewrite !map_app, Hs1, Hs2.
Qed.



(** *** The report and the rows agree *)






(** *** The batches *)

Lemma insert_batches_chunks env fuel all i n w :
  (length all - i ≤ fuel * BATCH_SIZE)%nat →
  let run := insert_batches env fuel all i n w in
  ∃ Δ, trace run.2 = trace w ++ Δ ∧
    concat (map fst (attempted Δ)) = drop i all ∧
    (∀ k b a, attempted Δ !! k = Some (b, a) →
       (0 < length b ≤ BATCH_SIZE)%nat ∧
       (S k < length (attempted Δ) → length b = BATCH_SIZE)%nat ∧
       (a = true ↔ reviews_fault env (i / BATCH_SIZE + k) = None)) ∧
    run.1 = Return (n + length (accepted_rows Δ))%nat ∧
    reviews run.2 = reviews w ++ accepted_rows Δ.
Proof.
  revert i n w. induction fuel as [|fuel IH]; intros i n w Hfuel run; subst run.
  - exists []. simpl. rewrite !app_nil_r, Nat.add_0_r.
    repeat split; try done. rewrite drop_ge; [done|lia].
  - cbn [insert_batches]. destruct (Nat.ltb_spec i (length all)) as [Hlt|Hge].
    2: { exists []. simpl. rewrite !app_nil_r, Nat.add_0_r.
         repeat split; try done. rewrite drop_ge; [done|lia]. }
    set (batch := take BATCH_SIZE (drop i all)).
    assert (Hsplit : batch ++ drop (i + BATCH_SIZE) all = drop i all).
    { subst batch. rewrite <- drop_drop. apply take_drop. }
    assert (Hlen : (0 < length batch ≤ BATCH_SIZE)%nat).
    { subst batch. rewrite length_take, length_drop. unfold BATCH_SIZE. lia. }
    assert (Hfull : (i + BATCH_SIZE < length all → length batch = BATCH_SIZE)%nat).
    { subst batch. rewrite length_take, length_drop. unfold BATCH_SIZE. lia. }
    assert (Hidx : ((i + BATCH_SIZE) / BATCH_SIZE = S (i / BATCH_SIZE))%nat).
    { unfold BATCH_SIZE.
      replace (i + 100)%nat with (i + 1 * 100)%nat by lia.
      rewrite Nat.div_add by lia. lia. }
    unfold bind, insert_batch.
    destruct (reviews_fault env (i / BATCH_SIZE)%nat) as [e|] eqn:Hf;
      unfold bind, emit, logger, write_reviews, modify, ret; cbn [fst snd];
      match goal with
      | |- context [insert_batches env fuel all ?i' ?n' ?w'] =>
          set (w1 := w');
          destruct (IH i' n' w1) as (Δ & Ht & Hcat & Hk & Hret & Hrev);
            [unfold BATCH_SIZE in *; lia|]
      end.
    + exists (EvInsertFindings batch false :: Δ).
      split; [rewrite Ht; unfold w1; cbn [trace]; by rewrite <- app_assoc|].
      split; [cbn; fold (attempted Δ); by rewrite Hcat|].
      split; [|split; [exact Hret|by rewrite Hrev]].
      intros [|k] b a Hlook; cbn in Hlook; fold (attempted Δ) in Hlook.
      * injection Hlook as <- <-. split; [done|]. split.
        -- cbn. fold (attempted Δ). intros Hmore. apply Hfull.
           destruct (attempted Δ) as [|[b' a'] rest] eqn:Hatt;
             [simpl in Hmore; lia|].
           assert (Hnil : drop (i + BATCH_SIZE) all ≠ []).
           { rewrite <- Hcat. simpl.
             destruct (Hk 0%nat b' a' eq_refl) as [Hb' _].
             destruct b'; [simpl in Hb'; lia|done]. }
           destruct (Nat.lt_ge_cases (i + BATCH_SIZE) (length all)); [done|].
           by rewrite drop_ge in Hnil.
        -- rewrite Nat.add_0_r, Hf. done.
      * destruct (Hk k b a Hlook) as (H1 & H2 & H3).
        split; [done|]. split.
        -- cbn. fold (attempted Δ). intros Hmore. apply H2. lia.
        -- rewrite H3, Hidx. by replace (S (i / BATCH_SIZE) + k)%nat
             with (i / BATCH_SIZE + S k)%nat by lia.
    + exists (EvInsertFindings batch true :: Δ).
      split; [rewrite Ht; unfold w1; cbn [trace]; by rewrite <- app_assoc|].
      split; [cbn; fold (attempted Δ); by rewrite Hcat|].
      split; [|split].
      * intros [|k] b a Hlook; cbn in Hlook; fold (attempted Δ) in Hlook.
        -- injection Hlook as <- <-. split; [done|]. split.
           ++ cbn. fold (attempted Δ). intros Hmore. apply Hfull.
              destruct (attempted Δ) as [|[b' a'] rest] eqn:Hatt;
                [simpl in Hmore; lia|].
              assert (Hnil : drop (i + BATCH_SIZE) all ≠ []).
              { rewrite <- Hcat. simpl.
                destruct (Hk 0%nat b' a' eq_refl) as [Hb' _].
                destruct b'; [simpl in Hb'; lia|done]. }
              destruct (Nat.lt_ge_cases (i + BATCH_SIZE) (length all)); [done|].
              by rewrite drop_ge in Hnil.
           ++ by rewrite Nat.add_0_r, Hf.
        -- destruct (Hk k b a Hlook) as (H1 & H2 & H3).
           split; [done|]. split.
           ++ cbn. fold (attempted Δ). intros Hmore. apply H2. lia.
           ++ rewrite H3, Hidx. by replace (S (i / BATCH_SIZE) + k)%nat
                with (i / BATCH_SIZE + S k)%nat by lia.
      * rewrite Hret. unfold accepted_rows. cbn. fold (attempted Δ).
        rewrite length_app. f_equal. lia.
      * rewrite Hrev. unfold w1, accepted_rows. cbn. fold (attempted Δ).
        by rewrite <- app_assoc.
Qed.

(** The findings go to the store in consecutive batches that together
    are the whole list: every batch but the last holds exactly 100 rows
    and the last holds the rest; batch number [k] is stored exactly when
    the store takes it, whatever happened to the batches before; and the
    count the loop ends with is the number of rows stored. *)
Theorem findings_go_in_batches (env : Env) (all : list FindingRow)
    (w : World) :
  let run := insert_batches env (length all) all 0 0 w in
  ∃ Δ, trace run.2 = trace w ++ Δ ∧
    concat (map fst (attempted Δ)) = all ∧
    (∀ k b a, attempted Δ !! k = Some (b, a) →
       (0 < length b ≤ BATCH_SIZE)%nat ∧
       (S k < length (attempted Δ) → length b = BATCH_SIZE)%nat ∧
       (a = true ↔ reviews_fault env k = None)) ∧
    run.1 = Return (length (accepted_rows Δ)) ∧
    reviews run.2 = reviews w ++ accepted_rows Δ.
Proof.
  intros run. subst run.
  destruct (insert_batches_chunks env (length all) all 0 0 w)
    as (Δ & Ht & Hcat & Hk & Hret & Hrev); [unfold BATCH_SIZE; lia|].
  exists Δ. split; [done|]. split; [done|]. split; [|done].
  intros k b a Hlook. destruct (Hk k b a Hlook) as (H1 & H2 & H3).
  by change (0 / BATCH_SIZE + k)%nat with k in H3.
Qed.

End FindingProps.

(** ** The validators *)

Module ValidatorsProps.
Import Js Validators.

(** *** Texts *)

Lemma append_cons (c : ascii) (s t : string) :
  String c s +:+ t = String c (s +:+ t).
Proof. done. Qed.

Lemma append_nil_l (s : string) : EmptyString +:+ s = s.
Proof. done. Qed.

Lemma append_nil_r (s : string) : s +:+ EmptyString = s.
Proof. induction s as [|c s IH]; [done|by rewrite append_cons, IH]. Qed.

Lemma append_assoc (s t u : string) : (s +:+ t) +:+ u = s +:+ t +:+ u.
Proof. induction s as [|c s IH]; [done|by rewrite !append_cons, IH]. Qed.

Lemma append_eq_nil (s t : string) :
  s +:+ t = EmptyString → s = EmptyString ∧ t = EmptyString.
Proof. by destruct s. Qed.

(** *** Matching by derivatives *)

Lemma Matches_seq (r s : Regex) (t : string) :
  Matches (Seq r s) t ↔ ∃ u v, t = u +:+ v ∧ Matches r u ∧ Matches s v.
Proof.
  split.
  - inversion 1; subst. by eexists _, _.
  - intros (u & v & -> & Hu & Hv). by constructor.
Qed.

Lemma Matches_alt (r s : Regex) (t : string) :
  Matches (Alt r s) t ↔ Matches r t ∨ Matches s t.
Proof.
  split.
  - inversion 1; subst; eauto.
  - intros [H|H]; [by apply MAltL|by apply MAltR].
Qed.

Lemma Matches_char (c : ascii) (t : string) :
  Matches (Char c) t ↔ t = String c EmptyString.
Proof. split; [by inversion 1|intros ->; constructor]. Qed.

Lemma Matches_class (f : ascii → bool) (t : string) :
  Matches (Class f) t ↔ ∃ c, t = String c EmptyString ∧ f c = true.
Proof.
  split.
  - inversion 1; subst. by eexists.
  - intros (c & -> & Hc). by constructor.
Qed.

Lemma Matches_empty (t : string) : Matches Empty t ↔ t = EmptyString.
Proof. split; [by inversion 1|intros ->; constructor]. Qed.

Lemma Matches_never (t : string) : ¬ Matches Never t.
Proof. inversion 1. Qed.

Lemma nullable_spec (r : Regex) : nullable r = true ↔ Matches r EmptyString.
Proof.
  induction r as [| |c|f|r IHr s IHs|r IHr s IHs|r IHr]; simpl.
  - split; [done|]. intros H. by apply Matches_never in H.
  - by rewrite Matches_empty.
  - rewrite Matches_char. done.
  - rewrite Matches_class. split; [done|]. by intros (c & ? & _).
  - rewrite andb_true_iff, IHr, IHs, Matches_seq. split.
    + intros [Hr Hs]. by exists EmptyString, EmptyString.
    + intros (u & v & Heq & Hu & Hv). symmetry in Heq.
      by apply append_eq_nil in Heq as [-> ->].
  - by rewrite orb_true_iff, IHr, IHs, Matches_alt.
  - split; [constructor|done].
Qed.

(** A text of [r*] that starts with [c] starts with a text of [r] that
    starts with [c]. *)
Lemma star_cons (r : Regex) (c : ascii) (s : string) :
  Matches (Star r) (String c s) →
  ∃ u v, s = u +:+ v ∧ Matches r (String c u) ∧ Matches (Star r) v.
Proof.
  intros H. remember (Star r) as r' eqn:Hr'.
  remember (String c s) as t eqn:Ht.
  revert Hr' Ht. induction H as [| | | | | | |r0 u v Hu _ Hv IH];
    intros Hr' Ht; try discriminate.
  injection Hr' as ->. destruct u as [|d u]; simpl in Ht.
  - by apply IH.
  - rewrite append_cons in Ht. injection Ht as -> <-. by exists u, v.
Qed.

Lemma Matches_seq_cons (r r' : Regex) (c : ascii) (s : string) :
  Matches (Seq r r') (String c s) ↔
  (∃ u v, s = u +:+ v ∧ Matches r (String c u) ∧ Matches r' v)
  ∨ (Matches r EmptyString ∧ Matches r' (String c s)).
Proof.
  rewrite Matches_seq. split.
  - intros (u & v & Heq & Hu & Hv). destruct u as [|d u].
    + right. rewrite append_nil_l in Heq. by subst.
    + rewrite append_cons in Heq. injection Heq as -> ->. left.
      by exists u, v.
  - intros [(u & v & -> & Hu & Hv)|[Hu Hv]].
    + by exists (String c u), v.
    + by exists EmptyString, (String c s).
Qed.

Lemma deriv_spec (r : Regex) (c : ascii) (s : string) :
  Matches (deriv c r) s ↔ Matches r (String c s).
Proof.
  revert s. induction r as [| |d|f|r IHr r' IHr'|r IHr r' IHr'|r IHr];
    intros s; simpl.
  - split; intros H; by apply Matches_never in H.
  - rewrite Matches_empty. split; [|done]. intros H. by apply Matches_never in H.
  - rewrite Matches_char. destruct (Ascii.eqb_spec c d) as [->|Hne].
    + rewrite Matches_empty. split; [by intros ->|by intros [= ->]].
    + split; [intros H; by apply Matches_never in H|by intros [= ? ?]].
  - rewrite Matches_class. destruct (f c) eqn:Hf.
    + rewrite Matches_empty. split; [intros ->; by exists c|].
      by intros (c' & [= -> ->] & _).
    + split; [intros H; by apply Matches_never in H|].
      intros (c' & [= -> ->] & Hc). congruence.
  - assert (Hseq : Matches (Seq (deriv c r) r') s ↔
                   ∃ u v, s = u +:+ v ∧ Matches r (String c u) ∧ Matches r' v).
    { rewrite Matches_seq. by setoid_rewrite IHr. }
    rewrite Matches_seq_cons. destruct (nullable r) eqn:Hn.
    + rewrite Matches_alt, Hseq, IHr', <- nullable_spec, Hn. tauto.
    + rewrite Hseq. split; [by left|]. intros [H|[H _]]; [done|].
      apply nullable_spec in H. congruence.
  - by rewrite !Matches_alt, IHr, IHr'.
  - rewrite Matches_seq. split.
    + intros (u & v & -> & Hu & Hv).
      apply (MStarApp r (String c u) v); [by apply IHr|done].
    + intros H. apply star_cons in H as (u & v & -> & Hu & Hv).
      exists u, v. split; [done|]. split; [by apply IHr|done].
Qed.

Lemma test_spec (r : Regex) (s : string) : test r s = true ↔ Matches r s.
Proof.
  revert r. induction s as [|c s IH]; intros r; simpl.
  - apply nullable_spec.
  - by rewrite IH, deriv_spec.
Qed.

(** *** The pattern of a repository URL *)

Lemma Matches_lit (p t : string) : Matches (Lit p) t ↔ t = p.
Proof.
  revert t. induction p as [|c p IH]; intros t; simpl.
  - apply Matches_empty.
  - rewrite Matches_seq. split.
    + intros (u & v & -> & Hu & Hv). apply Matches_char in Hu as ->.
      apply IH in Hv as ->. done.
    + intros ->. exists (String c EmptyString), p.
      split; [done|]. split; [constructor|by apply IH].
Qed.

Lemma Matches_star_class (f : ascii → bool) (t : string) :
  Matches (Star (Class f)) t ↔ all_chars f t = true.
Proof.
  split.
  - intros H. remember (Star (Class f)) as r eqn:Hr. revert Hr.
    induction H as [| | | | | | |r0 u v Hu _ Hv IH]; intros Hr;
      try discriminate; [done|].
    injection Hr as ->. apply Matches_class in Hu as (c & -> & Hc).
    rewrite append_cons, append_nil_l. simpl. by rewrite Hc, IH.
  - induction t as [|c t IH]; simpl; [constructor|].
    intros [Hc Ht]%andb_true_iff.
    apply (MStarApp (Class f) (String c EmptyString) t);
      [by constructor|by apply IH].
Qed.

Lemma Matches_plus_class (f : ascii → bool) (t : string) :
  Matches (Plus (Class f)) t ↔ t ≠ EmptyString ∧ all_chars f t = true.
Proof.
  unfold Plus. rewrite Matches_seq. split.
  - intros (u & v & -> & Hu & Hv). apply Matches_class in Hu as (c & -> & Hc).
    apply Matches_star_class in Hv. rewrite append_cons, append_nil_l.
    split; [done|]. simpl. by rewrite Hc, Hv.
  - intros [Hne Hall]. destruct t as [|c t]; [done|]. simpl in Hall.
    apply andb_true_iff in Hall as [Hc Ht].
    exists (String c EmptyString), t. split; [done|].
    split; [by constructor|by apply Matches_star_class].
Qed.

Lemma valid_url_parts (url : string) :
  isValidGitHubUrl url = true →
  ∃ owner repo,
    url = "https://github.com/" +:+ owner +:+ "/" +:+ repo ∧
    owner ≠ EmptyString ∧ all_chars owner_char owner = true ∧
    repo ≠ EmptyString ∧ all_chars repo_char repo = true.
Proof.
  unfold isValidGitHubUrl, pattern. rewrite test_spec, Matches_seq.
  intros (p & t & -> & Hp & Ht). apply Matches_lit in Hp as ->.
  apply Matches_seq in Ht as (owner & t' & -> & Ho & Ht').
  apply Matches_plus_class in Ho as [Ho1 Ho2].
  apply Matches_seq in Ht' as (sl & repo & -> & Hsl & Hr).
  apply Matches_char in Hsl as ->.
  apply Matches_plus_class in Hr as [Hr1 Hr2].
  by exists owner, repo.
Qed.

(** [isValidGitHubUrl] accepts exactly the texts made of
    "https://github.com/", an owner of one or more letters, digits,
    underscores and hyphens, a slash, and a name of one or more letters,
    digits, underscores, hyphens and dots, with nothing before or after:
    no other scheme or host, no further path segment, no trailing slash,
    no query. *)
Theorem isValidGitHubUrl_spec (url : string) :
  isValidGitHubUrl url = true ↔
  ∃ owner repo,
    url = "https://github.com/" +:+ owner +:+ "/" +:+ repo ∧
    owner ≠ EmptyString ∧ all_chars owner_char owner = true ∧
    repo ≠ EmptyString ∧ all_chars repo_char repo = true.
Proof.
  split; [apply valid_url_parts|].
  unfold isValidGitHubUrl, pattern. rewrite test_spec, Matches_seq.
  intros (owner & repo & -> & Ho1 & Ho2 & Hr1 & Hr2).
  exists "https://github.com/", (owner +:+ "/" +:+ repo).
  split; [done|]. split; [by apply Matches_lit|].
  apply Matches_seq. exists owner, ("/" +:+ repo).
  split; [done|]. split; [by apply Matches_plus_class|].
  apply Matches_seq. exists "/", repo.
  split; [done|]. split; [constructor|by apply Matches_plus_class].
Qed.

(** *** Cutting and splitting *)

Lemma all_chars_app (f : ascii → bool) (s t : string) :
  all_chars f (s +:+ t) = all_chars f s && all_chars f t.
Proof.
  induction s as [|c s IH]; [done|].
  rewrite append_cons. simpl. by rewrite IH, andb_assoc.
Qed.

Lemma all_chars_impl (f g : ascii → bool) (s : string) :
  (∀ c, f c = true → g c = true) →
  all_chars f s = true → all_chars g s = true.
Proof.
  intros Hfg. induction s as [|c s IH]; simpl; [done|].
  intros [Hc Hs]%andb_true_iff. by rewrite (Hfg c Hc), IH.
Qed.

Lemma starts_with_all (f : ascii → bool) (p s rest : string) :
  starts_with p s = Some rest → all_chars f s = true → all_chars f rest = true.
Proof.
  revert s. induction p as [|a p IH]; intros s; simpl.
  - by intros [= ->].
  - destruct s as [|b s]; [done|]. destruct (Ascii.eqb a b); [|done].
    simpl. intros Hs [_ Hall]%andb_true_iff. by apply (IH s).
Qed.

Lemma replace_first_all (f : ascii → bool) (pat s : string) :
  all_chars f s = true →
  all_chars f (replace_first pat EmptyString s) = true.
Proof.
  induction s as [|c s IH]; simpl; intros Hall.
  - by destruct (starts_with pat EmptyString) as [rest|] eqn:Hp;
      [apply (starts_with_all f pat EmptyString)|].
  - destruct (starts_with pat (String c s)) as [rest|] eqn:Hp.
    + rewrite append_nil_l. by apply (starts_with_all f pat (String c s)).
    + apply andb_true_iff in Hall as [Hc Hs]. simpl. by rewrite Hc, IH.
Qed.

Lemma replace_first_skip (pat rep : string) (c : ascii) (s : string) :
  starts_with pat (String c s) = None →
  replace_first pat rep (String c s) = String c (replace_first pat rep s).
Proof. intros H. simpl. simpl in H. by rewrite H. Qed.

(** Past a text without the first character of the pattern. *)
Lemma replace_first_past (a : ascii) (pat rep s t : string) :
  all_chars (λ c, negb (Ascii.eqb a c)) s = true →
  replace_first (String a pat) rep (s +:+ t)
  = s +:+ replace_first (String a pat) rep t.
Proof.
  induction s as [|c s IH]; [done|]. simpl.
  intros [Hc Hs]%andb_true_iff. apply negb_true_iff in Hc.
  by rewrite Hc, IH.
Qed.

Lemma replace_first_absent (a : ascii) (rep s : string) :
  all_chars (λ c, negb (Ascii.eqb a c)) s = true →
  replace_first (String a EmptyString) rep s = s.
Proof.
  intros Hs. rewrite <- (append_nil_r s) at 1.
  rewrite (replace_first_past a EmptyString rep s EmptyString Hs).
  by rewrite append_nil_r.
Qed.

Lemma split_single (sep : ascii) (s : string) :
  all_chars (λ c, negb (Ascii.eqb c sep)) s = true → split sep s = [s].
Proof.
  induction s as [|c s IH]; simpl; [done|].
  intros [Hc Hs]%andb_true_iff. apply negb_true_iff in Hc.
  by rewrite Hc, IH.
Qed.

Lemma split_app (sep : ascii) (s t : string) :
  all_chars (λ c, negb (Ascii.eqb c sep)) s = true →
  split sep (s +:+ String sep t) = s :: split sep t.
Proof.
  induction s as [|c s IH]; simpl.
  - intros _. by rewrite Ascii.eqb_refl.
  - intros [Hc Hs]%andb_true_iff. apply negb_true_iff in Hc.
    by rewrite Hc, IH.
Qed.

Lemma owner_char_plain (c : ascii) :
  owner_char c = true →
  negb (Ascii.eqb "." c) = true ∧ negb (Ascii.eqb "$" c) = true ∧
  negb (Ascii.eqb c "/") = true.
Proof.
  intros Hc.
  destruct (Ascii.eqb_spec "." c) as [<-|_]; [done|].
  destruct (Ascii.eqb_spec "$" c) as [<-|_]; [done|].
  by destruct (Ascii.eqb_spec c "/") as [->|_].
Qed.

Lemma repo_char_plain (c : ascii) :
  repo_char c = true →
  negb (Ascii.eqb "$" c) = true ∧ negb (Ascii.eqb c "/") = true.
Proof.
  intros Hc.
  destruct (Ascii.eqb_spec "$" c) as [<-|_]; [done|].
  by destruct (Ascii.eqb_spec c "/") as [->|_].
Qed.

Lemma parse_composed (owner name : string) :
  all_chars owner_char owner = true → all_chars repo_char name = true →
  parseGitHubUrl ("https://github.com/" +:+ owner +:+ "/" +:+ name) =
    {| Validators.owner := Some owner;
       repo := Some (replace_first ".git" EmptyString name);
       Validators.url :=
         "https://github.com/" +:+ owner +:+ "/"
         +:+ replace_first ".git" EmptyString name |}.
Proof.
  intros Ho2 Hr2.
  set (name' := replace_first ".git" EmptyString name).
  assert (Hname' : all_chars repo_char name' = true)
    by by apply replace_first_all.
  assert (Hcut : replace_first ".git" EmptyString
                   ("https://github.com/" +:+ owner +:+ "/" +:+ name)
                 = "https://github.com/" +:+ owner +:+ "/" +:+ name').
  { simpl. rewrite append_nil_l.
    rewrite (replace_first_past "." "git" EmptyString owner).
    - done.
    - eapply all_chars_impl; [|exact Ho2]. intros c Hc.
      by apply owner_char_plain. }
  assert (Hdollar : replace_first "$" EmptyString
                      ("https://github.com/" +:+ owner +:+ "/" +:+ name')
                    = "https://github.com/" +:+ owner +:+ "/" +:+ name').
  { assert (H1 : all_chars (λ c, negb (Ascii.eqb "$" c)) owner = true).
    { eapply all_chars_impl; [|exact Ho2]. intros c Hc.
      by apply owner_char_plain. }
    assert (H2 : all_chars (λ c, negb (Ascii.eqb "$" c)) name' = true).
    { eapply all_chars_impl; [|exact Hname']. intros c Hc.
      by apply repo_char_plain. }
    apply replace_first_absent. by rewrite !all_chars_app, H1, H2. }
  unfold parseGitHubUrl. rewrite Hcut, Hdollar.
  assert (Hsplit : split "/" ("https://github.com/" +:+ owner +:+ "/" +:+ name')
                   = ["https:"; EmptyString; "github.com"; owner; name']).
  { change ("https://github.com/" +:+ owner +:+ "/" +:+ name')
      with ("https:" +:+ String "/" (EmptyString +:+ String "/"
              ("github.com" +:+ String "/" (owner +:+ String "/" name')))).
    rewrite !split_app; try done.
    - rewrite split_single; [done|].
      eapply all_chars_impl; [|exact Hname']. intros c Hc.
      by apply repo_char_plain.
    - eapply all_chars_impl; [|exact Ho2]. intros c Hc.
      by apply owner_char_plain. }
  by rewrite Hsplit.
Qed.

(** On a URL that [isValidGitHubUrl] accepts, [parseGitHubUrl] recovers
    the owner, and takes as name and as URL what is left once the first
    ".git" is cut out of the name, wherever it stands. *)
Theorem parseGitHubUrl_valid (url : string) :
  isValidGitHubUrl url = true →
  ∃ owner name,
    url = "https://github.com/" +:+ owner +:+ "/" +:+ name ∧
    parseGitHubUrl url =
      {| Validators.owner := Some owner;
         repo := Some (replace_first ".git" EmptyString name);
         Validators.url :=
           "https://github.com/" +:+ owner +:+ "/"
           +:+ replace_first ".git" EmptyString name |}.
Proof.
  intros (owner & name & -> & Ho1 & Ho2 & Hr1 & Hr2)%valid_url_parts.
  exists owner, name. split; [done|]. by apply parse_composed.
Qed.

Lemma parseGitHubUrl_valid_witness :
  ∃ owner name,
    "https://github.com/facebook/react.git"
    = "https://github.com/" +:+ owner +:+ "/" +:+ name ∧
    parseGitHubUrl "https://github.com/facebook/react.git" =
      {| Validators.owner := Some owner;
         repo := Some (replace_first ".git" EmptyString name);
         Validators.url :=
           "https://github.com/" +:+ owner +:+ "/"
           +:+ replace_first ".git" EmptyString name |}.
Proof.
  apply parseGitHubUrl_valid. reflexivity.
Defined.

Lemma replace_first_none (pat rep s : string) :
  contains pat s = false → replace_first pat rep s = s.
Proof.
  induction s as [|c s IH]; simpl.
  - by destruct (starts_with pat EmptyString).
  - destruct (starts_with pat (String c s)); [done|].
    intros Hs. by rewrite IH.
Qed.

Lemma length_append (s t : string) :
  String.length (s +:+ t) = (String.length s + String.length t)%nat.
Proof. induction s as [|c s IH]; simpl; [done|by rewrite IH]. Qed.

(** A pattern that does not start a text that is long enough for it does
    not start its extensions. *)
Lemma starts_with_extend (p s t : string) :
  (String.length p ≤ String.length s)%nat →
  starts_with p s = None → starts_with p (s +:+ t) = None.
Proof.
  revert s. induction p as [|a p IH]; intros s; [done|].
  destruct s as [|c s]; [simpl; intros; lia|].
  rewrite append_cons. cbn [starts_with String.length]. intros Hlen.
  destruct (Ascii.eqb a c); [|done]. apply IH. lia.
Qed.

(** The first ".git" is the one that is not preceded by another. *)
Lemma replace_first_git (a b : string) :
  contains ".git" (a +:+ ".gi") = false →
  replace_first ".git" EmptyString (a +:+ ".git" +:+ b) = a +:+ b.
Proof.
  induction a as [|c a IH]; [done|].
  intros Hc. change (String c a +:+ ".gi") with (String c (a +:+ ".gi")) in Hc.
  change (String c a +:+ ".git" +:+ b) with (String c (a +:+ ".git" +:+ b)).
  change (String c a +:+ b) with (String c (a +:+ b)).
  assert (Hunf : contains ".git" (String c (a +:+ ".gi"))
                 = match starts_with ".git" (String c (a +:+ ".gi")) with
                   | Some _ => true
                   | None => contains ".git" (a +:+ ".gi")
                   end) by reflexivity.
  rewrite Hunf in Hc. clear Hunf.
  destruct (starts_with ".git" (String c (a +:+ ".gi"))) eqn:Hhere; [done|].
  rewrite replace_first_skip; [by rewrite IH|].
  replace (String c (a +:+ ".git" +:+ b))
    with (String c (a +:+ ".gi") +:+ ("t" +:+ b)).
  - apply starts_with_extend; [|done].
    cbn [String.length]. rewrite length_append. simpl. lia.
  - rewrite append_cons. f_equal. by rewrite append_assoc.
Qed.

(** A name in which ".git" does not occur comes back as it is, with the
    owner and the URL: parsing undoes the composition of a valid URL.  A
    name in which it occurs loses its first occurrence, also in the
    middle of the name, and may be left empty. *)
Theorem parseGitHubUrl_name (owner name : string) :
  owner ≠ EmptyString → all_chars owner_char owner = true →
  name ≠ EmptyString → all_chars repo_char name = true →
  let url := "https://github.com/" +:+ owner +:+ "/" +:+ name in
  Validators.owner (parseGitHubUrl url) = Some owner ∧
  (contains ".git" name = false →
   repo (parseGitHubUrl url) = Some name ∧
   Validators.url (parseGitHubUrl url) = url) ∧
  (∀ a b, name = a +:+ ".git" +:+ b →
          contains ".git" (a +:+ ".gi") = false →
          repo (parseGitHubUrl url) = Some (a +:+ b)).
Proof.
  intros Ho1 Ho2 Hn1 Hn2 url. subst url.
  rewrite parse_composed by done.
  cbn [Validators.owner repo Validators.url].
  split; [done|]. split.
  - intros Hc. by rewrite replace_first_none.
  - intros a b -> Hc. by rewrite replace_first_git.
Qed.

Lemma parseGitHubUrl_name_witness :
  repo (parseGitHubUrl "https://github.com/octo/octo.github.io")
  = Some "octohub.io".
Proof.
  destruct (parseGitHubUrl_name "octo" "octo.github.io")
    as (_ & _ & H); [done|reflexivity|done|reflexivity|].
  apply (H "octo" "hub.io"); reflexivity.
Defined.

(** *** parseInt and validatePagination *)

Lemma leading_digits_app (ds rest : string) (read : option Z) :
  all_chars is_digit ds = true → no_digit_first rest →
  leading_digits (ds +:+ rest) read = leading_digits ds read.
Proof.
  revert read. induction ds as [|c ds IH]; intros read Hd Hr.
  - rewrite append_nil_l. destruct rest as [|c r]; [done|].
    cbn [leading_digits]. cbn in Hr. by rewrite Hr.
  - rewrite append_cons. cbn [leading_digits all_chars] in *.
    apply andb_true_iff in Hd as [Hc Hd]. rewrite Hc. by apply IH.
Qed.

Lemma leading_digits_nonneg (ds : string) (read : option Z) :
  0 ≤ default 0 read →
  (ds ≠ EmptyString ∨ is_Some read) → all_chars is_digit ds = true →
  ∃ n, leading_digits ds read = Some n ∧ 0 ≤ n.
Proof.
  revert read. induction ds as [|c ds IH]; intros read Hr Hs Hd.
  - destruct Hs as [|[n ->]]; [done|]. by exists n.
  - cbn [leading_digits all_chars] in *.
    apply andb_true_iff in Hd as [Hc Hd]. rewrite Hc.
    apply IH; [|by right|done].
    change (default 0 (Some (10 * default 0 read + digit_value c)))
      with (10 * default 0 read + digit_value c).
    unfold is_digit, in_range in Hc. unfold digit_value.
    apply andb_true_iff in Hc as [Hlo Hhi].
    apply Nat.leb_le in Hlo. lia.
Qed.

Lemma digit_first (c : ascii) (s : string) :
  is_digit c = true →
  skip_space (String c s) = String c s ∧
  Ascii.eqb c "-" = false ∧ Ascii.eqb c "+" = false.
Proof.
  intros Hc. unfold is_digit, in_range in Hc.
  apply andb_true_iff in Hc as [Hlo Hhi].
  apply Nat.leb_le in Hlo. apply Nat.leb_le in Hhi.
  assert (Hb : ∀ n, (n < 48 ∨ 57 < n)%nat → byte n c = false).
  { intros n Hn. unfold byte. apply Nat.eqb_neq. lia. }
  split; [|split].
  - cbn [skip_space]. unfold space1, space2, space3, in_range.
    rewrite !Hb by lia. rewrite (proj2 (Nat.leb_gt (nat_of_ascii c) 13)) by lia.
    rewrite andb_false_r. cbn [andb orb]. by destruct s as [|b [|d s]].
  - destruct (Ascii.eqb_spec c "-") as [->|]; [|done]. clear Hb. vm_compute in Hlo. lia.
  - destruct (Ascii.eqb_spec c "+") as [->|]; [|done]. clear Hb. vm_compute in Hlo. lia.
Qed.

Lemma parseInt_numeral (ds rest : string) :
  numeral ds → no_digit_first rest →
  parseInt (ds +:+ rest) = parseInt ds ∧ ∃ n, parseInt ds = Num n ∧ 0 ≤ n.
Proof.
  intros [Hne Hd] Hr. destruct ds as [|c ds]; [done|].
  cbn [all_chars] in Hd. pose proof Hd as Hd'.
  apply andb_true_iff in Hd' as [Hc _].
  unfold parseInt. rewrite append_cons.
  destruct (digit_first c (ds +:+ rest) Hc) as (Hs1 & Hm & Hp).
  destruct (digit_first c ds Hc) as (Hs2 & _ & _).
  rewrite Hs1, Hs2, !Hm, !Hp.
  rewrite <- append_cons, leading_digits_app by done.
  destruct (leading_digits_nonneg (String c ds) None) as (n & -> & Hn);
    [done|by left|done|].
  split; [done|]. exists n. split; [f_equal; lia|done].
Qed.

(** [validatePagination] reads the numerals that the limit and the
    offset start with and ignores what follows them: the limit
    "10; drop" is the limit 10.  On such texts it is valid exactly when
    the limit is between 1 and 100. *)
Theorem validatePagination_ignores_what_follows (l o r1 r2 : string) :
  numeral l → numeral o → no_digit_first r1 → no_digit_first r2 →
  validatePagination (l +:+ r1) (o +:+ r2) = validatePagination l o ∧
  (valid (validatePagination l o) = true ↔
   ∃ n, limit (validatePagination l o) = Num n ∧ 1 ≤ n ≤ 100).
Proof.
  intros Hl Ho H1 H2.
  destruct (parseInt_numeral l r1 Hl H1) as (Hpl & n & Hn & Hn0).
  destruct (parseInt_numeral o r2 Ho H2) as (Hpo & m & Hm & Hm0).
  unfold validatePagination. rewrite Hpl, Hpo. split; [done|].
  rewrite Hn, Hm. cbn [valid limit nan_or_below above].
  rewrite (proj2 (Z.ltb_ge m 0)) by done.
  destruct (Z.ltb_spec n 1); cbn [orb].
  - split; [done|]. intros (? & [= <-] & ?). lia.
  - destruct (Z.ltb_spec 100 n); cbn.
    + split; [done|]. intros (? & [= <-] & ?). lia.
    + split; [|done]. intros _. exists n. split; [done|lia].
Qed.

Lemma validatePagination_ignores_what_follows_witness :
  validatePagination "10; drop" "0x10" = validatePagination "10" "0".
Proof.
  apply (validatePagination_ignores_what_follows "10" "0" "; drop" "x10");
    try (split; [discriminate|reflexivity]); reflexivity.
Defined.

End ValidatorsProps.

(** ** The files of a clone *)

Module GithubProps.
Import Js Validators GithubService.

Lemma includes_elem (l : list string) (s : string) :
  includes l s = true ↔ s ∈ l.
Proof.
  unfold includes. rewrite existsb_exists. split.
  - intros (x & Hx & Heq). apply String.eqb_eq in Heq. subst x.
    by apply list_elem_of_In.
  - intros Hin. exists s. split; [by apply list_elem_of_In|].
    apply String.eqb_refl.
Qed.

Lemma includes_not_elem (l : list string) (s : string) :
  includes l s = false ↔ s ∉ l.
Proof.
  rewrite <- includes_elem. by destruct (includes l s).
Qed.

Lemma relative_under (base rel : Path) : relative base (base ++ rel) = rel.
Proof.
  induction base as [|a base IH]; simpl; [by destruct rel|].
  by rewrite String.eqb_refl.
Qed.

(** Induction on a tree, with the property at hand for the entries of a
    directory. *)
Section Trees.
Variable P : Node → Prop.
Hypothesis Pfile : P RegularFile.
Hypothesis Pspecial : P Special.
Hypothesis Punreadable : P (Directory None).
Hypothesis Pdir :
  ∀ entries, Forall (λ e, P e.2) entries → P (Directory (Some entries)).

Lemma Node_entries_ind (n : Node) : P n.
Proof.
  revert n. fix IH 1.
  intros [|[entries|]|]; [exact Pfile| |exact Punreadable|exact Pspecial].
  apply Pdir. induction entries as [|[name n] entries IHe];
    constructor; [apply IH|exact IHe].
Qed.
End Trees.

Lemma none_included (l : list string) (p : Path) :
  forallb (λ part, negb (includes l part)) p = true ↔
  Forall (λ part, part ∉ l) p.
Proof.
  induction p as [|a p IH]; cbn [forallb]; [by split|].
  rewrite andb_true_iff, Forall_cons, IH, negb_true_iff, includes_not_elem.
  done.
Qed.

Lemma shouldAnalyzeFile_spec (p : Path) :
  shouldAnalyzeFile p = true ↔
  extname p ∈ SUPPORTED_EXTENSIONS ∧ clear_of_ignored p.
Proof.
  unfold shouldAnalyzeFile, clear_of_ignored.
  destruct (includes SUPPORTED_EXTENSIONS (extname p)) eqn:Hext; cbn [negb].
  - apply includes_elem in Hext. rewrite none_included. tauto.
  - apply includes_not_elem in Hext. split; [done|]. by intros [? _].
Qed.

(** What the loop of [findCodeFiles] adds for the entries of a directory. *)
Lemma findCodeFiles_cons name entry entries dirPath baseDir :
  findCodeFiles (Directory (Some ((name, entry) :: entries))) dirPath baseDir
  = match entry with
    | Directory _ =>
        if negb (includes IGNORED_DIRS name)
        then findCodeFiles entry (dirPath ++ [name]) baseDir
        else []
    | RegularFile =>
        if shouldAnalyzeFile (dirPath ++ [name])
        then [{| fullPath := dirPath ++ [name];
                 relativePath := relative baseDir (dirPath ++ [name]) |}]
        else []
    | Special => []
    end ++ findCodeFiles (Directory (Some entries)) dirPath baseDir.
Proof. by destruct entry. Qed.

Lemma findCodeFiles_under (dir : Node) (base pre : Path) (f : Found) :
  f ∈ findCodeFiles dir (base ++ pre) base ↔
  ∃ rel, f = {| fullPath := base ++ pre ++ rel; relativePath := pre ++ rel |}
         ∧ file_at dir rel ∧ shouldAnalyzeFile (base ++ pre ++ rel) = true.
Proof.
  revert pre. induction dir as [| | |entries IH] using Node_entries_ind;
    intros pre.
  - simpl. split; [by intros ?%elem_of_nil|]. intros (rel & _ & H & _). inversion H.
  - simpl. split; [by intros ?%elem_of_nil|]. intros (rel & _ & H & _). inversion H.
  - simpl. split; [by intros ?%elem_of_nil|]. intros (rel & _ & H & _). inversion H.
  - induction entries as [|[name entry] entries IHe].
    + simpl. split; [by intros ?%elem_of_nil|].
      intros (rel & _ & H & _). inversion H; subst; by apply elem_of_nil in H1.
    + apply Forall_cons in IH as [IHentry IH]. specialize (IHe IH).
      rewrite findCodeFiles_cons, elem_of_app, IHe. clear IHe IH.
      simpl in IHentry. split.
      * intros [Hhere|(rel & -> & Hat & Hs)].
        -- destruct entry as [|sub|].
           ++ destruct (shouldAnalyzeFile ((base ++ pre) ++ [name])) eqn:Hs;
                [|by apply elem_of_nil in Hhere].
              apply list_elem_of_singleton in Hhere. subst f.
              exists [name]. rewrite <- ?app_assoc in *.
              rewrite relative_under. split; [done|]. split; [|done].
              constructor. apply list_elem_of_here.
           ++ destruct (includes IGNORED_DIRS name) eqn:Hi;
                [by apply elem_of_nil in Hhere|]. simpl in Hhere.
              rewrite <- app_assoc in Hhere. apply IHentry in Hhere.
              destruct Hhere as (rel & -> & Hat & Hs).
              exists (name :: rel). rewrite <- ?app_assoc in *. simpl in *.
              split; [done|]. split; [|done].
              econstructor; [apply list_elem_of_here|done].
           ++ by apply elem_of_nil in Hhere.
        -- exists rel. split; [done|]. split; [|done].
           inversion Hat; subst.
           ++ constructor. by apply list_elem_of_further.
           ++ econstructor; [by apply list_elem_of_further|done].
      * intros (rel & -> & Hat & Hs).
        inversion Hat as [n es Hin|n sub es rel' Hin Hsub]; subst.
        -- apply elem_of_cons in Hin as [Heq|Hin].
           ++ injection Heq as <- <-. left.
              rewrite <- app_assoc, Hs, relative_under.
              by apply list_elem_of_singleton.
           ++ right. exists [n]. split; [done|]. split; [|done].
              by constructor.
        -- apply elem_of_cons in Hin as [Heq|Hin].
           ++ injection Heq as <- <-. left.
              assert (includes IGNORED_DIRS n = false) as ->.
              { apply includes_not_elem.
                apply shouldAnalyzeFile_spec in Hs as [_ Hs].
                unfold clear_of_ignored in Hs.
                rewrite !Forall_app, Forall_cons in Hs. tauto. }
              simpl. rewrite <- app_assoc. apply IHentry.
              exists rel'. rewrite <- !app_assoc. simpl. done.
           ++ right. exists (n :: rel'). split; [done|]. split; [|done].
              by econstructor.
Qed.

Lemma split_length (s : string) :
  length (split "010" s) = S (line_feeds s).
Proof.
  induction s as [|c s IH]; [done|].
  cbn [split line_feeds]. destruct (Ascii.eqb c "010").
  - cbn [length]. by rewrite IH.
  - destruct (split "010" s) as [|part parts]; [done|].
    cbn [length] in *. lia.
Qed.

Lemma supported_language (ext : string) :
  ext ∈ SUPPORTED_EXTENSIONS →
  ∃ lang, languageMap !! ext = Some lang ∧ or_str (Some lang) "Unknown" = lang
          ∧ lang ≠ "Unknown".
Proof.
  unfold SUPPORTED_EXTENSIONS. intros H.
  repeat (apply elem_of_cons in H as [->|H]);
    try (eexists; split; [vm_compute; reflexivity|split; [reflexivity|done]]).
  by apply elem_of_nil in H.
Qed.

Lemma language_supported (ext lang : string) :
  languageMap !! ext = Some lang → ext ∈ SUPPORTED_EXTENSIONS.
Proof.
  unfold languageMap. intros H%elem_of_list_to_map_2.
  unfold SUPPORTED_EXTENSIONS.
  repeat (apply elem_of_cons in H as [[= -> ->]|H];
          [repeat (first [apply list_elem_of_here|apply list_elem_of_further])|]).
  by apply elem_of_nil in H.
Qed.

Lemma size_limit (size : Z) :
  (10000 <? getFileSizeKB size) = false ↔ size ≤ 102405.
Proof.
  unfold getFileSizeKB. rewrite Z.ltb_ge. split; intros H.
  - apply Z.nlt_ge. intros Hlt.
    assert (10001 ≤ (200 * size + 1024) / 2048); [|lia].
    apply Z.div_le_lower_bound; lia.
  - assert ((200 * size + 1024) / 2048 < 10001); [|lia].
    apply Z.div_lt_upper_bound; lia.
Qed.

Lemma parse_file_Some fs f file :
  parse_file fs f = Some file ↔
  ∃ content size,
    readFile fs (fullPath f) = Return content ∧ blank content = false ∧
    statSize fs (fullPath f) = Return size ∧ size ≤ 102405 ∧
    file = {| path := relativePath f;
              content := content;
              extension := extname (fullPath f);
              language := detectLanguage (fullPath f);
              lines := countLines content;
              sizeKB := getFileSizeKB size |}.
Proof.
  unfold parse_file. split.
  - destruct (readFile fs (fullPath f)) as [content|]; [|done].
    destruct (blank content) eqn:Hb; [done|].
    destruct (statSize fs (fullPath f)) as [size|]; [|done].
    destruct (10000 <? getFileSizeKB size) eqn:Hs; [done|].
    intros [= <-]. exists content, size. by rewrite <- size_limit.
  - intros (content & size & -> & -> & -> & Hs & ->).
    apply size_limit in Hs. by rewrite Hs.
Qed.

(** [findCodeFiles] lists the regular files of the clone that can be
    reached through readable directories, have a supported extension and
    have no ignored name among the components of their full path, the
    components of the path of the clone included; each comes with its path
    from the clone.  Links and other special entries are never listed. *)
Theorem findCodeFiles_finds (repo : Node) (repoPath : Path) (f : Found) :
  f ∈ findCodeFiles repo repoPath repoPath ↔
  ∃ rel, f = {| fullPath := repoPath ++ rel; relativePath := rel |} ∧
         file_at repo rel ∧
         extname (repoPath ++ rel) ∈ SUPPORTED_EXTENSIONS ∧
         clear_of_ignored (repoPath ++ rel).
Proof.
  pose proof (findCodeFiles_under repo repoPath [] f) as H.
  rewrite app_nil_r in H. rewrite H. clear H.
  split; intros (rel & Hf & Hat & Hs); exists rel; cbn [app] in *.
  - by apply shouldAnalyzeFile_spec in Hs.
  - by rewrite shouldAnalyzeFile_spec.
Qed.

(** A clone below a directory that bears an ignored name (a temporary
    directory under [build], say) yields no file at all: the names are
    looked for in the full path. *)
Theorem ignored_base_hides_everything (fs : FileSystem) (repo : Node)
    (repoPath : Path) (part : string) :
  part ∈ repoPath → part ∈ IGNORED_DIRS →
  parseCodeFiles fs repo repoPath = [].
Proof.
  intros Hin Hign. unfold parseCodeFiles.
  assert (findCodeFiles repo repoPath repoPath = []) as ->; [|done].
  destruct (findCodeFiles repo repoPath repoPath) as [|f l] eqn:Hl; [done|].
  assert (f ∈ findCodeFiles repo repoPath repoPath) as Hf
    by (rewrite Hl; apply list_elem_of_here).
  pose proof (findCodeFiles_under repo repoPath [] f) as H.
  rewrite app_nil_r in H. apply H in Hf as (rel & _ & _ & Hs).
  apply shouldAnalyzeFile_spec in Hs as [_ Hclear]. cbn [app] in Hclear.
  unfold clear_of_ignored in Hclear. rewrite Forall_app, Forall_forall in Hclear.
  destruct Hclear as [Hclear _]. by destruct (Hclear part Hin).
Qed.

Lemma ignored_base_hides_everything_witness :
  parseCodeFiles
    {| readFile := λ _, Return "x = 1"; statSize := λ _, Return 5 |}
    (Directory (Some [("main.py", RegularFile)]))
    ["home"; "ci"; "build"; "tmp"; "code-review"; "repo-1"] = [].
Proof.
  apply (ignored_base_hides_everything _ _ _ "build");
    apply (bool_decide_unpack _); vm_compute; exact I.
Defined.

(** A listed file is parsed when it can be read, holds more than white
    space, and has at most 102405 bytes: the limit of 100 KB is applied to
    the size rounded to two decimals.  It is parsed once, with its path
    from the clone, its extension, language and number of lines; every
    other listed file is left out. *)
Theorem parseCodeFiles_keeps (fs : FileSystem) (repo : Node)
    (repoPath : Path) (file : ParsedFile) :
  file ∈ parseCodeFiles fs repo repoPath ↔
  ∃ f content size,
    f ∈ findCodeFiles repo repoPath repoPath ∧
    readFile fs (fullPath f) = Return content ∧ blank content = false ∧
    statSize fs (fullPath f) = Return size ∧ size ≤ 102405 ∧
    file = {| path := relativePath f;
              content := content;
              extension := extname (fullPath f);
              language := detectLanguage (fullPath f);
              lines := countLines content;
              sizeKB := getFileSizeKB size |}.
Proof.
  unfold parseCodeFiles. rewrite list_elem_of_omap. split.
  - intros (f & Hf & Hp). apply parse_file_Some in Hp.
    destruct Hp as (content & size & Hp). by exists f, content, size.
  - intros (f & content & size & Hf & Hp). exists f. split; [done|].
    apply parse_file_Some. by exists content, size.
Qed.

(** The two tables of extensions agree: a path has the language
    [Unknown] exactly when its extension is not a supported one, so that
    no file that is analysed has an unknown language. *)
Theorem detectLanguage_unknown (filePath : Path) :
  detectLanguage filePath = "Unknown" ↔
  extname filePath ∉ SUPPORTED_EXTENSIONS.
Proof.
  unfold detectLanguage. split.
  - intros Hu Hin. apply supported_language in Hin as (lang & Hl & Ho & Hn).
    rewrite Hl, Ho in Hu. done.
  - intros Hn. destruct (languageMap !! extname filePath) as [lang|] eqn:Hl;
      [|done].
    by apply language_supported in Hl.
Qed.

(** [countLines] is one more than the number of line feeds: an empty text
    has one line, and a text that ends with a line feed has a last, empty
    line counted. *)
Theorem countLines_line_feeds (content : string) :
  countLines content = S (line_feeds content) ∧
  countLines (content +:+ String "010" EmptyString)
  = S (countLines content).
Proof.
  unfold countLines. rewrite !split_length. split; [done|].
  f_equal. induction content as [|c s IH]; [done|].
  rewrite ValidatorsProps.append_cons. cbn [line_feeds]. rewrite IH. lia.
Qed.

End GithubProps.

(** ** The helpers of the routes *)

Module RoutesProps.
Import Js Double Validators Counters JobsRoutes Responses JsMath JsMathProps.

(** For the numbers of a valid pagination and data that are the window
    of [limit] rows at [offset] out of [total], the page is
    [offset / limit + 1] and the number of pages is [total / limit]
    rounded up, the quotients in double precision being the exact ones;
    [hasMore] says that rows are left after the window.  [hasMore]
    implies that the page is not the last one, and the converse holds
    when the offset is a multiple of the limit; the page is at most the
    number of pages whenever the offset is below the total. *)
Theorem paginated_pages_agree {A} (data : list A) (total limit offset : Z) :
  1 ≤ limit → 0 ≤ offset < 2 ^ 53 → 0 ≤ total < 2 ^ 53 →
  Z.of_nat (length data) = Z.min limit (Z.max 0 (total - offset)) →
  let info := (paginatedResponse data total limit offset).2 in
  page info = offset / limit + 1 ∧
  totalPages info = (total + limit - 1) / limit ∧
  (hasMore info = true ↔ offset + limit < total) ∧
  (hasMore info = true → page info < totalPages info) ∧
  (offset mod limit = 0 → page info < totalPages info →
   hasMore info = true) ∧
  (offset < total → page info ≤ totalPages info).
Proof.
  intros Hl Ho Ht Hd info. subst info. cbn [paginatedResponse snd page totalPages hasMore].
  rewrite floor_div_exact, ceil_div_exact by lia.
  rewrite Z.ltb_lt, Hd.
  pose proof (Z.div_mod offset limit ltac:(lia)) as Hdo.
  pose proof (Z.mod_pos_bound offset limit ltac:(lia)) as Hro.
  pose proof (Z.div_mod (total + limit - 1) limit ltac:(lia)) as Hdt.
  pose proof (Z.mod_pos_bound (total + limit - 1) limit ltac:(lia)) as Hrt.
  set (q := offset / limit) in *. set (r := offset mod limit) in *.
  set (c := (total + limit - 1) / limit) in *.
  set (s := (total + limit - 1) mod limit) in *.
  repeat split; try lia; try nia.
Qed.

Lemma paginated_pages_agree_witness :
  let info := (paginatedResponse (replicate 10 tt) 35 10 20).2 in
  page info = 3 ∧ totalPages info = 4 ∧ hasMore info = true.
Proof.
  destruct (paginated_pages_agree (replicate 10 tt) 35 10 20)
    as (H1 & H2 & H3 & _); [lia|lia|lia|reflexivity|].
  cbv zeta in *. rewrite H1, H2.
  split; [reflexivity|]. split; [reflexivity|]. apply H3. lia.
Defined.

(** For a duration of less than [2 ^ 53] seconds [formatDuration] shows
    the seconds below a minute; below an hour the minutes and the seconds,
    which add up to the duration, the seconds being under 60; and from an
    hour on the hours and the minutes under 60 that the duration holds,
    the seconds being dropped. *)
Theorem formatDuration_parts (seconds : Z) :
  0 ≤ seconds < 2 ^ 53 →
  (seconds < 60 → formatDuration seconds = pretty seconds +:+ "s") ∧
  (60 ≤ seconds < 3600 →
   ∃ m s, 1 ≤ m < 60 ∧ 0 ≤ s < 60 ∧ seconds = 60 * m + s ∧
          formatDuration seconds
          = pretty m +:+ "m " +:+ pretty s +:+ "s") ∧
  (3600 ≤ seconds →
   ∃ h m, 1 ≤ h ∧ 0 ≤ m < 60 ∧
          3600 * h + 60 * m ≤ seconds < 3600 * h + 60 * (m + 1) ∧
          formatDuration seconds
          = pretty h +:+ "h " +:+ pretty m +:+ "m").
Proof.
  intros Hs. unfold formatDuration. repeat split.
  - intros H. by rewrite (proj2 (Z.ltb_lt _ _) H).
  - intros H. rewrite (proj2 (Z.ltb_ge _ _)), (proj2 (Z.ltb_lt _ _)) by lia.
    rewrite floor_div_exact, Z.rem_mod_nonneg by lia.
    exists (seconds / 60), (seconds mod 60).
    pose proof (Z.div_mod seconds 60 ltac:(lia)).
    pose proof (Z.mod_pos_bound seconds 60 ltac:(lia)).
    repeat split; lia.
  - intros H. rewrite !(proj2 (Z.ltb_ge _ _)) by lia.
    rewrite Z.rem_mod_nonneg by lia.
    pose proof (Z.div_mod seconds 3600 ltac:(lia)).
    pose proof (Z.mod_pos_bound seconds 3600 ltac:(lia)).
    pose proof (Z.div_mod (seconds mod 3600) 60 ltac:(lia)).
    pose proof (Z.mod_pos_bound (seconds mod 3600) 60 ltac:(lia)).
    rewrite !floor_div_exact by lia.
    exists (seconds / 3600), (seconds mod 3600 / 60).
    repeat split; lia.
Qed.

Lemma formatDuration_parts_witness :
  formatDuration 59 = "59s" ∧
  (∃ m s, 1 ≤ m < 60 ∧ 0 ≤ s < 60 ∧ 3599 = 60 * m + s ∧
          formatDuration 3599 = pretty m +:+ "m " +:+ pretty s +:+ "s").
Proof.
  split.
  - apply (formatDuration_parts 59); lia.
  - apply (formatDuration_parts 3599); lia.
Defined.

Lemma round_div_bounds (s : Z) :
  2 * s - 1000 < 2000 * round_div s 1000 ≤ 2 * s + 1000.
Proof.
  unfold round_div.
  pose proof (Z.div_mod (2 * s + 1000) (2 * 1000) ltac:(lia)).
  pose proof (Z.mod_pos_bound (2 * s + 1000) (2 * 1000) ltac:(lia)).
  lia.
Qed.

(** When the three timestamps are there so are the three durations, each
    rounded to the second on its own: the total time is the sum of the
    queue time and the processing time up to one second either way. *)
Theorem metrics_add_up (created started completed : Z) :
  let m := calculateJobMetrics
             {| created_at := Some created; started_at := Some started;
                completed_at := Some completed |} in
  ∃ q p t, queueTime m = Some q ∧ processingTime m = Some p ∧
           totalTime m = Some t ∧ q + p - 1 ≤ t ≤ q + p + 1.
Proof.
  cbn. eexists _, _, _. repeat split; try reflexivity.
  - pose proof (round_div_bounds (started - created)).
    pose proof (round_div_bounds (completed - started)).
    pose proof (round_div_bounds (completed - created)). lia.
  - pose proof (round_div_bounds (started - created)).
    pose proof (round_div_bounds (completed - started)).
    pose proof (round_div_bounds (completed - created)). lia.
Qed.

Lemma grouped_from (reviews : list Review) (summary : gmap string Z)
    (k : string) :
  fold_left
    (λ summary review,
       let k := own_key (severity review) in
       match summary !! k with
       | Some n => <[k := n + 1]> summary
       | None => summary
       end) reviews summary !! k
  = (λ n, n + Z.of_nat (length (filter (λ r, own_key (severity r) = k)
                                  reviews))) <$> summary !! k.
Proof.
  revert summary. induction reviews as [|r reviews IH]; intros summary.
  - cbn. destruct (summary !! k); cbn; [f_equal; lia|done].
  - cbn [fold_left]. rewrite IH. rewrite filter_cons.
    destruct (summary !! own_key (severity r)) as [n|] eqn:Hn.
    + destruct (decide (own_key (severity r) = k)) as [<-|Hne].
      * rewrite lookup_insert_eq, Hn. cbn. f_equal. lia.
      * by rewrite lookup_insert_ne.
    + destruct (decide (own_key (severity r) = k)) as [<-|Hne]; [|done].
      by rewrite Hn.
Qed.

Lemma isValidSeverity_elem (k : string) :
  isValidSeverity k = true ↔
  k ∈ ["critical"; "high"; "medium"; "low"; "info"].
Proof.
  unfold isValidSeverity, includes. rewrite existsb_exists. split.
  - intros (x & Hx & Heq). apply String.eqb_eq in Heq. subst x.
    by apply list_elem_of_In.
  - intros Hin. exists k. split; [by apply list_elem_of_In|].
    apply String.eqb_refl.
Qed.

Lemma filter_length_ext {A} (P Q : A → Prop) `{!∀ x, Decision (P x)}
    `{!∀ x, Decision (Q x)} (l : list A) :
  (∀ x, P x ↔ Q x) → length (filter P l) = length (filter Q l).
Proof.
  intros Hext. induction l as [|x l IH]; [done|].
  rewrite !filter_cons. destruct (decide (P x)) as [HP|HP];
    destruct (decide (Q x)) as [HQ|HQ]; cbn; try lia;
    [by apply Hext in HP|by apply Hext in HQ].
Qed.

Lemma grouped_lookup (reviews : list Review) (k : string) :
  groupBySeverity reviews !! k
  = if isValidSeverity k
    then Some (Z.of_nat (length (filter (λ r, severity r = Some k) reviews)))
    else None.
Proof.
  unfold groupBySeverity. rewrite grouped_from.
  destruct (isValidSeverity k) eqn:Hk.
  - assert (∀ r, own_key (severity r) = k ↔ severity r = Some k) as Hiff.
    { intros r. destruct (severity r) as [s|]; cbn.
      - split; [by intros ->|by intros [= ->]].
      - split; [|done]. intros <-. done. }
    rewrite (filter_length_ext _ _ reviews Hiff).
    apply isValidSeverity_elem in Hk.
    repeat (apply elem_of_cons in Hk as [->|Hk]); try reflexivity.
    by apply elem_of_nil in Hk.
  - assert (k ∉ ["critical"; "high"; "medium"; "low"; "info"]) as Hn.
    { rewrite <- isValidSeverity_elem. by rewrite Hk. }
    rewrite (not_elem_of_list_to_map_1 _ k); [done|]. exact Hn.
Qed.

Lemma counted_valid (reviews : list Review) :
  Forall (λ r, ∃ k, severity r = Some k ∧ isValidSeverity k = true) reviews →
  counted (groupBySeverity reviews) = Z.of_nat (length reviews).
Proof.
  intros Hall. unfold counted. cbn [foldr].
  rewrite !grouped_lookup.
  change (isValidSeverity "critical") with true.
  change (isValidSeverity "high") with true.
  change (isValidSeverity "medium") with true.
  change (isValidSeverity "low") with true.
  change (isValidSeverity "info") with true.
  cbn [default].
  induction Hall as [|r reviews (k & Hr & Hk) Hall IH]; [done|].
  rewrite !filter_cons, Hr. cbn [length].
  apply isValidSeverity_elem in Hk.
  repeat (apply elem_of_cons in Hk as [->|Hk]);
    [..|by apply elem_of_nil in Hk];
    repeat (case_decide; [try discriminate|try congruence]);
    cbn [length]; unfold id in *; lia.
Qed.

(** [groupBySeverity] counts, for each of the five severities, the
    reviews that bear it, and has no other key: a review with another
    severity, or with none, is counted nowhere. *)
Theorem groupBySeverity_counts (reviews : list Review) (k : string) :
  groupBySeverity reviews !! k
  = if isValidSeverity k
    then Some (Z.of_nat (length (filter (λ r, severity r = Some k) reviews)))
    else None.
Proof. apply grouped_lookup. Qed.

(** *** Counters *)

Lemma get_set (o : Obj) (k k' : string) (v : Z) :
  get (set o k v) k' = if String.eqb k k' then Some v else get o k'.
Proof.
  induction o as [|[k0 v0] o IH]; cbn [set get].
  - by destruct (String.eqb k k').
  - destruct (String.eqb_spec k0 k) as [->|Hne]; cbn [get].
    + by destruct (String.eqb k k').
    + destruct (String.eqb_spec k0 k') as [->|Hne'].
      * destruct (String.eqb_spec k k') as [->|]; [done|done].
      * apply IH.
Qed.

Lemma sum_set (o : Obj) (k : string) (v : Z) :
  sum_counters (set o k v) = sum_counters o - default 0 (get o k) + v.
Proof.
  induction o as [|[k0 v0] o IH]; cbn [set get sum_counters foldr].
  - cbn. lia.
  - destruct (String.eqb_spec k0 k) as [->|Hne];
      cbn [sum_counters foldr snd default from_option id] in *.
    + unfold id. lia.
    + fold (sum_counters (set o k v)). fold (sum_counters o). rewrite IH. lia.
Qed.

Lemma keys_set (o : Obj) (k : string) (v : Z) :
  (∀ k', k' ∈ o.*1 → k' ∈ (set o k v).*1) ∧
  (∀ k', k' ∈ (set o k v).*1 → k' = k ∨ k' ∈ o.*1) ∧
  (NoDup o.*1 → NoDup (set o k v).*1).
Proof.
  induction o as [|[k0 v0] o (IH1 & IH2 & IH3)]; cbn [set fmap list_fmap fst].
  - split; [by intros k' ?%elem_of_nil|].
    split; [intros k' ->%list_elem_of_singleton; by left|].
    intros _. apply NoDup_singleton.
  - destruct (String.eqb_spec k0 k) as [->|Hne];
      rewrite ?fmap_cons; cbn [fst].
    + split; [done|]. split; [intros k' ?; by right|done].
    + split.
      { intros k' [->|Hin]%elem_of_cons;
          [apply list_elem_of_here|by apply list_elem_of_further, IH1]. }
      split.
      { intros k' [->|Hin]%elem_of_cons.
        - right. apply list_elem_of_here.
        - apply IH2 in Hin as [->|Hin]; [by left|].
          right. by apply list_elem_of_further. }
      rewrite !NoDup_cons. intros [Hk0 Hnd]. split; [|by apply IH3].
      intros Hin. apply IH2 in Hin as [->|Hin]; done.
Qed.

Lemma get_elem (o : Obj) (k : string) (v : Z) :
  NoDup o.*1 → (k, v) ∈ o → get o k = Some v.
Proof.
  induction o as [|[k0 v0] o IH]; [by intros _ ?%elem_of_nil|].
  rewrite fmap_cons, NoDup_cons. cbn [fst get]. intros [Hk0 Hnd] Hin.
  apply elem_of_cons in Hin as [[= <- <-]|Hin].
  - by rewrite String.eqb_refl.
  - destruct (String.eqb_spec k0 k) as [->|Hne]; [|by apply IH].
    destruct Hk0. apply list_elem_of_fmap. by exists (k, v).
Qed.

Lemma elem_get (o : Obj) (k : string) (v : Z) :
  get o k = Some v → (k, v) ∈ o.
Proof.
  induction o as [|[k0 v0] o IH]; [done|]. cbn [get].
  destruct (String.eqb_spec k0 k) as [->|Hne].
  - intros [= ->]. apply list_elem_of_here.
  - intros H. by apply list_elem_of_further, IH.
Qed.

Lemma countBy_snoc array field item :
  countBy (array ++ [item]) field
  = let key := or_str (field item) "unknown" in
    set (countBy array field) key
      (default 0 (get (countBy array field) key) + 1).
Proof. unfold countBy. by rewrite fold_left_app. Qed.

Lemma occurrences_snoc k keys k' :
  occurrences k (keys ++ [k'])
  = occurrences k keys + (if String.eqb k' k then 1 else 0).
Proof.
  unfold occurrences. rewrite filter_app, length_app, filter_cons, filter_nil.
  destruct (String.eqb_spec k' k) as [->|Hne].
  - rewrite decide_True by done. cbn. lia.
  - rewrite decide_False by done. cbn. lia.
Qed.

Lemma countBy_inv (array : list Review) (field : Review → option string) :
  let o := countBy array field in
  let keys := keys_of array field in
  NoDup o.*1 ∧
  sum_counters o = Z.of_nat (length array) ∧
  ∀ k, get o k = if occurrences k keys =? 0 then None
                 else Some (occurrences k keys).
Proof.
  induction array as [|item array IH] using rev_ind.
  - cbn. split; [constructor|]. done.
  - destruct IH as (Hnd & Hsum & Hget). cbv zeta.
    rewrite countBy_snoc. cbv zeta.
    set (key := or_str (field item) "unknown").
    set (o := countBy array field) in *.
    unfold keys_of. rewrite map_app. cbn [map]. fold (keys_of array field).
    fold key. split; [by apply keys_set|]. split.
    + rewrite sum_set, length_app, Hsum. cbn. lia.
    + intros k. rewrite get_set, occurrences_snoc.
      assert (0 ≤ occurrences k (keys_of array field)) by (unfold occurrences; lia).
      assert (0 ≤ occurrences key (keys_of array field)) by (unfold occurrences; lia).
      destruct (String.eqb_spec key k) as [->|Hne].
      * rewrite Hget.
        destruct (Z.eqb_spec (occurrences k (keys_of array field)) 0) as [->|Hz].
        -- done.
        -- cbn [default from_option id]. unfold id.
           destruct (Z.eqb_spec (occurrences k (keys_of array field) + 1) 0);
             [lia|done].
      * rewrite Hget, Z.add_0_r. done.
Qed.

Lemma entries_Permutation (o : Obj) : entries o ≡ₚ o.
Proof.
  unfold entries. rewrite merge_sort_Permutation.
  apply filter_app_complement.
Qed.

Lemma greatest_entry (rest : list (string * Z)) (first : string * Z) :
  let pick := fold_left (λ max entry, if max.2 <? entry.2 then entry else max)
                rest first in
  pick ∈ first :: rest ∧ ∀ e, e ∈ first :: rest → e.2 ≤ pick.2.
Proof.
  revert first. induction rest as [|e rest IH]; intros first; cbn [fold_left].
  - split; [apply list_elem_of_here|].
    intros e ->%list_elem_of_singleton. lia.
  - destruct (IH (if first.2 <? e.2 then e else first)) as [Hin Hmax].
    cbv zeta. split.
    + apply elem_of_cons in Hin as [->|Hin].
      * destruct (first.2 <? e.2);
          [apply list_elem_of_further, list_elem_of_here|apply list_elem_of_here].
      * by apply list_elem_of_further, list_elem_of_further.
    + intros e' [->|[->|Hin']%elem_of_cons]%elem_of_cons.
      * etrans; [|apply Hmax, list_elem_of_here].
        destruct (Z.ltb_spec first.2 e.2); lia.
      * etrans; [|apply Hmax, list_elem_of_here].
        destruct (Z.ltb_spec first.2 e.2); lia.
      * by apply Hmax, list_elem_of_further.
Qed.

(** The counters of [countBy] are the numbers of items of each key, an
    item without the field counting as [unknown]; there is no counter for
    a key that does not occur, and the counters add up to the number of
    items. *)
Theorem countBy_counts (array : list Review) (field : Review → option string) :
  Forall (λ k, k ∉ Worker.Object_prototype) (keys_of array field) →
  sum_counters (countBy array field) = Z.of_nat (length array) ∧
  ∀ k, get (countBy array field) k
       = if occurrences k (keys_of array field) =? 0 then None
         else Some (occurrences k (keys_of array field)).
Proof.
  intros _. by destruct (countBy_inv array field) as (_ & Hsum & Hget).
Qed.

(** [getMostCommon] answers [null] for no item, and otherwise a key with
    the number of items that have it, which no key exceeds. *)
Theorem getMostCommon_is_greatest (array : list Review)
    (field : Review → option string) :
  Forall (λ k, k ∉ Worker.Object_prototype) (keys_of array field) →
  match getMostCommon array field with
  | None => array = []
  | Some (value, count) =>
      count = occurrences value (keys_of array field) ∧ 1 ≤ count ∧
      ∀ k, occurrences k (keys_of array field) ≤ count
  end.
Proof.
  intros _. unfold getMostCommon.
  destruct array as [|item array]; [done|].
  cbn [length Nat.eqb].
  destruct (countBy_inv (item :: array) field) as (Hnd & Hsum & Hget).
  cbv zeta in *.
  set (o := countBy (item :: array) field) in *.
  set (keys := keys_of (item :: array) field) in *.
  pose proof (entries_Permutation o) as Hperm.
  assert (Hpos : ∀ k v, (k, v) ∈ o → v = occurrences k keys ∧ 1 ≤ v).
  { intros k v Hin. apply (get_elem o k v Hnd) in Hin.
    rewrite Hget in Hin.
    destruct (Z.eqb_spec (occurrences k keys) 0); [done|].
    injection Hin as <-. split; [done|]. unfold occurrences in *. lia. }
  destruct (entries o) as [|first rest] eqn:He.
  - apply Permutation_nil_l in Hperm. rewrite <- Hperm in Hsum.
    cbn in Hsum. lia.
  - destruct (greatest_entry rest first) as [Hin Hmax]. cbv zeta in *.
    set (pick := fold_left _ rest first) in *.
    destruct pick as [value count] eqn:Hpick.
    rewrite Hperm in Hin. destruct (Hpos _ _ Hin) as [Hc H1].
    split; [done|]. split; [done|]. intros k.
    destruct (Z.eqb_spec (occurrences k keys) 0) as [->|Hz]; [lia|].
    specialize (Hget k). rewrite (proj2 (Z.eqb_neq _ _) Hz) in Hget.
    apply elem_get in Hget. rewrite <- Hperm in Hget.
    by apply Hmax in Hget.
Qed.

Lemma countBy_counts_witness :
  let array := [mkReview (Some "high") (Some "bug"); mkReview None None;
                mkReview (Some "high") (Some EmptyString)] in
  sum_counters (countBy array category) = 3 ∧
  get (countBy array category) "unknown" = Some 2.
Proof.
  destruct (countBy_counts
              [mkReview (Some "high") (Some "bug"); mkReview None None;
               mkReview (Some "high") (Some EmptyString)] category)
    as [Hsum Hget].
  - apply (bool_decide_unpack _). vm_compute. exact I.
  - split; [exact Hsum|]. rewrite (Hget "unknown"). reflexivity.
Defined.

Lemma getMostCommon_is_greatest_witness :
  match getMostCommon [mkReview (Some "high") None; mkReview (Some "low") None;
                       mkReview (Some "low") None] severity with
  | None => False
  | Some (value, count) => 1 ≤ count
  end.
Proof.
  pose proof (getMostCommon_is_greatest
                [mkReview (Some "high") None; mkReview (Some "low") None;
                 mkReview (Some "low") None] severity) as H.
  destruct (getMostCommon _ severity) as [[value count]|].
  - apply H. apply (bool_decide_unpack _). vm_compute. exact I.
  - discriminate H. apply (bool_decide_unpack _). vm_compute. exact I.
Defined.

(** *** PATCH /api/jobs/:id *)

Lemma valid_status_texts (v : Value) :
  valid_status v = true →
  ∃ s, v = VText s ∧
       s ∈ ["pending"; "cloning"; "analyzing"; "completed"; "failed"].
Proof.
  destruct v as [| | | |s|]; try done. cbn [valid_status].
  unfold isValidJobStatus, includes. rewrite existsb_exists.
  intros (x & Hx & Heq). apply String.eqb_eq in Heq. subst x.
  exists s. split; [done|]. by apply list_elem_of_In.
Qed.

Lemma check_number_range (v : Value) (hi : option Z) (f : Field) :
  check_number v hi = Some f →
  (f = Kept VUndefined ∧ v = VUndefined) ∨
  ∃ n, f = Parsed (Num n) ∧ parseInt (to_text v) = Num n ∧ 0 ≤ n ∧
       ∀ h, hi = Some h → n ≤ h.
Proof.
  unfold check_number. destruct (is_undefined v) eqn:Hu.
  - intros [= <-]. left. by destruct v.
  - destruct (parseInt (to_text v)) as [n|]; cbn [nan_or_below]; [|done].
    destruct (Z.ltb_spec n 0); cbn [orb]; [done|].
    destruct hi as [h|]; cbn [from_option above].
    + destruct (Z.ltb_spec h n); [done|]. intros [= <-]. right.
      exists n. repeat split; [done|]. by intros ? [= <-].
    + intros [= <-]. right. exists n. repeat split; done.
Qed.

Lemma refused_texts (v : Value) (s : string) :
  truthy v && negb (valid_status v) = false →
  s ≠ EmptyString → isValidJobStatus s = false → is_text v s = false.
Proof.
  intros Hv Hs Hn. destruct v as [| | | |t|]; try done. cbn [is_text].
  destruct (String.eqb_spec t s) as [->|]; [|done].
  cbn [truthy valid_status] in Hv. rewrite Hn in Hv.
  rewrite (proj2 (String.eqb_neq _ _) Hs) in Hv. done.
Qed.

Lemma is_text_eq (v : Value) (s : string) :
  v = VText s → is_text v s = true.
Proof. intros ->. apply String.eqb_refl. Qed.

Lemma stamped (st completed_at : Value) (now : string) :
  now ≠ EmptyString →
  st = VText "completed" ∨ st = VText "failed" →
  let completed :=
    if is_text st "completed" && negb (truthy completed_at)
    then VText now else completed_at in
  truthy (if is_text st "failed" && negb (truthy completed)
          then VText now else completed) = true.
Proof.
  intros Hnow Hst.
  assert (Ht : truthy (VText now) = true).
  { cbn [truthy]. by rewrite (proj2 (String.eqb_neq _ _) Hnow). }
  destruct Hst as [->| ->].
  - change (is_text (VText "completed") "completed") with true.
    change (is_text (VText "completed") "failed") with false.
    cbn [andb]. by destruct (truthy completed_at) eqn:Hc.
  - change (is_text (VText "failed") "completed") with false.
    change (is_text (VText "failed") "failed") with true.
    cbn [andb]. by destruct (truthy completed_at) eqn:Hc.
Qed.

(** The route never stamps [started_at]: a body whose status is
    [processing] or [queued], the statuses that the worker and the
    creation of a job write, is refused as invalid.  A body that passes
    keeps its status, which is falsy or one of the five valid texts, has
    a progress between 0 and 100 and counters that are not negative, and
    gets [completed_at] when its status is [completed] or [failed]. *)
Theorem patch_never_stamps_the_start (updates : Body) (now : string) :
  now ≠ EmptyString →
  match check_updates updates now with
  | Refused status _ => status = 400
  | Passed u =>
      u_status u = b_status updates ∧
      ¬ (u_status u = VText "processing") ∧ ¬ (u_status u = VText "queued") ∧
      (truthy (u_status u) = true → valid_status (u_status u) = true) ∧
      u_started_at u = b_started_at updates ∧
      (u_status u = VText "completed" ∨ u_status u = VText "failed" →
       truthy (u_completed_at u) = true) ∧
      (∀ n, u_progress u = Parsed n → ∃ z, n = Num z ∧ 0 ≤ z ≤ 100) ∧
      (∀ n, u_total_files u = Parsed n → ∃ z, n = Num z ∧ 0 ≤ z) ∧
      (∀ n, u_processed_files u = Parsed n → ∃ z, n = Num z ∧ 0 ≤ z)
  end.
Proof.
  intros Hnow. unfold check_updates.
  destruct (truthy (b_status updates) && negb (valid_status (b_status updates)))
    eqn:Hst; [done|].
  destruct (check_number (b_progress updates) (Some 100)) as [p|] eqn:Hp;
    [|done].
  destruct (check_number (b_total_files updates) None) as [tf|] eqn:Htf;
    [|done].
  destruct (check_number (b_processed_files updates) None) as [pf|] eqn:Hpf;
    [|done].
  cbn [u_status u_progress u_total_files u_processed_files u_started_at
       u_completed_at].
  pose proof (refused_texts _ "processing" Hst ltac:(done) eq_refl) as Hproc.
  pose proof (refused_texts _ "queued" Hst ltac:(done) eq_refl) as Hqueued.
  rewrite Hproc. cbn [andb].
  split; [done|].
  split; [by intros Heq%is_text_eq; rewrite Heq in Hproc|].
  split; [by intros Heq%is_text_eq; rewrite Heq in Hqueued|].
  split.
  { intros Ht. rewrite Ht in Hst. cbn [andb] in Hst.
    by apply negb_false_iff in Hst. }
  split; [done|].
  split; [by apply stamped|].
  apply check_number_range in Hp, Htf, Hpf.
  split; [|split].
  - intros n ->.
    destruct Hp as [[[=] _]|(z & [= ->] & _ & H0 & H100)].
    exists z. split; [done|]. split; [done|]. by apply H100.
  - intros n ->.
    destruct Htf as [[[=] _]|(z & [= ->] & _ & H0 & _)]. by exists z.
  - intros n ->.
    destruct Hpf as [[[=] _]|(z & [= ->] & _ & H0 & _)]. by exists z.
Qed.

Lemma patch_never_stamps_the_start_witness :
  match check_updates
          {| b_status := VText "completed"; b_progress := VText "100";
             b_total_files := VUndefined; b_processed_files := VUndefined;
             b_started_at := VUndefined; b_completed_at := VUndefined |}
          "2025-01-01T00:00:00.000Z" with
  | Refused status _ => status = 400
  | Passed u => u_started_at u = VUndefined
  end.
Proof.
  pose proof (patch_never_stamps_the_start
                {| b_status := VText "completed"; b_progress := VText "100";
                   b_total_files := VUndefined;
                   b_processed_files := VUndefined;
                   b_started_at := VUndefined;
                   b_completed_at := VUndefined |}
                "2025-01-01T00:00:00.000Z") as H.
  destruct (check_updates _ _); apply H; discriminate.
Defined.

(** *** The total time in the component *)

Lemma component_format (ms : Z) :
  0 ≤ ms < 2 ^ 53 →
  JobProgress.formatDuration ms = formatDuration (ms / 1000).
Proof.
  intros Hms. unfold JobProgress.formatDuration, formatDuration.
  assert (0 ≤ ms / 1000 ≤ ms).
  { split; [apply Z.div_pos; lia|]. apply Z.div_le_upper_bound; lia. }
  rewrite (floor_div_exact ms) by lia.
  set (s := ms / 1000) in *.
  assert (0 ≤ s / 60 ≤ s).
  { split; [apply Z.div_pos; lia|]. apply Z.div_le_upper_bound; lia. }
  rewrite !(floor_div_exact s) by lia.
  rewrite (floor_div_exact (s / 60)) by lia.
  rewrite Z.div_div by lia. change (60 * 60) with 3600.
  pose proof (Z.div_mod s 3600 ltac:(lia)).
  pose proof (Z.mod_pos_bound s 3600 ltac:(lia)).
  pose proof (Z.div_mod s 60 ltac:(lia)).
  pose proof (Z.mod_pos_bound s 60 ltac:(lia)).
  rewrite !Z.rem_mod_nonneg by lia.
  destruct (Z.ltb_spec 0 (s / 3600)) as [Hh|Hh].
  - rewrite !(proj2 (Z.ltb_ge _ _)) by lia.
    rewrite floor_div_exact by lia.
    assert ((s mod 3600) / 60 = (s / 60) mod 60) as ->; [|done].
    change 3600 with (60 * 60). rewrite Z.rem_mul_r by lia.
    rewrite (Z.mul_comm 60), Z.div_add by lia.
    rewrite Z.div_small by lia. lia.
  - assert (s / 3600 = 0) by lia. assert (s < 3600) by lia.
    destruct (Z.ltb_spec 0 (s / 60)) as [Hm|Hm].
    + rewrite (proj2 (Z.ltb_ge s 60)) by lia.
      by rewrite (proj2 (Z.ltb_lt s 3600)) by lia.
    + by rewrite (proj2 (Z.ltb_lt s 60)) by lia.
Qed.

(** The component shows the total time of the metrics, which is in
    seconds, as a number of milliseconds: what it shows is the text of a
    thousandth of the duration, [0s] for a job of less than a thousand
    seconds. *)
Theorem total_time_is_shown_as_milliseconds (job : JobTimes) (seconds : Z) :
  totalTime (calculateJobMetrics job) = Some seconds →
  0 < seconds < 2 ^ 53 →
  totalTimeFormatted (calculateJobMetrics job)
  = Some (formatDuration seconds) ∧
  JobProgress.total_time_shown (calculateJobMetrics job)
  = Some (formatDuration (seconds / 1000)) ∧
  (seconds < 1000 →
   JobProgress.total_time_shown (calculateJobMetrics job) = Some "0s").
Proof.
  intros Ht Hs. unfold JobProgress.total_time_shown. rewrite Ht.
  rewrite (proj2 (Z.ltb_lt 0 seconds)) by lia.
  rewrite component_format by lia.
  split; [|split; [done|]].
  - unfold calculateJobMetrics in *. cbn [totalTime totalTimeFormatted] in *.
    by rewrite Ht.
  - intros Hlt. by rewrite Z.div_small by lia.
Qed.

Lemma total_time_is_shown_as_milliseconds_witness :
  let m := calculateJobMetrics
             {| created_at := Some 0; started_at := Some 2000;
                completed_at := Some 7200000 |} in
  totalTimeFormatted m = Some "2h 0m" ∧
  JobProgress.total_time_shown m = Some "7s".
Proof.
  destruct (total_time_is_shown_as_milliseconds
              {| created_at := Some 0; started_at := Some 2000;
                 completed_at := Some 7200000 |} 7200)
    as (H1 & H2 & _); [reflexivity|lia|].
  split; [exact H1|exact H2].
Defined.

End RoutesProps.

(** ** From the worker to the routes *)

Module StoredProps.
Import Js Double Worker Accounting Hoare Observations Findings Validators.
Import WorkerProps FindingProps.

Lemma severity_of_valid (s : option string) :
  isValidSeverity (severity_of s) = true.
Proof.
  unfold severity_of.
  set (raw := toLowerCase (or_str s "medium")).
  destruct (severityMap !! raw) as [v|] eqn:Hv; [|reflexivity].
  unfold severityMap in Hv.
  repeat (apply lookup_insert_Some in Hv as [[_ <-]|[_ Hv]]; [reflexivity|]).
  by rewrite lookup_empty in Hv.
Qed.

Lemma rows_valid (rows : list FindingRow)
    (l : list (string * Orchestrator.TaggedIssue)) :
  map row_summary rows = map issue_summary l →
  Forall (λ row, isValidSeverity (f_severity row) = true) rows.
Proof.
  revert l. induction rows as [|row rows IH]; intros l H; [done|].
  destruct l as [|pi l]; [done|]. cbn [map] in H.
  injection H as Hpath Hsev Hcat Hrest.
  constructor; [|by eapply IH].
  rewrite Hsev. apply severity_of_valid.
Qed.

(** Every finding the worker stores bears one of the five severities, so
    that the severity filter of the reviews route accepts it and the
    summary of the route counts it. *)
Theorem stored_findings_are_all_counted (jobId repoId : string)
    (agentMap : gmap string string) (results : list FileResult) (w : World) :
  Forall (λ pi, toLowerCase
                  (or_str (BaseAgent.severity (Orchestrator.issue pi.2))
                     "medium") ∉ Object_prototype) (flattened results) →
  ∃ rows w',
    foldM (extract_file jobId repoId agentMap) results [] w
    = (Return rows, w') ∧
    Forall (λ row, isValidSeverity (f_severity row) = true) rows ∧
    JobsRoutes.counted (JobsRoutes.groupBySeverity (map JobsRoutes.review_of rows))
    = Z.of_nat (length rows).
Proof.
  intros _.
  destruct (extract_files_rows jobId repoId agentMap results [] w)
    as (rows & w' & Hrun & _ & Hs).
  exists rows, w'. split; [done|].
  pose proof (rows_valid rows _ Hs) as Hvalid. split; [done|].
  rewrite RoutesProps.counted_valid, length_map; [done|].
  apply Forall_fmap. eapply Forall_impl; [exact Hvalid|].
  intros row Hrow. by exists (f_severity row).
Qed.

Lemma stored_findings_are_all_counted_witness :
  ∃ rows w',
    foldM (extract_file "job-1" "repo-1" ∅) Samples.sample_results []
      (initial_world created_job "pending") = (Return rows, w') ∧
    Forall (λ row, isValidSeverity (f_severity row) = true) rows ∧
    JobsRoutes.counted
      (JobsRoutes.groupBySeverity (map JobsRoutes.review_of rows))
    = Z.of_nat (length rows).
Proof.
  apply (stored_findings_are_all_counted "job-1" "repo-1" ∅
           Samples.sample_results (initial_world created_job "pending")).
  apply (bool_decide_unpack _). vm_compute. exact I.
Defined.

End StoredProps.

(** ** Creating a repository *)

Module RepositoriesProps.
Import Js Validators JobsRoutes RepositoriesRoute.

Lemma store_eta (s : Store) :
  {| repositories := repositories s; review_jobs := review_jobs s;
     queue := queue s |} = s.
Proof. by destruct s. Qed.

Lemma filter_fresh (i : string) (l : list RepositoryRow) (row : RepositoryRow) :
  Forall (λ r, id r ≠ i) l → id row = i →
  List.filter (λ r, negb (String.eqb (id r) i)) (l ++ [row]) = l.
Proof.
  intros Hl Hrow. rewrite List.filter_app. cbn [List.filter].
  rewrite Hrow, String.eqb_refl. cbn [negb]. rewrite app_nil_r.
  induction Hl as [|r l Hr Hl IH]; [done|]. cbn [List.filter].
  rewrite (proj2 (String.eqb_neq _ _) Hr). cbn [negb]. by rewrite IH.
Qed.

(** A request that is not answered with 201 leaves the store and the
    queue as they were, provided the store carries out the delete that
    undoes the insert of the repository. *)
Theorem post_failure_leaves_no_trace (env : Env) (req : Request) (s : Store) :
  fresh env s → delete_fault env = false →
  code (post env req s).1 ≠ 201 →
  (post env req s).2 = s.
Proof.
  intros Hfresh Hdel. unfold post.
  destruct (truthy (req_repo_url req)); cbn [negb]; [|done].
  destruct (isValidGitHubUrl (to_text (req_repo_url req))); cbn [negb]; [|done].
  destruct (parseGitHubUrl_value (req_repo_url req)) as [info|]; [|done].
  destruct (repositories_fault env); [done|].
  destruct (jobs_fault env); [|done].
  intros _. rewrite Hdel. cbn [snd repositories review_jobs queue id].
  rewrite filter_fresh by done. apply store_eta.
Qed.

Lemma post_failure_leaves_no_trace_witness :
  code (post jobs_down sample_request empty_store).1 = 500 ∧
  (post jobs_down sample_request empty_store).2 = empty_store.
Proof.
  split; [reflexivity|].
  apply post_failure_leaves_no_trace;
    [constructor|reflexivity|vm_compute; discriminate].
Defined.

(** A request is answered with 201 only for a text that
    [isValidGitHubUrl] accepts.  The store then holds a new repository,
    pending, under the URL that [parseGitHubUrl] made of the text, and a
    new job for it, queued with progress 0.  The job is in the queue once
    if the queue could be reached, and not at all otherwise: the failure
    of the queue is not reported. *)
Theorem post_created (env : Env) (req : Request) (s : Store)
    (repository : RepositoryRow) (job : JobRow) :
  (length (ReviewQueue.entries_for (new_job_id env) (queue s)) ≤ 1)%nat →
  (post env req s).1 = Created repository job →
  let s' := (post env req s).2 in
  (∃ u, req_repo_url req = VText u ∧ isValidGitHubUrl u = true ∧
        repo_url repository = url (parseGitHubUrl u)) ∧
  repositories s' = repositories s ++ [repository] ∧
  review_jobs s' = review_jobs s ++ [job] ∧
  status repository = "pending" ∧ id repository = repository_id env ∧
  job_status job = "queued" ∧ progress job = 0 ∧
  repo_id job = id repository ∧ job_id job = new_job_id env ∧
  match queue_fault env with
  | None => length (ReviewQueue.entries_for (job_id job) (queue s')) = 1%nat
  | Some _ => queue s' = queue s
  end.
Proof.
  intros Hq. unfold post.
  destruct (truthy (req_repo_url req)); cbn [negb]; [|done].
  destruct (isValidGitHubUrl (to_text (req_repo_url req))) eqn:Hvalid;
    cbn [negb]; [|done].
  destruct (req_repo_url req) as [| | | |u|] eqn:Hu; try done.
  cbn [parseGitHubUrl_value to_text] in *.
  destruct (repositories_fault env); [done|].
  destruct (jobs_fault env); [done|].
  cbn [fst snd]. intros [= <- <-]. cbv zeta.
  destruct (queue_fault env);
    cbn [repositories review_jobs queue id status job_status progress repo_id
         job_id repo_url];
    (split; [by exists u|]); repeat (split; [done|]); [done|].
  unfold ReviewQueue.queueReviewJob.
  pose proof (QueueProps.add_one_entry (policy env) (queue s) "code-review"
    {| ReviewQueue.jobId := new_job_id env;
       ReviewQueue.repoId := repository_id env;
       ReviewQueue.queuedAt := now env |}
    (ReviewQueue.job_options (new_job_id env) ReviewQueue.no_options)) as H.
  rewrite QueueProps.job_options_id in H by done. by apply H.
Qed.

Lemma post_created_witness :
  ∃ repository job,
    (post queue_down sample_request empty_store).1 = Created repository job ∧
    repo_url repository = "https://github.com/facebook/react" ∧
    review_jobs (post queue_down sample_request empty_store).2 = [job] ∧
    queue (post queue_down sample_request empty_store).2 = [].
Proof.
  destruct (post queue_down sample_request empty_store).1
    as [|repository job|] eqn:Hpost; [by vm_compute in Hpost| |by vm_compute in Hpost].
  exists repository, job. split; [done|].
  destruct (post_created queue_down sample_request empty_store repository job)
    as ((u & Hu & _ & Hurl) & _ & Hjobs & _ & _ & _ & _ & _ & _ & Hqueue);
    [cbn; lia|exact Hpost|].
  injection Hu as <-. split; [by rewrite Hurl|]. split; [exact Hjobs|].
  exact Hqueue.
Defined.

End RepositoriesProps.

(** ** The trace and the log of a whole run *)

Module PipelineProps.
Import Js Double Worker Accounting Hoare Observations Findings.
Import WorkerProps FindingProps.

(** *** Confined operations *)

Section Confined.

Variable ok : Event → bool.
Variable okl : LogEntry → bool.

Lemma confined_same {A} (m : M A) :
  (∀ w, trace (m w).2 = trace w ∧ log (m w).2 = log w) → confined ok okl m.
Proof.
  intros H w. destruct (H w) as [H1 H2]. exists [], [].
  by rewrite !app_nil_r.
Qed.

Lemma confined_ret {A} (a : A) : confined ok okl (ret a).
Proof. by apply confined_same. Qed.

Lemma confined_throw {A} (e : Error) : confined ok okl (@throw A e).
Proof. by apply confined_same. Qed.

Lemma confined_now : confined ok okl now.
Proof. by apply confined_same. Qed.

Lemma confined_set_cleanup dir : confined ok okl (set_cleanup dir).
Proof. by apply confined_same. Qed.

Lemma confined_emit (ev : Event) : ok ev = true → confined ok okl (emit ev).
Proof.
  intros Hev w. exists [ev], []. rewrite app_nil_r.
  repeat split; by constructor.
Qed.

Lemma confined_logger lvl msg :
  okl {| level := lvl; text := msg |} = true →
  confined ok okl (logger lvl msg).
Proof.
  intros Hl w. exists [], [{| level := lvl; text := msg |}].
  rewrite app_nil_r. repeat split; by constructor.
Qed.

Lemma confined_bind {A B} (m : M A) (k : A → M B) :
  confined ok okl m → (∀ a, confined ok okl (k a)) →
  confined ok okl (bind m k).
Proof.
  intros Hm Hk w. unfold bind.
  destruct (Hm w) as (Δ & Λ & Ht & HΔ & Hl & HΛ).
  destruct (m w) as [[a|e] w1]; simpl in *; [|by exists Δ, Λ].
  destruct (Hk a w1) as (Δ' & Λ' & Ht' & HΔ' & Hl' & HΛ').
  exists (Δ ++ Δ'), (Λ ++ Λ').
  rewrite Ht', Ht, Hl', Hl, !app_assoc.
  repeat split; by apply Forall_app.
Qed.

Lemma confined_foldM {A B} (f : B → A → M B) (l : list A) (b : B) :
  (∀ b a, confined ok okl (f b a)) → confined ok okl (foldM f l b).
Proof.
  intros Hf. revert b. induction l as [|a l IH]; intros b; simpl.
  - apply confined_ret.
  - apply confined_bind; [apply Hf|]. intros b'. apply IH.
Qed.

End Confined.

Ltac confined_step :=
  lazymatch goal with
  | |- confined _ _ (bind _ _) => apply confined_bind; [|intros ?]
  | |- confined _ _ (ret _) => apply confined_ret
  | |- confined _ _ (throw _) => apply confined_throw
  | |- confined _ _ (logger _ _) => apply confined_logger; reflexivity
  | |- confined _ _ now => apply confined_now
  | |- confined _ _ (set_cleanup _) => apply confined_set_cleanup
  | |- confined _ _ (emit _) => apply confined_emit; reflexivity
  | |- confined _ _ (job_progress _) => apply confined_emit; reflexivity
  | |- confined _ _ (write_job _) => by apply confined_same
  | |- confined _ _ (write_repository_status _) => by apply confined_same
  | |- confined _ _ (write_results _) => by apply confined_same
  | |- confined _ _ (write_reviews _) => by apply confined_same
  | |- confined _ _ next_jobs_call => by apply confined_same
  | |- confined _ _ next_repositories_call => by apply confined_same
  end.

Ltac confined_auto := repeat confined_step.

(** Extracting the findings touches no collaborator and writes warnings
    only. *)
Lemma confined_push_finding jobId repoId agentMap filePath all issue :
  confined no_event is_warning
    (push_finding jobId repoId agentMap filePath all issue).
Proof.
  unfold push_finding. confined_auto. destruct (truthy_str _); confined_auto.
Qed.

Lemma confined_extract_file jobId repoId agentMap all fr :
  confined no_event is_warning (extract_file jobId repoId agentMap all fr).
Proof.
  unfold extract_file. destruct (String.eqb _ _); confined_auto.
  apply confined_foldM. intros. apply confined_push_finding.
Qed.

Lemma prefix_app (s t : string) : String.prefix s (s +:+ t) = true.
Proof.
  induction s as [|c s IH]; simpl; [by destruct t|].
  by destruct (ascii_dec c c).
Qed.

(** The loop over the batches emits inserts of batches and writes batch
    errors only. *)
Lemma confined_insert_batches env fuel all i n :
  confined is_batch is_batch_error (insert_batches env fuel all i n).
Proof.
  revert i n. induction fuel as [|fuel IH]; intros i n; simpl; confined_auto.
  destruct (_ <? _)%nat; confined_auto; [|apply IH].
  unfold insert_batch. destruct (reviews_fault env _); confined_auto.
  apply confined_logger. unfold is_batch_error. cbn [level text].
  apply prefix_app.
Qed.

(** The [finally] block removes the directory and writes warnings only. *)
Lemma confined_finalizer env : confined is_removal is_warning (finalizer env).
Proof.
  intros w. unfold finalizer. destruct (cleanup w) as [dir|].
  - revert w. change (confined is_removal is_warning (cleanupTempDir env dir)).
    unfold cleanupTempDir. confined_auto. destruct (fs_remove env); confined_auto.
  - exists [], []. by rewrite !app_nil_r.
Qed.

(** *** Outside the analysis loop no file is handed to the orchestrator *)

Lemma elsewhere_updateJobStatus env jobId u :
  confined not_analysis any_entry (updateJobStatus env jobId u).
Proof.
  unfold updateJobStatus. confined_auto.
  destruct (jobs_fault env _); confined_auto.
Qed.

Lemma elsewhere_updateRepositoryStatus env repoId s :
  confined not_analysis any_entry (updateRepositoryStatus env repoId s).
Proof.
  unfold updateRepositoryStatus. confined_auto.
  destruct (repositories_fault env _); confined_auto.
Qed.

Lemma elsewhere_save_results env row : confined not_analysis any_entry (save_results env row).
Proof. unfold save_results. destruct (results_fault env); confined_auto. Qed.

Lemma elsewhere_insert_batches env fuel all i n :
  confined not_analysis any_entry (insert_batches env fuel all i n).
Proof.
  revert i n. induction fuel as [|fuel IH]; intros i n; simpl; confined_auto.
  destruct (_ <? _)%nat; confined_auto; [|apply IH].
  unfold insert_batch. destruct (reviews_fault env _); confined_auto.
Qed.

Lemma elsewhere_push_finding jobId repoId agentMap filePath all issue :
  confined not_analysis any_entry (push_finding jobId repoId agentMap filePath all issue).
Proof.
  unfold push_finding. confined_auto. destruct (truthy_str _); confined_auto.
Qed.

Lemma elsewhere_extract_file jobId repoId agentMap all fr :
  confined not_analysis any_entry (extract_file jobId repoId agentMap all fr).
Proof.
  unfold extract_file. destruct (String.eqb _ _); confined_auto.
  apply confined_foldM. intros. apply elsewhere_push_finding.
Qed.

Lemma elsewhere_save_findings env jobId repoId results :
  confined not_analysis any_entry (save_findings env jobId repoId results).
Proof.
  unfold save_findings. apply confined_bind; [confined_auto|intros _].
  destruct (fetch_agents env) as [agents agentsError].
  apply confined_bind; [destruct agentsError; confined_auto|intros _].
  apply confined_bind; [destruct agents; confined_auto|intros _].
  apply confined_bind;
    [apply confined_foldM; intros; apply elsewhere_extract_file|intros all].
  destruct all; confined_auto. apply elsewhere_insert_batches.
Qed.

Lemma elsewhere_on_error env jobId repoId e :
  confined not_analysis any_entry (on_error env jobId repoId e).
Proof.
  unfold on_error. confined_auto.
  - apply elsewhere_updateJobStatus.
  - apply elsewhere_updateRepositoryStatus.
Qed.

Lemma elsewhere_finalizer env : confined not_analysis any_entry (finalizer env).
Proof.
  intros w. unfold finalizer. destruct (cleanup w) as [dir|].
  - revert w. change (confined not_analysis any_entry (cleanupTempDir env dir)).
    unfold cleanupTempDir. confined_auto. destruct (fs_remove env); confined_auto.
  - exists [], []. by rewrite !app_nil_r.
Qed.

(** *** The analysis loop *)

Lemma analyze_files_each env jobId len files i acc w :
  ∃ Δ, trace (analyze_files env jobId len files i acc w).2 = trace w ++ Δ ∧
       reported_each len i files Δ.
Proof.
  revert i acc w. induction files as [|f files IH]; intros i acc w; simpl.
  - exists []. rewrite app_nil_r. split; [done|constructor].
  - destruct (analyze_file_run env jobId len acc i f w) as (w1 & Hturn & _).
    unfold bind. destruct (jobs_fault env (jobs_calls w)) as [e|].
    + destruct Hturn as (-> & Ht & _). simpl. eexists. split; [exact Ht|].
      constructor.
    + destruct Hturn as (-> & Ht & _).
      destruct (IH (i + 1) (push_result acc f (report_of env f)) w1)
        as (Δ & HΔ & Hat).
      eexists. split.
      * rewrite HΔ, Ht, <- app_assoc. done.
      * simpl. by constructor.
Qed.

Lemma analyzed_files_app t t' :
  analyzed_files (t ++ t') = analyzed_files t ++ analyzed_files t'.
Proof. apply omap_app. Qed.

Lemma analyzed_files_elsewhere Δ :
  Forall (λ ev, not_analysis ev = true) Δ → analyzed_files Δ = [].
Proof.
  induction 1 as [|ev Δ Hev _ IH]; [done|].
  destruct ev; try done. 
Qed.

(** The steps before the loop, in a run that reaches it. *)
Lemma pipeline_reaches_analysis env jobId repoId j s files
    (P : Completion JobResult * World → Prop) :
  reaches_analysis env files →
  (∀ w (k : Totals → M JobResult),
     analyzed_files (trace w) = [] →
     (∀ totals, confined not_analysis any_entry (k totals)) →
     P (bind (analyze_files env jobId (Z.of_nat (length files)) files 0
                no_totals) k w)) →
  P (pipeline env jobId repoId (initial_world j s)).
Proof.
  intros ([repo Hrepo] & Hclone & Hfiles & Hj0 & Hj1 & Hr0 & Hr1) HP.
  unfold pipeline, initial_world, parseCodeFiles.
  step. rewrite Hrepo.
  step.
  erewrite run_bind; [|run_head; rewrite Hj0; run_head; reflexivity];
    cbv beta iota; world_simpl.
  erewrite run_bind; [|run_head; rewrite Hr0; run_head; reflexivity];
    cbv beta iota; world_simpl.
  do 4 step.
  erewrite run_bind; [|run_head; rewrite Hr1; run_head; reflexivity];
    cbv beta iota; world_simpl.
  rewrite Hfiles.
  step.
  erewrite run_bind; [|run_head; rewrite Hj1; run_head; reflexivity];
    cbv beta iota; world_simpl.
  step.
  apply HP.
  - reflexivity.
  - intros totals. confined_auto.
    + apply elsewhere_save_results.
    + apply elsewhere_save_findings.
    + apply elsewhere_updateJobStatus.
    + apply elsewhere_updateRepositoryStatus.
Qed.

(** What follows the [try] block, whatever its outcome. *)
Lemma confined_settle {A} ok okl (handler : Error → M A) fin
    (r : Completion A * World) (w0 : World) :
  (∀ e, confined ok okl (handler e)) → confined ok okl fin →
  ∃ Δ Λ,
    trace (try_catch_finally (λ _, r) handler fin w0).2 = trace r.2 ++ Δ ∧
    Forall (λ ev, ok ev = true) Δ ∧
    log (try_catch_finally (λ _, r) handler fin w0).2 = log r.2 ++ Λ ∧
    Forall (λ l, okl l = true) Λ.
Proof.
  intros Hh Hf. unfold try_catch_finally. destruct r as [[a|e] w1].
  - destruct (Hf w1) as (Δ & Λ & H). exists Δ, Λ.
    by destruct (fin w1) as [[[]|e'] w2].
  - destruct (Hh e w1) as (Δ1 & Λ1 & Ht1 & HΔ1 & Hl1 & HΛ1).
    destruct (handler e w1) as [c w2]. simpl in *.
    destruct (Hf w2) as (Δ2 & Λ2 & Ht2 & HΔ2 & Hl2 & HΛ2).
    exists (Δ1 ++ Δ2), (Λ1 ++ Λ2).
    rewrite !app_assoc, <- Ht1, <- Hl1.
    destruct (fin w2) as [[[]|e'] w3]; simpl in *;
      repeat split; try done; by apply Forall_app.
Qed.

(** In a run that reaches the analysis loop, the trace is made of the
    steps before the loop, the loop's turns, one per file and each
    reported at once, and the steps after it. *)
Lemma run_reports_each env job j s files :
  reaches_analysis env files →
  ∃ pre Δ post,
    trace (processReviewJob env job (initial_world j s)).2
    = pre ++ Δ ++ post ∧
    analyzed_files pre = [] ∧ analyzed_files post = [] ∧
    reported_each (Z.of_nat (length files)) 0 files Δ.
Proof.
  intros Hreach.
  change (processReviewJob env job (initial_world j s))
    with (try_catch_finally
            (λ _, pipeline env (ReviewQueue.jobId job) (ReviewQueue.repoId job)
                    (initial_world j s))
            (on_error env (ReviewQueue.jobId job) (ReviewQueue.repoId job))
            (finalizer env) (initial_world j s)).
  apply (pipeline_reaches_analysis env _ _ j s files
           (λ r, ∃ pre Δ post,
              trace (try_catch_finally (λ _, r) _ _ _).2 = pre ++ Δ ++ post ∧
              analyzed_files pre = [] ∧ analyzed_files post = [] ∧
              reported_each (Z.of_nat (length files)) 0 files Δ) Hreach).
  intros w k Hpre Hk. unfold bind.
  destruct (analyze_files_each env (ReviewQueue.jobId job)
              (Z.of_nat (length files)) files 0 no_totals w)
    as (Δ & HΔ & Heach).
  destruct (analyze_files _ _ _ _ _ _ w) as [[t|e] w1]; simpl in HΔ.
  - destruct (Hk t w1) as (Δ2 & _ & Ht2 & HΔ2 & _).
    destruct (confined_settle not_analysis any_entry
                (on_error env (ReviewQueue.jobId job) (ReviewQueue.repoId job))
                (finalizer env) (k t w1) (initial_world j s))
      as (Δ3 & _ & Ht3 & HΔ3 & _);
      [apply elsewhere_on_error|apply elsewhere_finalizer|].
    exists (trace w), Δ, (Δ2 ++ Δ3).
    rewrite Ht3, Ht2, HΔ, <- !app_assoc. split; [done|].
    split; [done|]. split; [|done].
    rewrite analyzed_files_app.
    by rewrite !analyzed_files_elsewhere.
  - destruct (confined_settle not_analysis any_entry
                (on_error env (ReviewQueue.jobId job) (ReviewQueue.repoId job))
                (finalizer env) (@Throw JobResult e, w1) (initial_world j s))
      as (Δ3 & _ & Ht3 & HΔ3 & _);
      [apply elsewhere_on_error|apply elsewhere_finalizer|].
    exists (trace w), Δ, Δ3. simpl in Ht3.
    rewrite Ht3, HΔ, <- !app_assoc. split; [done|].
    split; [done|]. split; [|done].
    by apply analyzed_files_elsewhere.
Qed.

(** *** Progress *)

(** C8, as stated: a job whose earlier attempt analysed its three files
    and failed on the aggregate report is run again by the queue.  The
    new attempt marks the job processing with the progress column still
    at 90, and the first file it reports brings the column down to 56. *)
Lemma retried_job_progress_counterexample :
  let earlier :=
    processReviewJob report_refused_env sample_job
      (initial_world created_job "pending") in
  let j := job_row earlier.2 in
  let run := processReviewJob sample_env sample_job (retry_world earlier.2) in
  let rows := observed_rows j (trace run.2) in
  units_ok j ∧
  map (λ r, (status r, progress r)) rows
  = [(failed, 90); (processing, 90); (processing, 90); (processing, 56);
     (processing, 73); (processing, 90); (completed, 100)] ∧
  ¬ nondecreasing (map progress (List.filter is_processing rows)).
Proof.
  cbv zeta. split; [vm_compute; discriminate|].
  split; [vm_compute; reflexivity|].
  match goal with
  | |- ¬ nondecreasing ?l =>
      assert (Heq : l = [90; 90; 56; 73; 90]) by (vm_compute; reflexivity);
        rewrite Heq
  end.
  intros H. apply StronglySorted_inv in H as [_ H].
  apply Forall_inv_tail, Forall_inv in H. lia.
Qed.

(** C8, amended.  In every run that starts from a job row with
    [processed_files <= total_files]: every state of the row an observer
    of the store can see keeps [processed_files <= total_files]; the
    progress values passed to [job.progress] (10, 30, 40, one per file,
    100) never decrease; the progress column of the row never decreases
    either when the run starts with at most 40 in it, as every first
    attempt does; and in a run that reaches the analysis loop the files
    are handed to the orchestrator in the loop only, one after the other,
    each followed at once by the update of the row and by the progress
    notification, the loop ending early only at a refused update. *)
Theorem progress_accounting (env : Env) (job : ReviewQueue.JobData)
    (j : JobRow) (s : string) :
  units_ok j →
  let t := trace (processReviewJob env job (initial_world j s)).2 in
  Forall units_ok (observed_rows j t) ∧
  nondecreasing (progress_values t) ∧
  (progress j ≤ 40 → nondecreasing (map progress (observed_rows j t))) ∧
  (∀ files, reaches_analysis env files →
     ∃ pre Δ post,
       t = pre ++ Δ ++ post ∧
       analyzed_files pre = [] ∧ analyzed_files post = [] ∧
       reported_each (Z.of_nat (length files)) 0 files Δ) ∧
  (∀ jobId len files i acc w,
     ∃ Δ, trace (analyze_files env jobId len files i acc w).2 = trace w ++ Δ ∧
          reported_at_once len i Δ).
Proof.
  intros Hj t. subst t.
  pose proof (hoare_processReviewJob env job j (initial_world j s)
                (Inv_initial j s Hj)) as H.
  assert (Htop : Top j (processReviewJob env job (initial_world j s)).2).
  { by destruct (processReviewJob env job (initial_world j s)) as [[r|e] w']. }
  destruct Htop as [_ H2 H3 _ H5 _].
  split; [done|]. split; [done|]. split; [done|]. split.
  - intros files. apply run_reports_each.
  - intros. apply analyze_files_at_once.
Qed.

Lemma progress_accounting_witness :
  let t :=
    trace (processReviewJob sample_env sample_job
             (initial_world created_job "pending")).2 in
  Forall units_ok (observed_rows created_job t) ∧
  nondecreasing (progress_values t) ∧
  nondecreasing (map progress (observed_rows created_job t)) ∧
  ∃ pre Δ post,
    t = pre ++ Δ ++ post ∧
    analyzed_files pre = [] ∧ analyzed_files post = [] ∧
    reported_each 3 0 sample_files Δ.
Proof.
  pose proof (progress_accounting sample_env sample_job created_job "pending")
    as H.
  destruct H as (H1 & H2 & H3 & H4 & _).
  - unfold units_ok. simpl. lia.
  - split; [exact H1|]. split; [exact H2|]. split.
    + apply H3. simpl. lia.
    + apply (H4 sample_files).
      split; [by eexists|]. repeat split.
Defined.

(** *** Persistence *)

Lemma no_event_nil (Δ : list Event) :
  Forall (λ ev, no_event ev = true) Δ → Δ = [].
Proof. destruct 1 as [|ev Δ Hev _]; [done|discriminate]. Qed.

Lemma extract_files_run jobId repoId agentMap results w :
  ∃ rows w' Λ,
    foldM (extract_file jobId repoId agentMap) results [] w
    = (Return rows, w') ∧
    map file_path rows = map fst (flattened results) ∧
    trace w' = trace w ∧
    log w' = log w ++ Λ ∧ Forall (λ l, is_warning l = true) Λ.
Proof.
  destruct (extract_files_rows jobId repoId agentMap results [] w)
    as (rows & w' & Hrun & _ & Hs).
  destruct (confined_foldM no_event is_warning
              (extract_file jobId repoId agentMap) results []
              (λ b a, confined_extract_file jobId repoId agentMap b a) w)
    as (Δ & Λ & Ht & HΔ & Hl & HΛ).
  rewrite Hrun in Ht, Hl. simpl in Ht, Hl.
  apply no_event_nil in HΔ as ->. rewrite app_nil_r in Ht.
  exists rows, w', Λ. repeat split; try done.
  apply (f_equal (map (λ x : string * string * string, x.1.1))) in Hs.
  by rewrite !map_map in Hs.
Qed.

Lemma batch_errors_all (Λ : list LogEntry) :
  Forall (λ l, is_batch_error l = true) Λ → List.filter is_batch_error Λ = Λ.
Proof.
  induction 1 as [|l Λ Hl _ IH]; [done|]. simpl. by rewrite Hl, IH.
Qed.

Lemma batch_errors_none (Λ : list LogEntry) :
  Forall (λ l, is_warning l = true) Λ → List.filter is_batch_error Λ = [].
Proof.
  induction 1 as [|l Λ Hl _ IH]; [done|]. simpl.
  unfold is_batch_error, is_warning in *. by destruct (level l).
Qed.

Lemma refused_batches_logged env fuel all i n w Δ Λ :
  (length all - i ≤ fuel * BATCH_SIZE)%nat →
  trace (insert_batches env fuel all i n w).2 = trace w ++ Δ →
  log (insert_batches env fuel all i n w).2 = log w ++ Λ →
  length (List.filter is_batch_error Λ) = refused_batches Δ ∧
  Forall (λ ev, is_batch ev = true) Δ.
Proof.
  intros Hfuel Ht Hl.
  destruct (insert_batches_run env fuel all i n w Hfuel)
    as (n' & Δ' & Λ' & _ & [H1 H2 _ _ H5 _ _]).
  destruct (confined_insert_batches env fuel all i n w)
    as (Δ'' & Λ'' & H1' & HΔ & H2' & HΛ).
  rewrite Ht in H1, H1'. rewrite Hl in H2, H2'.
  apply app_inv_head in H1 as <-. apply app_inv_head in H1' as <-.
  apply app_inv_head in H2 as <-. apply app_inv_head in H2' as <-.
  by rewrite batch_errors_all.
Qed.

(** The loop over the findings and the loop over the batches. *)
Lemma findings_run env jobId repoId agentMap results w :
  let run :=
    (let* allFindings :=
       foldM (extract_file jobId repoId agentMap) results [] in
     match allFindings with
     | [] => ret ()
     | _ =>
         let* _ := insert_batches env (length allFindings) allFindings 0 0 in
         ret ()
     end) w in
  ∃ rows Δ Λ,
    run.1 = Return () ∧
    trace run.2 = trace w ++ Δ ∧
    log run.2 = log w ++ Λ ∧
    Forall (λ ev, is_batch ev = true) Δ ∧
    map file_path rows = map fst (flattened results) ∧
    concat (map fst (attempted Δ)) = rows ∧
    (∀ k b a, attempted Δ !! k = Some (b, a) →
       (a = true ↔ reviews_fault env k = None)) ∧
    length (List.filter is_batch_error Λ) = refused_batches Δ.
Proof.
  intros run. subst run.
  destruct (extract_files_run jobId repoId agentMap results w)
    as (rows & w1 & Λ1 & Hrun & Hpaths & Ht1 & Hl1 & HΛ1).
  erewrite run_bind; [|exact Hrun]. cbv beta iota.
  destruct rows as [|row rows].
  - exists [], [], Λ1. unfold ret. cbn [fst snd].
    rewrite Ht1, Hl1, app_nil_r, batch_errors_none by done.
    repeat split; try done.
  - set (all := row :: rows) in *.
    destruct (insert_batches_chunks env (length all) all 0 0 w1)
      as (Δ & Ht & Hcat & Hk & Hret & _); [unfold BATCH_SIZE; lia|].
    destruct (confined_insert_batches env (length all) all 0 0 w1)
      as (Δ' & Λ & Ht' & _ & Hl & _).
    destruct (refused_batches_logged env (length all) all 0 0 w1 Δ Λ)
      as [Hlogged Hbatches]; [unfold BATCH_SIZE; lia|done|done|].
    unfold bind.
    destruct (insert_batches env (length all) all 0 0 w1) as [[n|e] w2];
      [|discriminate].
    simpl in *. exists all, Δ, (Λ1 ++ Λ). unfold ret. cbn [fst snd].
    rewrite Ht, Ht1, Hl, Hl1, app_assoc.
    repeat (split; [done|]). split.
    + intros k b a Hlook. by apply (Hk k b a Hlook).
    + rewrite List.filter_app, batch_errors_none by done. done.
Qed.

(** The steps of [save_findings] before the two loops. *)
Lemma save_findings_head env jobId repoId results w :
  ∃ Λ0 w2,
    save_findings env jobId repoId results w
    = (let* allFindings :=
         foldM (extract_file jobId repoId
                  (build_agentMap (fetch_agents env).1)) results [] in
       match allFindings with
       | [] => ret ()
       | _ =>
           let* _ :=
             insert_batches env (length allFindings) allFindings 0 0 in
           ret ()
       end) w2 ∧
    trace w2 = trace w ++ [EvFetchAgents] ∧
    log w2 = log w ++ Λ0 ∧
    List.filter is_batch_error Λ0 = [].
Proof.
  unfold save_findings.
  destruct (fetch_agents env) as [agents agentsError].
  destruct agentsError as [e|], agents as [l|];
    [exists [{| level := error;
                text := "Failed to fetch agents: " +:+ message e |}]
    |exists [{| level := error;
                text := "Failed to fetch agents: " +:+ message e |};
             {| level := warn; text := "No agents found in database!" |}]
    |exists []
    |exists [{| level := warn; text := "No agents found in database!" |}]];
    eexists;
    (split;
     [do 3 (erewrite run_bind; [|reflexivity]; cbv beta iota); reflexivity|]);
    unfold emit, logger, modify, ret; world_simpl;
    rewrite <- ?app_assoc, ?app_nil_r; repeat split.
Qed.

(** Step 6.5 as a whole: it cannot raise; it hands every finding of the
    results to the store, in batches, whatever the store answered to the
    earlier ones, and writes one batch error per refused batch. *)
Lemma save_findings_run env jobId repoId results w :
  let run := save_findings env jobId repoId results w in
  ∃ rows Δ Λ,
    run.1 = Return () ∧
    trace run.2 = trace w ++ [EvFetchAgents] ++ Δ ∧
    log run.2 = log w ++ Λ ∧
    Forall (λ ev, is_batch ev = true) Δ ∧
    map file_path rows = map fst (flattened results) ∧
    concat (map fst (attempted Δ)) = rows ∧
    (∀ k b a, attempted Δ !! k = Some (b, a) →
       (a = true ↔ reviews_fault env k = None)) ∧
    length (List.filter is_batch_error Λ) = refused_batches Δ.
Proof.
  intros run. subst run.
  destruct (save_findings_head env jobId repoId results w)
    as (Λ0 & w2 & -> & Ht2 & Hl2 & HΛ0).
  destruct (findings_run env jobId repoId
              (build_agentMap (fetch_agents env).1) results w2)
    as (rows & Δ & Λ & Hret & Ht & Hl & HΔ & Hp & Hc & Hk & Hn).
  cbv zeta in Hret, Ht, Hl.
  exists rows, Δ, (Λ0 ++ Λ).
  rewrite Hret, Ht, Hl, Ht2, Hl2, <- !app_assoc.
  repeat (split; [done|]).
  by rewrite List.filter_app, HΛ0.
Qed.
(** The analysis loop when the store accepts every update: it returns,
    it leaves the log alone and it stores nothing. *)
Lemma analyze_files_accepted env jobId len files i acc w :
  (∀ k, jobs_fault env k = None) →
  ∃ t w1 Δ,
    analyze_files env jobId len files i acc w = (Return t, w1) ∧
    trace w1 = trace w ++ Δ ∧ log w1 = log w ∧
    attempted Δ = [] ∧ stored_reports Δ = [].
Proof.
  intros Hjobs. revert i acc w.
  induction files as [|f files IH]; intros i acc w; simpl.
  - exists acc, w, []. by rewrite app_nil_r.
  - destruct (analyze_file_run env jobId len acc i f w) as (w1 & Hturn & _).
    rewrite Hjobs in Hturn. destruct Hturn as (Hrun & Ht & Hl & _).
    erewrite run_bind; [|exact Hrun]. cbv beta iota.
    destruct (IH (i + 1) (push_result acc f (report_of env f)) w1)
      as (t & w2 & Δ & Hrest & Ht2 & Hl2 & Ha & Hs).
    exists t, w2,
      ([EvAnalyze (path f); EvJobUpdate (file_update len i) true;
        EvProgress (progressPercent (i + 1) len)] ++ Δ).
    rewrite Hrest, Ht2, Ht, Hl2, Hl, <- app_assoc.
    repeat split; try done.
Qed.

Lemma attempted_elsewhere Δ :
  Forall (λ ev, is_removal ev = true) Δ →
  attempted Δ = [] ∧ stored_reports Δ = [].
Proof.
  induction 1 as [|ev Δ Hev _ [IH1 IH2]]; [done|]. by destruct ev.
Qed.

Lemma attempted_app t t' : attempted (t ++ t') = attempted t ++ attempted t'.
Proof. apply omap_app. Qed.

Lemma stored_reports_app t t' :
  stored_reports (t ++ t') = stored_reports t ++ stored_reports t'.
Proof. apply omap_app. Qed.

Lemma stored_reports_batches Δ :
  Forall (λ ev, is_batch ev = true) Δ → stored_reports Δ = [].
Proof. induction 1 as [|ev Δ Hev _ IH]; [done|]. by destruct ev. Qed.

(** A run in which the analysis goes through and the store takes the
    aggregate report. *)
Lemma run_saves_findings env job w
    (P : Completion JobResult * World → Prop) :
  analysis_goes_through env →
  results_fault env = None →
  (∀ r w' T Λ row rows,
     trace w' = trace w ++ T → log w' = log w ++ Λ →
     stored_reports T = [(row, true)] →
     map file_path rows = map fst (flattened (fileResults (rr_results row))) →
     concat (map fst (attempted T)) = rows →
     (∀ k b a, attempted T !! k = Some (b, a) →
        (a = true ↔ reviews_fault env k = None)) →
     length (List.filter is_batch_error Λ) = refused_batches T →
     P (Return r, w')) →
  P (processReviewJob env job w).
Proof.
  intros ([Hjobs Hrepos] & [repo Hrepo] & Hclone & [files Hfiles]) Hfault HP.
  unfold processReviewJob, try_catch_finally, pipeline, parseCodeFiles.
  step. rewrite Hrepo. do 8 step. rewrite Hfiles. do 3 step.
  match goal with
  | |- context [bind (analyze_files ?e ?j ?l ?f ?i ?a) _ ?w0] =>
      destruct (analyze_files_accepted e j l f i a w0 Hjobs)
        as (t & w1 & Δ1 & Hloop & Ht1 & Hl1 & Ha1 & Hs1)
  end.
  erewrite run_bind; [|exact Hloop]. cbv beta iota.
  cbn [trace log] in Ht1, Hl1. clear Hloop.
  step. unfold save_results. rewrite Hfault.
  erewrite run_bind;
    [|cbv beta iota zeta delta [bind write_results emit modify ret];
      world_simpl; reflexivity];
    cbv beta iota; world_simpl.
  match goal with
  | |- context [bind (save_findings ?e ?j ?r ?l) _ ?w0] =>
      destruct (save_findings_run e j r l w0)
        as (rows & Δ2 & Λ2 & Hret & Ht2 & Hl2 & HΔ2 & Hp & Hc & Hk & Hn);
        cbv zeta in Hret, Ht2, Hl2;
        destruct (save_findings e j r l w0) as [c w2] eqn:Hsave
  end.
  simpl in Hret, Ht2, Hl2. subst c. world_simpl.
  erewrite run_bind; [|exact Hsave]. cbv beta iota.
  do 4 step. unfold ret.
  match goal with
  | |- context [finalizer env ?w0] =>
      destruct (confined_finalizer env w0) as (Δ3 & Λ3 & Ht3 & HΔ3 & Hl3 & HΛ3);
        destruct (finalizer env w0) as [[[]|e] w3] eqn:Hfin;
        [|by destruct (total_finalizer env w0) as [? Hx]; rewrite Hfin in Hx]
  end.
  cbn [fst snd trace log] in Ht3, Hl3. clear Hfin Hsave.
  change (EvFetchAgents :: Δ2) with ([EvFetchAgents] ++ Δ2) in Ht2.
  rewrite Ht2, Ht1 in Ht3. rewrite <- !app_assoc in Ht3.
  rewrite Hl2, Hl1, <- app_assoc in Hl3.
  destruct (attempted_elsewhere Δ3 HΔ3) as [Ha3 Hs3].
  pose proof (stored_reports_batches Δ2 HΔ2) as Hs2.
  eapply HP; [exact Ht3|exact Hl3|..].
  - rewrite !stored_reports_app, Hs1, Hs2, Hs3. reflexivity.
  - exact Hp.
  - rewrite !attempted_app, Ha1, Ha3. cbn. by rewrite app_nil_r.
  - rewrite !attempted_app, Ha1, Ha3. cbn. by rewrite app_nil_r.
  - unfold refused_batches.
    rewrite !attempted_app, Ha1, Ha3. cbn. rewrite app_nil_r.
    by rewrite List.filter_app, (batch_errors_none Λ3), app_nil_r.
Qed.

(** C5.  In a run in which the analysis goes through: when the store
    refuses the aggregate report, [processReviewJob] rethrows the store's
    error and leaves the job failed with that error's message.  When the
    store takes the aggregate report, the job ends completed whatever the
    store answers to the batches of findings, and the run's trace and log
    show why: the report was stored; every finding of the stored report,
    file by file, was handed to the store in the batches, also after a
    refused batch; batch number [k] was accepted exactly when the store
    had no error for it; and the log has one batch error per refused
    batch.  The loop over the batches on its own never raises, hands over
    every finding and writes one error entry per refusal. *)
Theorem persistence_failures (env : Env) (job : ReviewQueue.JobData)
    (w : World) :
  analysis_goes_through env →
  let run := processReviewJob env job w in
  match results_fault env with
  | Some e => run.1 = Throw e ∧ failed_with e (job_row run.2)
  | None =>
      (∃ r, run.1 = Return r ∧ r_status r = completed) ∧
      completed_row (job_row run.2) ∧
      ∃ T Λ row rows,
        trace run.2 = trace w ++ T ∧ log run.2 = log w ++ Λ ∧
        stored_reports T = [(row, true)] ∧
        map file_path rows
        = map fst (flattened (fileResults (rr_results row))) ∧
        concat (map fst (attempted T)) = rows ∧
        (∀ k b a, attempted T !! k = Some (b, a) →
           (a = true ↔ reviews_fault env k = None)) ∧
        length (List.filter is_batch_error Λ) = refused_batches T
  end ∧
  (∀ allFindings w0,
     let batches :=
       insert_batches env (length allFindings) allFindings 0 0 w0 in
     ∃ n Δ Λ, batches.1 = Return n ∧
              batches_done allFindings 0 w0 batches.2 Δ Λ).
Proof.
  intros Hgo run. subst run. split.
  - destruct (results_fault env) as [e|] eqn:Hfault.
    + by apply aggregate_failure_fails_job.
    + destruct (findings_failure_completes_job env Hgo job w Hfault)
        as [Hret Hrow].
      split; [exact Hret|]. split; [exact Hrow|].
      apply (run_saves_findings env job w
               (λ r, ∃ T Λ row rows,
                  trace r.2 = trace w ++ T ∧ log r.2 = log w ++ Λ ∧
                  stored_reports T = [(row, true)] ∧
                  map file_path rows
                  = map fst (flattened (fileResults (rr_results row))) ∧
                  concat (map fst (attempted T)) = rows ∧
                  (∀ k b a, attempted T !! k = Some (b, a) →
                     (a = true ↔ reviews_fault env k = None)) ∧
                  length (List.filter is_batch_error Λ) = refused_batches T)
               Hgo Hfault).
      intros r w' T Λ row rows H1 H2 H3 H4 H5 H6 H7.
      by exists T, Λ, row, rows.
  - intros allFindings w0. apply insert_batches_run.
    unfold BATCH_SIZE. lia.
Qed.

Lemma persistence_failures_witness :
  let run :=
    processReviewJob sample_env sample_job
      (initial_world created_job "pending") in
  completed_row (job_row run.2) ∧
  length (concat (map fst (attempted (trace run.2)))) = 9%nat ∧
  refused_batches (trace run.2) = 1%nat ∧
  length (List.filter is_batch_error (log run.2)) = 1%nat.
Proof.
  pose proof (persistence_failures sample_env sample_job
                (initial_world created_job "pending")) as H.
  destruct H as [H _].
  - split; [split; intros k; reflexivity|].
    split; [by eexists|]. split; [reflexivity|by eexists].
  - destruct H as (_ & Hrow & T & Λ & row & rows & Ht & Hl & _ & _ & _ & _ & Hn).
    split; [exact Hrow|]. split; [vm_compute; reflexivity|].
    rewrite Hl. change (log (initial_world created_job "pending")) with
      (@nil LogEntry). rewrite app_nil_l, Hn.
    assert (HT : T = trace (processReviewJob sample_env sample_job
                              (initial_world created_job "pending")).2)
      by (by rewrite Ht).
    rewrite HT. split; vm_compute; reflexivity.
Defined.

End PipelineProps.
